(** * jitsi-meet-logger: the log collector

    A shallow embedding of the batching transport of the logging library:

    - [TsCollector] follows [lib/LogCollector.ts] (class [LogCollector]);
    - [JsCollector] follows the JavaScript [LogCollector] that guards its
      calls into the log storage ([_storeLogs], the [try]/[catch] around
      [isReady]) and formats with [msg += arg].

    JavaScript values are a small inductive type, the log storage is an
    external object with a state of its own whose two methods may return
    or raise, and the collector's methods are programs of a state and
    exception monad over the collector, the storage, the pending timeouts
    and the list of observable calls. *)

From Stdlib Require Import ZArith List String Ascii Bool Lia DecimalString.
Import ListNotations.

#[local] Open Scope string_scope.
#[local] Open Scope list_scope.
#[local] Open Scope Z_scope.

(* ================================================================== *)
(** * JavaScript values *)

(** An object is represented by what the collector can observe of it:
    whether it is an [Error], the text [String(o)] yields, the text
    [JSON.stringify(o)] yields ([None] when it raises, as it does on a
    circular structure), and its [stack] property.

    Every value here converts to text: a Symbol, or an object whose
    conversion to text raises, is not among them. What [_log] does when
    formatting raises is in [JsWithFormatter] and [TsWithFormatter]
    below, where the formatter is a method that may raise. *)
Record JsObj := mkObj {
  isError : bool;
  toString : string;
  toJSON : option string;
  stack : string
}.

(** Numbers are integers here; strings are sequences of code units. *)
Inductive JsValue :=
| JsUndefined
| JsNull
| JsBool (b : bool)
| JsNumber (z : Z)
| JsString (s : string)
| JsObject (o : JsObj).

(** The result of a call: it returns or it raises. *)
Inductive Outcome (A : Type) :=
| Ret (a : A)
| Throw (e : JsValue).
Arguments Ret {A} a.
Arguments Throw {A} e.

Definition returned {A} (r : Outcome A) : bool :=
  match r with Ret _ => true | Throw _ => false end.

(** [typeof v === 'object'] (functions are not values of this model). *)
Definition typeof_object (v : JsValue) : bool :=
  match v with
  | JsNull | JsObject _ => true
  | _ => false
  end.

(** [v instanceof Error]. *)
Definition instanceof_Error (v : JsValue) : bool :=
  match v with
  | JsObject o => isError o
  | _ => false
  end.

(** Truthiness, as tested by [if (v)] and [v ? a : b]. *)
Definition truthy (v : JsValue) : bool :=
  match v with
  | JsUndefined | JsNull => false
  | JsBool b => b
  | JsNumber z => negb (z =? 0)
  | JsString s => negb (String.eqb s "")
  | JsObject _ => true
  end.

Definition decimal (z : Z) : string := NilZero.string_of_int (Z.to_int z).

(** [String(v)], which is also what [msg += v] appends. *)
Definition ToString (v : JsValue) : string :=
  match v with
  | JsUndefined => "undefined"
  | JsNull => "null"
  | JsBool true => "true"
  | JsBool false => "false"
  | JsNumber z => decimal z
  | JsString s => s
  | JsObject o => toString o
  end.

(** [a === b] where [b] is a string. *)
Definition strict_eq_string (a : JsValue) (b : string) : bool :=
  match a with
  | JsString s => String.eqb s b
  | _ => false
  end.

(** [Array.prototype.join]: [undefined] and [null] elements give the
    empty text, every other element its [ToString]. *)
Definition join_element (v : JsValue) : string :=
  match v with
  | JsUndefined | JsNull => ""
  | _ => ToString v
  end.

Fixpoint join (sep : string) (parts : list JsValue) : string :=
  match parts with
  | [] => ""
  | [v] => join_element v
  | v :: rest => join_element v ++ sep ++ join sep rest
  end.

(** ** [JSON.stringify] *)

Definition hex_digit (n : nat) : ascii :=
  nth n (list_ascii_of_string "0123456789abcdef") "0"%char.

Definition quote_char : ascii := ascii_of_nat 34.
Definition backslash : ascii := ascii_of_nat 92.

Definition json_escape_char (c : ascii) : string :=
  let n := nat_of_ascii c in
  if Nat.eqb n 34 then String backslash (String quote_char "")
  else if Nat.eqb n 92 then String backslash (String backslash "")
  else if Nat.eqb n 8 then String backslash "b"
  else if Nat.eqb n 9 then String backslash "t"
  else if Nat.eqb n 10 then String backslash "n"
  else if Nat.eqb n 12 then String backslash "f"
  else if Nat.eqb n 13 then String backslash "r"
  else if Nat.ltb n 32 then
    String backslash
      ("u00" ++ String (hex_digit (Nat.div n 16)) (String (hex_digit (Nat.modulo n 16)) ""))
  else String c "".

Fixpoint json_escape (s : string) : string :=
  match s with
  | EmptyString => ""
  | String c rest => json_escape_char c ++ json_escape rest
  end.

Definition json_quote (s : string) : string :=
  String quote_char (json_escape s ++ String quote_char "").

Definition TypeError (msg : string) : JsValue :=
  JsObject (mkObj true ("TypeError: " ++ msg) (Some "{}") "").

(** [JSON.stringify(v)]: [undefined] stays [undefined], an object gives
    its JSON text or raises. *)
Definition JSON_stringify (v : JsValue) : Outcome JsValue :=
  match v with
  | JsUndefined => Ret JsUndefined
  | JsNull => Ret (JsString "null")
  | JsBool true => Ret (JsString "true")
  | JsBool false => Ret (JsString "false")
  | JsNumber z => Ret (JsString (decimal z))
  | JsString s => Ret (JsString (json_quote s))
  | JsObject o =>
      match toJSON o with
      | Some s => Ret (JsString s)
      | None => Throw (TypeError "Converting circular structure to JSON")
      end
  end.

(* ================================================================== *)
(** * The level table *)

Module Logger.

(** [Logger.levels]: the keys and their values, in declaration order. *)
Definition levels : list (string * string) :=
  [ ("TRACE", "trace"); ("DEBUG", "debug"); ("INFO", "info");
    ("LOG", "log"); ("WARN", "warn"); ("ERROR", "error") ].

Definition keys (o : list (string * string)) : list string := map fst o.
Definition values (o : list (string * string)) : list string := map snd o.

(** [o[k]], [None] standing for [undefined]. *)
Fixpoint get (o : list (string * string)) (k : string) : option string :=
  match o with
  | [] => None
  | (k', v) :: rest => if String.eqb k k' then Some v else get rest k
  end.

(** [Logger.levels.ERROR]. *)
Definition levels_ERROR : string :=
  match get levels "ERROR" with Some v => v | None => "undefined" end.

End Logger.

(* ================================================================== *)
(** * The collector's data *)

(** An entry of the queue: [{ text, timestamp, count }]. *)
Record LogEntry := mkEntry {
  text : string;
  timestamp : JsValue;
  count : nat
}.

(** The constructor's [options]; an absent field is [None]. *)
Record Options := mkOptions {
  opt_maxEntryLength : option Z;
  opt_storeInterval : option Z;
  opt_stringifyObjects : option bool
}.

(** The fields of a [LogCollector] object, the reference to the log
    storage apart (the storage lives in the [World]). [levelMethods] is
    the table of the per-level methods the constructor installs: the
    method's name and the first argument bound to it. *)
Record Collector := mkCollector {
  stringifyObjects : bool;
  storeInterval : Z;
  maxEntryLength : Z;
  levelMethods : list (string * string);
  storeLogsIntervalID : option nat;
  queue : list LogEntry;
  totalLen : Z;
  outputCache : list (list LogEntry)
}.

Definition set_storeLogsIntervalID (c : Collector) (v : option nat) : Collector :=
  mkCollector (stringifyObjects c) (storeInterval c) (maxEntryLength c)
    (levelMethods c) v (queue c) (totalLen c) (outputCache c).

Definition set_queue (c : Collector) (v : list LogEntry) : Collector :=
  mkCollector (stringifyObjects c) (storeInterval c) (maxEntryLength c)
    (levelMethods c) (storeLogsIntervalID c) v (totalLen c) (outputCache c).

Definition set_totalLen (c : Collector) (v : Z) : Collector :=
  mkCollector (stringifyObjects c) (storeInterval c) (maxEntryLength c)
    (levelMethods c) (storeLogsIntervalID c) (queue c) v (outputCache c).

Definition set_outputCache (c : Collector) (v : list (list LogEntry)) : Collector :=
  mkCollector (stringifyObjects c) (storeInterval c) (maxEntryLength c)
    (levelMethods c) (storeLogsIntervalID c) (queue c) (totalLen c) v.

(** What the collector does to the outside, in the order it does it. *)
Inductive Event :=
| CallIsReady (r : Outcome bool)
| CallStoreLogs (logs : list LogEntry) (r : Outcome unit)
| ConsoleError (msg : string) (err : JsValue).

(** The log storage: an object with a state [S] and the two methods of
    its interface, each of which returns or raises and may change the
    state. *)
Record LogStorage (S : Type) := mkLogStorage {
  isReady : S -> Outcome bool * S;
  storeLogs : list LogEntry -> S -> Outcome unit * S
}.
Arguments isReady {S} _ _.
Arguments storeLogs {S} _ _ _.

(** The state a method of the collector runs in: the collector object,
    the storage's state, the pending timeouts of [window] (identifier
    and delay; the callback is always [_flush(false, true)]), the next
    identifier [setTimeout] hands out, and the calls made so far. *)
Record World (S : Type) := mkWorld {
  this : Collector;
  storage : S;
  timeouts : list (nat * Z);
  nextTimeoutID : nat;
  events : list Event
}.
Arguments mkWorld {S} _ _ _ _ _.
Arguments this {S} _.
Arguments storage {S} _.
Arguments timeouts {S} _.
Arguments nextTimeoutID {S} _.
Arguments events {S} _.

(* ================================================================== *)
(** * The monad of methods *)

Definition M (S A : Type) : Type := World S -> Outcome A * World S.

Definition ret {S A} (a : A) : M S A := fun w => (Ret a, w).

Definition bind {S A B} (m : M S A) (k : A -> M S B) : M S B :=
  fun w =>
    match m w with
    | (Ret a, w') => k a w'
    | (Throw e, w') => (Throw e, w')
    end.

Definition throw {S A} (e : JsValue) : M S A := fun w => (Throw e, w).

(** [try { body } catch (error) { handler(error) }]. *)
Definition try_catch {S A} (body : M S A) (handler : JsValue -> M S A) : M S A :=
  fun w =>
    match body w with
    | (Ret a, w') => (Ret a, w')
    | (Throw e, w') => handler e w'
    end.

Declare Scope js_scope.
Delimit Scope js_scope with js.
Notation "x <- m ;; k" := (bind m (fun x => k))
  (at level 61, m at next level, right associativity) : js_scope.
Notation "m ;; k" := (bind m (fun _ => k))
  (at level 61, right associativity) : js_scope.

Section Primitives.
Context {S : Type}.
Variable logStorage : LogStorage S.

Definition get_this : M S Collector := fun w => (Ret (this w), w).

Definition update_this (f : Collector -> Collector) : M S unit :=
  fun w => (Ret tt, mkWorld (f (this w)) (storage w) (timeouts w)
                      (nextTimeoutID w) (events w)).

Definition emit (e : Event) : M S unit :=
  fun w => (Ret tt, mkWorld (this w) (storage w) (timeouts w)
                      (nextTimeoutID w) (events w ++ [e])).

(** [this.logStorage.isReady()]. *)
Definition call_isReady : M S bool :=
  fun w =>
    let (r, s') := isReady logStorage (storage w) in
    (r, mkWorld (this w) s' (timeouts w) (nextTimeoutID w)
          (events w ++ [CallIsReady r])).

(** [this.logStorage.storeLogs(logs)]. *)
Definition call_storeLogs (logs : list LogEntry) : M S unit :=
  fun w =>
    let (r, s') := storeLogs logStorage logs (storage w) in
    (r, mkWorld (this w) s' (timeouts w) (nextTimeoutID w)
          (events w ++ [CallStoreLogs logs r])).

(** [console.error(msg, error)]. *)
Definition console_error (msg : string) (err : JsValue) : M S unit :=
  emit (ConsoleError msg err).

(** [window.clearTimeout(id)]. *)
Definition clearTimeout (id : nat) : M S unit :=
  fun w => (Ret tt, mkWorld (this w) (storage w)
                      (filter (fun t => negb (Nat.eqb (fst t) id)) (timeouts w))
                      (nextTimeoutID w) (events w)).

(** [window.setTimeout(callback, delay)]: the new timeout's identifier. *)
Definition setTimeout (delay : Z) : M S nat :=
  fun w => (Ret (nextTimeoutID w),
            mkWorld (this w) (storage w)
              (timeouts w ++ [(nextTimeoutID w, delay)])
              (Datatypes.S (nextTimeoutID w)) (events w)).

(** [list.forEach(f)]. *)
Fixpoint forEach {A} (l : list A) (f : A -> M S unit) : M S unit :=
  match l with
  | [] => ret tt
  | x :: rest => bind (f x) (fun _ => forEach rest f)
  end.

End Primitives.

(* ================================================================== *)
(** * Code the two files share *)

(** [options && options.field ? options.field : default]. *)
Definition option_or {A} (truthyA : A -> bool) (options : option Options)
    (field : Options -> option A) (default : A) : A :=
  match options with
  | Some o =>
      match field o with
      | Some v => if truthyA v then v else default
      | None => default
      end
  | None => default
  end.

Definition truthy_number (z : Z) : bool := truthy (JsNumber z).
Definition truthy_boolean (b : bool) : bool := truthy (JsBool b).

(** [this[name] = value] on the table of level methods; [Logger.get]
    reads it, so that a later assignment to a name wins. *)
Definition assign (table : list (string * string)) (name value : string) :=
  (name, value) :: table.

(** The last element of an array together with the elements before it. *)
Definition unsnoc {A} (l : list A) : option (list A * A) :=
  match rev l with
  | [] => None
  | x :: before => Some (rev before, x)
  end.

Definition length_of (s : string) : Z := Z.of_nat (String.length s).

Definition stringify (someObject : JsValue) : JsValue :=
  match JSON_stringify someObject with
  | Ret s => s
  | Throw _ => JsString "[object with circular refs?]"
  end.

(** The block [if (msg) { ... }] of [_log]: the aggregation of the new
    message [msg] ([None] is [null]) with the queue's last entry. *)
Definition aggregate (c : Collector) (msg : option string) (stamp : JsValue)
    : Collector :=
  match msg with
  | Some msg =>
      if truthy (JsString msg) then
        let push :=
          set_totalLen
            (set_queue c (queue c ++ [mkEntry msg stamp 1%nat]))
            (totalLen c + length_of msg) in
        match unsnoc (queue c) with
        | Some (before, prevMessage) =>
            if String.eqb (text prevMessage) msg then
              set_queue c
                (before ++ [mkEntry (text prevMessage) (timestamp prevMessage)
                              (count prevMessage + 1)%nat])
            else push
        | None => push
        end
      else c
  | None => c
  end.

Section Reschedule.
Context {S : Type}.
#[local] Open Scope js_scope.

Definition _reschedulePublishInterval : M S unit :=
  c <- get_this ;;
  (match storeLogsIntervalID c with
   | Some id =>
       if negb (Nat.eqb id 0) then
         clearTimeout id ;;
         update_this (fun c => set_storeLogsIntervalID c None)
       else ret tt
   | None => ret tt
   end) ;;
  c <- get_this ;;
  id <- setTimeout (storeInterval c) ;;
  update_this (fun c => set_storeLogsIntervalID c (Some id)).

(** [window] takes the expired timeout [id] off its list before it
    runs the callback. *)
Definition expire (id : nat) (w : World S) : World S :=
  mkWorld (this w) (storage w)
    (filter (fun t => negb (Nat.eqb (fst t) id)) (timeouts w))
    (nextTimeoutID w) (events w).

Definition pending (id : nat) (w : World S) : bool :=
  existsb (fun t => Nat.eqb (fst t) id) (timeouts w).

End Reschedule.

(* ================================================================== *)
(** * [lib/LogCollector.ts] *)

Module TsCollector.

(** [constructor(logStorage, options)]: the fields of the new object.
    Each key of [Logger.levels] gives one method, named by the key's
    value and bound to the key. *)
Definition constructor (options : option Options) : Collector :=
  {| stringifyObjects := option_or truthy_boolean options opt_stringifyObjects false;
     storeInterval := option_or truthy_number options opt_storeInterval 30000;
     maxEntryLength := option_or truthy_number options opt_maxEntryLength 10000;
     levelMethods :=
       fold_left
         (fun table logLevel =>
            match Logger.get Logger.levels logLevel with
            | Some methodName => assign table methodName logLevel
            | None => assign table "undefined" logLevel
            end)
         (Logger.keys Logger.levels) [];
     storeLogsIntervalID := None;
     queue := [];
     totalLen := 0;
     outputCache := [] |}.

(** The closure [processArg] of [formatLogMessage]: [parts] after the
    push. *)
Definition processArg (c : Collector) (logLevel : JsValue)
    (parts : list JsValue) (arg : JsValue) : list JsValue :=
  let arg :=
    if (stringifyObjects c || strict_eq_string logLevel Logger.levels_ERROR)
       && typeof_object arg
    then stringify arg
    else arg in
  parts ++ [arg].

(** [formatLogMessage(logLevel, timestamp, ...args)], applied to the
    whole argument list; [None] is [null]. *)
Definition formatLogMessage (c : Collector) (arguments : list JsValue)
    : option string :=
  let logLevel := nth 0 arguments JsUndefined in
  let stamp := nth 1 arguments JsUndefined in
  let args := skipn 2 arguments in
  let parts := if truthy stamp then processArg c logLevel [] stamp else [] in
  let parts := fold_left (processArg c logLevel) args parts in
  if Nat.eqb (List.length parts) 0 then None else Some (join "," parts).

Section Methods.
Context {S : Type}.
Variable logStorage : LogStorage S.

#[local] Open Scope js_scope.

Definition _flush (force reschedule : bool) : M S unit :=
  c <- get_this ;;
  publish <- (if 0 <? totalLen c
              then ready <- call_isReady logStorage ;; ret (ready || force)
              else ret false) ;;
  (if publish : bool then
     ready <- call_isReady logStorage ;;
     (if ready : bool then
        c <- get_this ;;
        (if negb (Nat.eqb (List.length (outputCache c)) 0) then
           forEach (outputCache c)
             (fun cachedQueue => call_storeLogs logStorage cachedQueue) ;;
           update_this (fun c => set_outputCache c [])
         else ret tt) ;;
        c <- get_this ;;
        call_storeLogs logStorage (queue c)
      else
        update_this (fun c => set_outputCache c (outputCache c ++ [queue c]))) ;;
     update_this (fun c => set_queue c []) ;;
     update_this (fun c => set_totalLen c 0)
   else ret tt) ;;
  if reschedule then _reschedulePublishInterval else ret tt.

Definition _log (args : list JsValue) : M S unit :=
  update_this
    (fun c => aggregate c (formatLogMessage c args) (nth 1 args JsUndefined)) ;;
  c <- get_this ;;
  if maxEntryLength c <=? totalLen c
  then _flush true true
  else ret tt.

Definition start : M S unit := _reschedulePublishInterval.

Definition flush : M S unit := _flush false true.

Definition stop : M S unit := _flush false false.

(** A call [collector[methodName](...args)] of a per-level method:
    [_log] with the bound first argument put in front. *)
Definition call_level (methodName : string) (args : list JsValue) : M S unit :=
  c <- get_this ;;
  match Logger.get (levelMethods c) methodName with
  | Some logLevel => _log (JsString logLevel :: args)
  | None => throw (TypeError (methodName ++ " is not a function"))
  end.

(** The pending timeout [id] expires: [window] runs its callback,
    [_flush(false, true)]. *)
Definition timeout_expires (id : nat) : M S unit :=
  fun w => if pending id w then _flush false true (expire id w) else (Ret tt, w).

End Methods.

End TsCollector.

(* ================================================================== *)
(** * The JavaScript [LogCollector] with guarded storage calls *)

Module JsCollector.

(** [LogCollector(logStorage, options)]: here each value of
    [Logger.levels] gives one method, named by the value and bound to
    it. *)
Definition constructor (options : option Options) : Collector :=
  {| stringifyObjects := option_or truthy_boolean options opt_stringifyObjects false;
     storeInterval := option_or truthy_number options opt_storeInterval 30000;
     maxEntryLength := option_or truthy_number options opt_maxEntryLength 10000;
     levelMethods :=
       fold_left (fun table logLevel => assign table logLevel logLevel)
         (Logger.values Logger.levels) [];
     storeLogsIntervalID := None;
     queue := [];
     totalLen := 0;
     outputCache := [] |}.

(** What one turn of the loop of [formatLogMessage] appends for [arg]:
    [arg.toString() + ': ' + arg.stack] for an [Error], the stringified
    object under [stringifyObjects], [arg] itself otherwise. *)
Definition append_arg (c : Collector) (arg : JsValue) : string :=
  if instanceof_Error arg then
    match arg with
    | JsObject o => toString o ++ ": " ++ stack o
    | _ => ToString arg
    end
  else if stringifyObjects c && typeof_object arg then ToString (stringify arg)
  else ToString arg.

(** The loop [for (i = 1; i < len; i++)] over the arguments after the
    first, [msg] being the text built so far. *)
Fixpoint format_loop (c : Collector) (msg : string) (args : list JsValue) : string :=
  match args with
  | [] => msg
  | arg :: rest =>
      let msg := (msg ++ append_arg c arg)%string in
      let msg := match rest with [] => msg | _ :: _ => (msg ++ " ")%string end in
      format_loop c msg rest
  end.

Definition formatLogMessage (c : Collector) (arguments : list JsValue)
    : option string :=
  let msg := format_loop c "" (skipn 1 arguments) in
  if Nat.eqb (String.length msg) 0 then None else Some msg.

Section Methods.
Context {S : Type}.
Variable logStorage : LogStorage S.

#[local] Open Scope js_scope.

Definition _storeLogs (logs : list LogEntry) : M S unit :=
  try_catch (call_storeLogs logStorage logs)
    (fun error =>
       console_error "LogCollector error when calling logStorage.storeLogs(): " error).

Definition _flush (force reschedule : bool) : M S unit :=
  logStorageReady <-
    try_catch (call_isReady logStorage)
      (fun error =>
         console_error "LogCollector error when calling logStorage.isReady(): " error ;;
         ret false) ;;
  c <- get_this ;;
  (if (0 <? totalLen c) && (logStorageReady || force) then
     (if logStorageReady : bool then
        (if negb (Nat.eqb (List.length (outputCache c)) 0) then
           forEach (outputCache c) (fun cachedQueue => _storeLogs cachedQueue) ;;
           update_this (fun c => set_outputCache c [])
         else ret tt) ;;
        c <- get_this ;;
        _storeLogs (queue c)
      else
        update_this (fun c => set_outputCache c (outputCache c ++ [queue c]))) ;;
     update_this (fun c => set_queue c []) ;;
     update_this (fun c => set_totalLen c 0)
   else ret tt) ;;
  if reschedule then _reschedulePublishInterval else ret tt.

Definition _log (args : list JsValue) : M S unit :=
  update_this
    (fun c => aggregate c (formatLogMessage c args) (nth 1 args JsUndefined)) ;;
  c <- get_this ;;
  if maxEntryLength c <=? totalLen c
  then _flush true true
  else ret tt.

Definition start : M S unit := _reschedulePublishInterval.

Definition flush : M S unit := _flush false true.

Definition stop : M S unit := _flush false false.

Definition call_level (methodName : string) (args : list JsValue) : M S unit :=
  c <- get_this ;;
  match Logger.get (levelMethods c) methodName with
  | Some logLevel => _log (JsString logLevel :: args)
  | None => throw (TypeError (methodName ++ " is not a function"))
  end.

Definition timeout_expires (id : nat) : M S unit :=
  fun w => if pending id w then _flush false true (expire id w) else (Ret tt, w).

End Methods.

End JsCollector.

(* ================================================================== *)
(** * Runs, invariants and the words of the specification *)

(** A fresh page: no timeout pending, no call made yet. *)
Definition new_world {S} (c : Collector) (s : S) : World S :=
  mkWorld c s [] 1%nat [].

(** The sum of the lengths of the texts of a queue, each entry counted
    once. *)
Fixpoint sum_lengths (q : list LogEntry) : Z :=
  match q with
  | [] => 0
  | e :: rest => length_of (text e) + sum_lengths rest
  end.

(** The collector's bookkeeping is sound: [totalLen] is the sum of the
    lengths of the queued texts and no queued text is empty. *)
Definition collector_ok (c : Collector) : Prop :=
  totalLen c = sum_lengths (queue c) /\ Forall (fun e => text e <> "") (queue c).

(** The next [n] readiness queries all return [b]. *)
Fixpoint reports {S} (ls : LogStorage S) (b : bool) (n : nat) (s : S) : Prop :=
  match n with
  | O => True
  | Datatypes.S n' =>
      fst (isReady ls s) = Ret b /\ reports ls b n' (snd (isReady ls s))
  end.

(** The storage's state after [n] readiness queries. *)
Fixpoint after_queries {S} (ls : LogStorage S) (n : nat) (s : S) : S :=
  match n with
  | O => s
  | Datatypes.S n' => after_queries ls n' (snd (isReady ls s))
  end.

(** The store calls for the batches [l], made in this order from the
    state [s], all return. *)
Fixpoint stores_return {S} (ls : LogStorage S) (l : list (list LogEntry)) (s : S)
    : Prop :=
  match l with
  | [] => True
  | logs :: rest =>
      fst (storeLogs ls logs s) = Ret tt
      /\ stores_return ls rest (snd (storeLogs ls logs s))
  end.

(** The storage's state after the store calls for the batches [l]. *)
Fixpoint after_stores {S} (ls : LogStorage S) (l : list (list LogEntry)) (s : S) : S :=
  match l with
  | [] => s
  | logs :: rest => after_stores ls rest (snd (storeLogs ls logs s))
  end.

(** The batches handed to [storeLogs], in call order. *)
Fixpoint store_calls (evs : list Event) : list (list LogEntry) :=
  match evs with
  | [] => []
  | CallStoreLogs logs _ :: rest => logs :: store_calls rest
  | _ :: rest => store_calls rest
  end.

(** The errors reported on the console, in order. *)
Fixpoint console_errors (evs : list Event) : list JsValue :=
  match evs with
  | [] => []
  | ConsoleError _ err :: rest => err :: console_errors rest
  | _ :: rest => console_errors rest
  end.

(** ** Run-length grouping, in the words of the specification

    Each maximal run of [n] consecutive identical texts gives one pair
    with count [n]. *)
Fixpoint group_runs (texts : list string) : list (string * nat) :=
  match texts with
  | [] => []
  | t :: rest =>
      match group_runs rest with
      | (t', n) :: groups =>
          if String.eqb t t' then (t, Datatypes.S n) :: groups
          else (t, 1%nat) :: (t', n) :: groups
      | [] => [(t, 1%nat)]
      end
  end.

(** One more text in front of a grouped list, and one more behind it. *)
Definition cons_run (t : string) (groups : list (string * nat)) : list (string * nat) :=
  match groups with
  | (t', n) :: rest =>
      if String.eqb t t' then (t, Datatypes.S n) :: rest
      else (t, 1%nat) :: (t', n) :: rest
  | [] => [(t, 1%nat)]
  end.

Fixpoint snoc_run (groups : list (string * nat)) (t : string) : list (string * nat) :=
  match groups with
  | [] => [(t, 1%nat)]
  | (t', n) :: rest =>
      match rest with
      | [] => if String.eqb t' t then [(t', (n + 1)%nat)] else [(t', n); (t, 1%nat)]
      | _ :: _ => (t', n) :: snoc_run rest t
      end
  end.

(** The texts a grouped list stands for. *)
Fixpoint expand (groups : list (string * nat)) : list string :=
  match groups with
  | [] => []
  | (t, n) :: rest => repeat t n ++ expand rest
  end.

(** No two neighbours carry the same text. *)
Fixpoint neighbours_differ (groups : list (string * nat)) : Prop :=
  match groups with
  | [] => True
  | (t, _) :: rest =>
      match rest with
      | [] => True
      | (t', _) :: _ => t <> t'
      end /\ neighbours_differ rest
  end.

Definition entry_pair (e : LogEntry) : string * nat := (text e, count e).

(** The collector after its queue went to the cache. *)
Definition cached (c : Collector) : Collector :=
  set_totalLen (set_queue (set_outputCache c (outputCache c ++ [queue c])) []) 0.

(** The reschedule step at the end of [_flush]. *)
Definition finish {S} (reschedule : bool) : M S unit :=
  if reschedule then _reschedulePublishInterval else ret tt.

(** The method [m] keeps the property [P] of the collector object,
    whether it returns or raises. *)
Definition keeps {S A} (P : Collector -> Prop) (m : M S A) : Prop :=
  forall w, P (this w) -> P (this (snd (m w))).

(** The method [m] returns, whatever the storage does. *)
Definition never_raises {S A} (m : M S A) : Prop :=
  forall w, returned (fst (m w)) = true.

(** ** Operations on a collector *)

(** A submission: the name of the per-level method called and the
    arguments of the call. *)
Definition Submission : Type := string * list JsValue.

(** Whatever can happen to a collector: a call of a per-level method, a
    call of a public method, a call of [_flush] with any flags, the
    expiry of a timeout, and the storage changing state on its own. *)
Inductive Op (S : Type) :=
| OpLevel (methodName : string) (args : list JsValue)
| OpStart
| OpFlush
| OpStop
| OpInternalFlush (force reschedule : bool)
| OpTimeout (id : nat)
| OpStorage (s : S).
Arguments OpLevel {S} _ _.
Arguments OpStart {S}.
Arguments OpFlush {S}.
Arguments OpStop {S}.
Arguments OpInternalFlush {S} _ _.
Arguments OpTimeout {S} _.
Arguments OpStorage {S} _.

Definition set_storage {S} (s : S) : M S unit :=
  fun w => (Ret tt, mkWorld (this w) s (timeouts w) (nextTimeoutID w) (events w)).

Module TsRun.
Section Run.
Context {S : Type}.
Variable logStorage : LogStorage S.

Definition run_op (op : Op S) : M S unit :=
  match op with
  | OpLevel methodName args => TsCollector.call_level logStorage methodName args
  | OpStart => TsCollector.start
  | OpFlush => TsCollector.flush logStorage
  | OpStop => TsCollector.stop logStorage
  | OpInternalFlush force reschedule => TsCollector._flush logStorage force reschedule
  | OpTimeout id => TsCollector.timeout_expires logStorage id
  | OpStorage s => set_storage s
  end.

(** The operations one after the other; an operation that raises
    leaves the state it had reached to the next one. *)
Definition run (ops : list (Op S)) (w : World S) : World S :=
  fold_left (fun w op => snd (run_op op w)) ops w.

(** The text a submission is formatted to, [None] when nothing is
    queued for it. *)
Definition formatted (c : Collector) (sub : Submission) : option string :=
  match Logger.get (levelMethods c) (fst sub) with
  | Some logLevel =>
      match TsCollector.formatLogMessage c (JsString logLevel :: snd sub) with
      | Some msg => if truthy (JsString msg) then Some msg else None
      | None => None
      end
  | None => None
  end.

(** The collector as the submission's message leaves it, before the
    size check. *)
Definition aggregated (c : Collector) (sub : Submission) : Collector :=
  match Logger.get (levelMethods c) (fst sub) with
  | Some logLevel =>
      aggregate c (TsCollector.formatLogMessage c (JsString logLevel :: snd sub))
        (nth 1 (JsString logLevel :: snd sub) JsUndefined)
  | None => c
  end.

(** The size check fires for none of the submissions. *)
Fixpoint no_flush (subs : list Submission) (w : World S) : Prop :=
  match subs with
  | [] => True
  | sub :: rest =>
      totalLen (aggregated (this w) sub) < maxEntryLength (this w)
      /\ no_flush rest (snd (TsCollector.call_level logStorage (fst sub) (snd sub) w))
  end.

Definition submit_all (subs : list Submission) (w : World S) : World S :=
  run (map (fun sub => OpLevel (fst sub) (snd sub)) subs) w.

End Run.
End TsRun.

Module JsRun.
Section Run.
Context {S : Type}.
Variable logStorage : LogStorage S.

Definition run_op (op : Op S) : M S unit :=
  match op with
  | OpLevel methodName args => JsCollector.call_level logStorage methodName args
  | OpStart => JsCollector.start
  | OpFlush => JsCollector.flush logStorage
  | OpStop => JsCollector.stop logStorage
  | OpInternalFlush force reschedule => JsCollector._flush logStorage force reschedule
  | OpTimeout id => JsCollector.timeout_expires logStorage id
  | OpStorage s => set_storage s
  end.

Definition run (ops : list (Op S)) (w : World S) : World S :=
  fold_left (fun w op => snd (run_op op w)) ops w.

Definition submit_all (subs : list Submission) (w : World S) : World S :=
  run (map (fun sub => OpLevel (fst sub) (snd sub)) subs) w.

End Run.
End JsRun.

(** The non-empty texts of a list of formatted messages. *)
Fixpoint queued_texts (msgs : list (option string)) : list string :=
  match msgs with
  | [] => []
  | Some msg :: rest => msg :: queued_texts rest
  | None :: rest => queued_texts rest
  end.

(** The last statement of the specification's description of [stop()]:
    with the storage not ready, the pending batch ends up appended to
    the cache and no store call is made. *)
Definition stop_caches_pending_batch {S} (stop : M S unit) (w : World S) : Prop :=
  let w' := snd (stop w) in
  outputCache (this w') = outputCache (this w) ++ [queue (this w)]
  /\ store_calls (events w') = store_calls (events w).

(** ** Storages for the examples *)

(** A storage without state that answers [ready] and stores. *)
Definition plain_storage (ready : bool) : LogStorage unit :=
  {| isReady := fun s => (Ret ready, s);
     storeLogs := fun _ s => (Ret tt, s) |}.

Definition boom : JsValue :=
  JsObject (mkObj true "Error: boom" (Some "{}") "Error: boom at storage").

(** A storage whose [isReady] raises. *)
Definition unreachable_storage : LogStorage unit :=
  {| isReady := fun s => (Throw boom, s);
     storeLogs := fun _ s => (Ret tt, s) |}.

(** A ready storage whose [storeLogs] raises. *)
Definition failing_storage : LogStorage unit :=
  {| isReady := fun s => (Ret true, s);
     storeLogs := fun _ s => (Throw boom, s) |}.

(** A ready storage whose second store call raises; its state counts
    the store calls. *)
Definition flaky_storage : LogStorage nat :=
  {| isReady := fun s => (Ret true, s);
     storeLogs := fun _ s =>
       (if Nat.eqb s 1 then Throw boom else Ret tt, Datatypes.S s) |}.

Definition stamp1 : JsValue := JsString "2024-01-01T00:00:00.000Z".

(** The object [{ a: 1 }]. *)
Definition plain_object : JsValue :=
  JsObject (mkObj false "[object Object]"
              (Some ("{" ++ json_quote "a" ++ ":1}")%string) "").

(** The call [logger.log(t)] as [Logger] hands it to a transport: the
    method's name and the arguments, the timestamp first. *)
Definition log_call (t : string) : Submission := ("log", [stamp1; JsString t]).

(** The entry each file queues for [log_call t]. *)
Definition ts_line (t : string) : LogEntry :=
  mkEntry ("2024-01-01T00:00:00.000Z," ++ t) stamp1 1%nat.

Definition js_line (t : string) : LogEntry :=
  mkEntry ("2024-01-01T00:00:00.000Z " ++ t) stamp1 1%nat.

(** A collector that has been handed one message, [hello], in each
    file. *)
Definition hello_world : World unit :=
  TsRun.submit_all (plain_storage false) [log_call "hello"]
    (new_world (TsCollector.constructor None) tt).

Definition js_hello_world : World unit :=
  JsRun.submit_all (plain_storage false) [log_call "hello"]
    (new_world (JsCollector.constructor None) tt).

(** A collector with two batches in its cache and one message in its
    queue: with [maxEntryLength] 50 and a storage that is not ready,
    every second message of 26 characters forces a flush into the
    cache. *)
Definition backlog : list Submission :=
  [log_call "a"; log_call "b"; log_call "c"; log_call "d"; log_call "e"].

Definition backlog_world : World unit :=
  TsRun.submit_all (plain_storage false) backlog
    (new_world (TsCollector.constructor (Some (mkOptions (Some 50) None None))) tt).

(** The same collector in front of [flaky_storage], which has stored
    nothing yet. *)
Definition flaky_backlog_world : World nat :=
  mkWorld (this backlog_world) 0%nat (timeouts backlog_world)
    (nextTimeoutID backlog_world) (events backlog_world).

(** A collector with [maxEntryLength] 5, in each file. *)
Definition small_world : World unit :=
  new_world (TsCollector.constructor (Some (mkOptions (Some 5) None None))) tt.

Definition js_small_world : World unit :=
  new_world (JsCollector.constructor (Some (mkOptions (Some 5) None None))) tt.

Definition js_backlog_world : World unit :=
  JsRun.submit_all (plain_storage false) backlog
    (new_world (JsCollector.constructor (Some (mkOptions (Some 50) None None))) tt).

(* ================================================================== *)
(** * What becomes of the entries, the settings and the timeouts *)

(** Every entry the collector has handed to the storage, holds in its
    cache or holds in its queue, oldest first. *)
Definition all_entries {S} (w : World S) : list LogEntry :=
  List.concat (store_calls (events w))
  ++ List.concat (outputCache (this w))
  ++ queue (this w).

(** The messages the entries [l] stand for, each as often as it was
    counted. *)
Definition messages_of (l : list LogEntry) : list string :=
  expand (map entry_pair l).

(** The fields no flush assigns: the three options, the table of level
    methods and (before the reschedule step) the timeout's identifier. *)
Definition same_settings (c c' : Collector) : Prop :=
  stringifyObjects c' = stringifyObjects c
  /\ storeInterval c' = storeInterval c
  /\ maxEntryLength c' = maxEntryLength c
  /\ levelMethods c' = levelMethods c
  /\ storeLogsIntervalID c' = storeLogsIntervalID c.

(** At most one timeout is pending, and a pending timeout is the one the
    collector recorded, set for [storeInterval]. *)
Definition one_timeout {S} (w : World S) : Prop :=
  (timeouts w = []
   \/ exists id : nat,
        timeouts w = [(id, storeInterval (this w))]
        /\ storeLogsIntervalID (this w) = Some id
        /\ id <> 0%nat
        /\ (id < nextTimeoutID w)%nat)
  /\ (0 < nextTimeoutID w)%nat.

(** The storage never raises. *)
Definition reliable {S} (ls : LogStorage S) : Prop :=
  (forall s, returned (fst (isReady ls s)) = true)
  /\ (forall logs s, returned (fst (storeLogs ls logs s)) = true).

(** The text the guarded collector queues for an operation, if any. *)
Definition js_logged {S} (c : Collector) (op : Op S) : list string :=
  match op with
  | OpLevel methodName args =>
      match Logger.get (levelMethods c) methodName with
      | Some logLevel =>
          match JsCollector.formatLogMessage c (JsString logLevel :: args) with
          | Some msg => if truthy (JsString msg) then [msg] else []
          | None => []
          end
      | None => []
      end
  | _ => []
  end.

(** The text the TypeScript class queues for an operation, if any. *)
Definition ts_logged {S} (c : Collector) (op : Op S) : list string :=
  match op with
  | OpLevel methodName args =>
      match TsRun.formatted c (methodName, args) with
      | Some msg => [msg]
      | None => []
      end
  | _ => []
  end.

(** The arguments [formatLogMessage] of the TypeScript class joins when
    nothing is stringified: the timestamp if it is truthy, then the
    rest. *)
Definition raw_parts (arguments : list JsValue) : list JsValue :=
  (if truthy (nth 1 arguments JsUndefined) then [nth 1 arguments JsUndefined] else [])
  ++ skipn 2 arguments.

(** Texts joined by single spaces. *)
Fixpoint unwords (l : list string) : string :=
  match l with
  | [] => ""
  | [t] => t
  | t :: rest => (t ++ " " ++ unwords rest)%string
  end.

(* ================================================================== *)
(** * [src/Logger.ts]: the leveled logger *)

Module LoggerClass.

(** The module's [levels]: the rank of each level. *)
Definition levels : list (string * Z) :=
  [ ("trace", 0); ("debug", 1); ("info", 2); ("log", 3); ("warn", 4); ("error", 5) ].

(** [levels[level]], [None] standing for [undefined]. *)
Fixpoint lookup (o : list (string * Z)) (k : string) : option Z :=
  match o with
  | [] => None
  | (k', v) :: rest => if String.eqb k k' then Some v else lookup rest k
  end.

(** [a < b] on values that are numbers or [undefined]: a comparison
    with [undefined] is false. *)
Definition less_than (a b : option Z) : bool :=
  match a, b with
  | Some x, Some y => x <? y
  | _, _ => false
  end.

(** [Options]: [{ disableCallerInfo?: boolean }]. *)
Record Options := mkOptions { disableCallerInfo : option bool }.

Definition flag (o : option bool) : bool :=
  match o with Some b => b | None => false end.

(** A transport is an object; [Transport] is its identity. *)
Definition Transport : Type := nat.

(** The fields of a [Logger] object. *)
Record Logger := mkLogger {
  id : option string;
  options : Options;
  transports : list Transport;
  level : option Z
}.

(** [new Logger(level, id, transports, options)]. *)
Definition constructor (level : string) (id : option string)
    (transports : option (list Transport)) (options : option Options) : Logger :=
  {| id := id;
     options := match options with Some o => o | None => mkOptions None end;
     transports := match transports with Some l => l | None => [] end;
     level := lookup levels level |}.

(** [logger.setLevel(level)]. *)
Definition setLevel (logger : Logger) (level : string) : Logger :=
  mkLogger (id logger) (options logger) (transports logger) (lookup levels level).

(** A call of a transport's method, as [__log] makes it. *)
Record Call := mkCall {
  call_transport : Transport;
  call_level : string;
  call_args : list JsValue
}.

(** The static fields of the class, the number of times the clock has
    been read, the state of the transports and the calls made to
    them. *)
Record State (T : Type) := mkState {
  _globalTransports : list Transport;
  _globalOptions : Options;
  clock : nat;
  transportState : T;
  calls : list Call
}.
Arguments mkState {T} _ _ _ _ _.
Arguments _globalTransports {T} _.
Arguments _globalOptions {T} _.
Arguments clock {T} _.
Arguments transportState {T} _.
Arguments calls {T} _.

(** [array.indexOf(x)], [None] standing for [-1]. *)
Fixpoint indexOf (l : list Transport) (x : Transport) : option nat :=
  match l with
  | [] => None
  | y :: rest =>
      if Nat.eqb y x then Some O
      else match indexOf rest x with
           | Some i => Some (Datatypes.S i)
           | None => None
           end
  end.

(** [array.splice(idx, 1)]. *)
Fixpoint splice1 (l : list Transport) (idx : nat) : list Transport :=
  match l, idx with
  | [], _ => []
  | _ :: rest, O => rest
  | y :: rest, Datatypes.S i => y :: splice1 rest i
  end.

Section Statics.
Context {T : Type}.

Definition addGlobalTransport (transport : Transport) (st : State T) : State T :=
  match indexOf (_globalTransports st) transport with
  | None =>
      mkState (_globalTransports st ++ [transport]) (_globalOptions st) (clock st)
        (transportState st) (calls st)
  | Some _ => st
  end.

Definition removeGlobalTransport (transport : Transport) (st : State T) : State T :=
  match indexOf (_globalTransports st) transport with
  | Some transportIdx =>
      mkState (splice1 (_globalTransports st) transportIdx) (_globalOptions st)
        (clock st) (transportState st) (calls st)
  | None => st
  end.

(** [setGlobalOptions(options)]: [options || {}]. *)
Definition setGlobalOptions (options : option Options) (st : State T) : State T :=
  mkState (_globalTransports st)
    (match options with Some o => o | None => mkOptions None end)
    (clock st) (transportState st) (calls st).

End Statics.

Section Log.
Context {T : Type}.

(** [new Date().toISOString()] at the [n]-th reading of the clock. *)
Variable toISOString : nat -> string.

(** [t[level]] when it is a function: what calling it does to the
    transports. *)
Variable method : Transport -> string -> option (list JsValue -> T -> Outcome unit * T).

(** The prefixes [__log] puts in front of the arguments. [callerInfo] is
    what [getCallerInfo()] found as the caller's name, [None] when the
    caller info is disabled. *)
Definition logPrefixes (now : string) (logger : Logger) (callerInfo : option string)
    : list JsValue :=
  [JsString now]
  ++ (match id logger with
      | Some i => if truthy (JsString i) then [JsString ("[" ++ i ++ "]")] else []
      | None => []
      end)
  ++ (match callerInfo with
      | Some methodName =>
          if Nat.ltb 1 (String.length methodName)
          then [JsString ("<" ++ methodName ++ ">: ")] else []
      | None => []
      end).

(** The loop of [__log] over the transports. *)
Fixpoint dispatch (logger : Logger) (callerInfo : option string) (level : string)
    (args : list JsValue) (transports : list Transport) (st : State T)
    : Outcome unit * State T :=
  match transports with
  | [] => (Ret tt, st)
  | t :: rest =>
      match method t level with
      | Some l =>
          let fullLogParts :=
            logPrefixes (toISOString (clock st)) logger callerInfo ++ args in
          let (r, ts') := l fullLogParts (transportState st) in
          let st' :=
            mkState (_globalTransports st) (_globalOptions st)
              (Datatypes.S (clock st)) ts'
              (calls st ++ [mkCall t level fullLogParts]) in
          match r with
          | Ret _ => dispatch logger callerInfo level args rest st'
          | Throw e => (Throw e, st')
          end
      | None => dispatch logger callerInfo level args rest st
      end
  end.

(** [Logger.__log(logger, level, ...args)]; [caller] is the method name
    [getCallerInfo()] reads off the stack. *)
Definition __log (caller : string) (logger : Logger) (level : string)
    (args : list JsValue) (st : State T) : Outcome unit * State T :=
  if less_than (lookup levels level) (LoggerClass.level logger) then (Ret tt, st)
  else
    let callerInfo :=
      if negb (flag (disableCallerInfo (options logger))
               || flag (disableCallerInfo (_globalOptions st)))
      then Some caller else None in
    dispatch logger callerInfo level args
      (_globalTransports st ++ transports logger) st.

(** The transports [__log] calls for [level], in order. *)
Definition listeners (level : string) (l : list Transport) : list Transport :=
  filter (fun t => match method t level with Some _ => true | None => false end) l.

(** The calls [dispatch] makes when every call returns, the clock
    standing at [n]. *)
Fixpoint expected_calls (logger : Logger) (callerInfo : option string)
    (level : string) (args : list JsValue) (l : list Transport) (n : nat)
    : list Call :=
  match l with
  | [] => []
  | t :: rest =>
      mkCall t level (logPrefixes (toISOString n) logger callerInfo ++ args)
      :: expected_calls logger callerInfo level args rest (Datatypes.S n)
  end.

End Log.

End LoggerClass.

(** ** [_log] over the object's [formatLogMessage]

    [_log] formats by [this.formatLogMessage.apply(this, arguments)]:
    a protected method, which a subclass may replace and which raises
    when the conversion of an argument to text raises (on a Symbol, on
    an object without [toString]). Below, the method is a parameter
    that returns a text, returns [null] or raises. [JsCollector._log]
    and [TsCollector._log] are these definitions with the class's own
    formatter, on arguments whose conversion to text returns. *)

(** A call whose outcome is [r] and which leaves the state alone. *)
Definition lift {S A} (r : Outcome A) : M S A := fun w => (r, w).

Module JsWithFormatter.
Section Methods.
Context {S : Type}.
Variable logStorage : LogStorage S.
Variable formatLogMessage : Collector -> list JsValue -> Outcome (option string).

#[local] Open Scope js_scope.

Definition _log (args : list JsValue) : M S unit :=
  c <- get_this ;;
  msg <- lift (formatLogMessage c args) ;;
  update_this (fun c => aggregate c msg (nth 1 args JsUndefined)) ;;
  c <- get_this ;;
  if maxEntryLength c <=? totalLen c
  then JsCollector._flush logStorage true true
  else ret tt.

Definition call_level (methodName : string) (args : list JsValue) : M S unit :=
  c <- get_this ;;
  match Logger.get (levelMethods c) methodName with
  | Some logLevel => _log (JsString logLevel :: args)
  | None => throw (TypeError (methodName ++ " is not a function"))
  end.

End Methods.
End JsWithFormatter.

Module TsWithFormatter.
Section Methods.
Context {S : Type}.
Variable logStorage : LogStorage S.
Variable formatLogMessage : Collector -> list JsValue -> Outcome (option string).

#[local] Open Scope js_scope.

Definition _log (args : list JsValue) : M S unit :=
  c <- get_this ;;
  msg <- lift (formatLogMessage c args) ;;
  update_this (fun c => aggregate c msg (nth 1 args JsUndefined)) ;;
  c <- get_this ;;
  if maxEntryLength c <=? totalLen c
  then TsCollector._flush logStorage true true
  else ret tt.

Definition call_level (methodName : string) (args : list JsValue) : M S unit :=
  c <- get_this ;;
  match Logger.get (levelMethods c) methodName with
  | Some logLevel => _log (JsString logLevel :: args)
  | None => throw (TypeError (methodName ++ " is not a function"))
  end.

End Methods.
End TsWithFormatter.

(** The class's own formatters, which return on the values of this
    model. *)
Definition js_formatter (c : Collector) (arguments : list JsValue)
    : Outcome (option string) :=
  Ret (JsCollector.formatLogMessage c arguments).

Definition ts_formatter (c : Collector) (arguments : list JsValue)
    : Outcome (option string) :=
  Ret (TsCollector.formatLogMessage c arguments).

(** A formatter that meets an argument it cannot convert to text. *)
Definition symbol_formatter (c : Collector) (arguments : list JsValue)
    : Outcome (option string) :=
  Throw (TypeError "Cannot convert a Symbol value to a string").

(** ** A guarded collector as a transport of the logger

    The transport's state is the collector's [World]. For the name of a
    level, [t[level]] is the per-level method the constructor installs
    (the same six names whatever the options, and an own property hides
    an inherited one). [other] is whatever else the object answers to
    with a function: [start], [flush], [_flush] and the rest of its
    prototype, and what it inherits from [Object.prototype]. *)
Definition js_transport {S} (ls : LogStorage S)
    (formatLogMessage : Collector -> list JsValue -> Outcome (option string))
    (other : string -> option (list JsValue -> World S -> Outcome unit * World S))
    (t : LoggerClass.Transport) (level : string)
    : option (list JsValue -> World S -> Outcome unit * World S) :=
  match Logger.get (levelMethods (JsCollector.constructor None)) level with
  | Some _ => Some (JsWithFormatter.call_level ls formatLogMessage level)
  | None => other level
  end.

(** What [Object.prototype.__defineGetter__] does when the logger calls
    it with a timestamp and a message: it raises. No other name is
    given a function here. *)
Definition inherited_only {S} (name : string)
    : option (list JsValue -> World S -> Outcome unit * World S) :=
  if String.eqb name "__defineGetter__"
  then Some (fun _ w =>
               (Throw (TypeError "Object.prototype.__defineGetter__: Expecting function"),
                w))
  else None.

(** The logger lets a call of [called] through: its rank is not below
    the logger's, or one of the two is not in the table. *)
Definition passes (logger : LoggerClass.Logger) (called : string) : Prop :=
  LoggerClass.level logger = None
  \/ LoggerClass.lookup LoggerClass.levels called = None
  \/ exists n m : Z,
       LoggerClass.level logger = Some n
       /\ LoggerClass.lookup LoggerClass.levels called = Some m
       /\ n <= m.

(** What [__log] takes as caller info. *)
Definition callerInfo_of {T} (caller : string) (logger : LoggerClass.Logger)
    (st : LoggerClass.State T) : option string :=
  if negb (LoggerClass.flag (LoggerClass.disableCallerInfo (LoggerClass.options logger))
           || LoggerClass.flag
                (LoggerClass.disableCallerInfo (LoggerClass._globalOptions st)))
  then Some caller else None.

(** ** Transports for the examples *)

(** Transport 0 has every method and returns, as [console] does; no
    other transport has a method. *)
Definition console_transport (t : LoggerClass.Transport) (level : string)
    : option (list JsValue -> unit -> Outcome unit * unit) :=
  if Nat.eqb t 0 then Some (fun _ s => (Ret tt, s)) else None.

(** Transport 1 raises on every call, transport 0 is the console. *)
Definition broken_transport (t : LoggerClass.Transport) (level : string)
    : option (list JsValue -> unit -> Outcome unit * unit) :=
  if Nat.eqb t 1 then Some (fun _ s => (Throw boom, s))
  else console_transport t level.

Definition clock1 (n : nat) : string :=
  if Nat.eqb n 0 then "2024-01-01T00:00:00.000Z" else "2024-01-01T00:00:00.001Z".

(** The class as loaded, with [console] as the only global transport,
    and with one more transport added. *)
Definition fresh_state : LoggerClass.State unit :=
  LoggerClass.mkState [0%nat] (LoggerClass.mkOptions None) 0%nat tt [].

(* ================================================================== *)
(** * The earlier JavaScript [LogCollector], which stores text batches

    This collector has neither a readiness gate nor a cache. Its queue
    holds a plain string for a message seen once and an object
    [{ text, count }] for a message repeated in a row, and a flush hands
    the storage one text built from the queue. *)

Module OldCollector.

Inductive QueueItem :=
| Plain (s : string)
| Counted (text : string) (count : nat).

(** The fields of the object; an option that the [options] object lacks
    is [undefined], here [None]: there is no default behind it. *)
Record Fields := mkFields {
  stringifyObjects : option bool;
  storeInterval : option Z;
  maxEntryLength : option Z;
  storeLogsIntervalID : option nat;
  queue : list QueueItem;
  totalLen : Z;
  counter : Z
}.

(** [LogCollector(logStorage, options)]: [options ? options.field :
    default] for each of the three options. *)
Definition constructor (options : option Options) : Fields :=
  {| stringifyObjects :=
       match options with Some o => opt_stringifyObjects o | None => Some false end;
     storeInterval :=
       match options with Some o => opt_storeInterval o | None => Some 30000 end;
     maxEntryLength :=
       match options with Some o => opt_maxEntryLength o | None => Some 10000 end;
     storeLogsIntervalID := None;
     queue := [];
     totalLen := 0;
     counter := 1 |}.

Definition with_queue (c : Fields) (q : list QueueItem) (len : Z) : Fields :=
  mkFields (stringifyObjects c) (storeInterval c) (maxEntryLength c)
    (storeLogsIntervalID c) q len (counter c).

(** The block [if (msg.length) { ... }] of [_log]. *)
Definition aggregate (c : Fields) (msg : string) : Fields :=
  if Nat.eqb (String.length msg) 0 then c
  else
    let push := with_queue c (queue c ++ [Plain msg]) (totalLen c + length_of msg) in
    match unsnoc (queue c) with
    | Some (before, prevMessage) =>
        let prevMessageText :=
          match prevMessage with Counted t _ => t | Plain s => s end in
        if String.eqb prevMessageText msg then
          match prevMessage with
          | Counted t n => with_queue c (before ++ [Counted t (n + 1)%nat]) (totalLen c)
          | Plain _ => with_queue c (before ++ [Counted msg 2%nat]) (totalLen c)
          end
        else push
    | None => push
    end.

Definition newline : string := String (ascii_of_nat 10) "".
Definition dquote : string := String quote_char "".

(** One line of the batch: [(count) text] for a repeated message. *)
Definition line (logEntry : QueueItem) : string :=
  match logEntry with
  | Counted t n => ("(" ++ decimal (Z.of_nat n) ++ ") " ++ t ++ newline)%string
  | Plain s => (s ++ newline)%string
  end.

Fixpoint lines (q : list QueueItem) : string :=
  match q with
  | [] => ""
  | logEntry :: rest => (line logEntry ++ lines rest)%string
  end.

(** The text [toSend] that [_flush] builds. *)
Definition toSend (c : Fields) : string :=
  ("{" ++ dquote ++ "log" ++ decimal (counter c) ++ dquote ++ ":" ++ dquote ++ newline
   ++ lines (queue c)
   ++ dquote ++ "}")%string.

(** The collector, its storage, the timeouts of [window] (identifier
    and delay, which is [undefined] when [storeInterval] is) and the
    texts handed to [storeLogs] with what came of each call. *)
Record World (S : Type) := mkWorld {
  this : Fields;
  storage : S;
  timeouts : list (nat * option Z);
  nextTimeoutID : nat;
  stored : list (string * Outcome unit)
}.
Arguments mkWorld {S} _ _ _ _ _.
Arguments this {S} _.
Arguments storage {S} _.
Arguments timeouts {S} _.
Arguments nextTimeoutID {S} _.
Arguments stored {S} _.

Section Methods.
Context {S : Type}.

(** [logStorage.storeLogs(text)]. *)
Variable storeLogs : string -> S -> Outcome unit * S.

(** The module's [stringify]: [JSON.stringify] with a replacer that
    leaves out what it has seen before. *)
Variable stringify : JsValue -> JsValue.

(** What one turn of the loop of [_log] appends for [arg]. *)
Definition append_arg (c : Fields) (logLevel arg : JsValue) : string :=
  ToString
    (if (LoggerClass.flag (stringifyObjects c)
         || strict_eq_string logLevel Logger.levels_ERROR)
        && typeof_object arg
     then stringify arg
     else arg).

Fixpoint format_loop (c : Fields) (logLevel : JsValue) (msg : string)
    (args : list JsValue) : string :=
  match args with
  | [] => msg
  | arg :: rest =>
      let msg := (msg ++ append_arg c logLevel arg)%string in
      let msg := match rest with [] => msg | _ :: _ => (msg ++ " ")%string end in
      format_loop c logLevel msg rest
  end.

(** The message [_log] builds from its arguments. *)
Definition message (c : Fields) (arguments : list JsValue) : string :=
  format_loop c (nth 0 arguments JsUndefined) "" (skipn 1 arguments).

Definition _reschedulePublishInterval (w : World S) : World S :=
  let cleared :=
    match storeLogsIntervalID (this w) with
    | Some i =>
        if negb (Nat.eqb i 0)
        then filter (fun t => negb (Nat.eqb (fst t) i)) (timeouts w)
        else timeouts w
    | None => timeouts w
    end in
  mkWorld
    (mkFields (stringifyObjects (this w)) (storeInterval (this w))
       (maxEntryLength (this w)) (Some (nextTimeoutID w)) (queue (this w))
       (totalLen (this w)) (counter (this w)))
    (storage w)
    (cleared ++ [(nextTimeoutID w, storeInterval (this w))])
    (Datatypes.S (nextTimeoutID w)) (stored w).

Definition _flush (reschedule : bool) (w : World S) : Outcome unit * World S :=
  let finish := fun w' =>
    (Ret tt, if reschedule then _reschedulePublishInterval w' else w') in
  if 0 <? totalLen (this w) then
    let (r, s') := storeLogs (toSend (this w)) (storage w) in
    let w1 := mkWorld (this w) s' (timeouts w) (nextTimeoutID w)
                (stored w ++ [(toSend (this w), r)]) in
    match r with
    | Ret _ =>
        finish
          (mkWorld
             (mkFields (stringifyObjects (this w)) (storeInterval (this w))
                (maxEntryLength (this w)) (storeLogsIntervalID (this w)) [] 0
                (counter (this w) + 1))
             s' (timeouts w) (nextTimeoutID w) (stored w1))
    | Throw e => (Throw e, w1)
    end
  else finish w.

(** [this.totalLen >= this.maxEntryLength]: false against [undefined]. *)
Definition size_reached (c : Fields) : bool :=
  match maxEntryLength c with
  | Some m => m <=? totalLen c
  | None => false
  end.

Definition _log (arguments : list JsValue) (w : World S) : Outcome unit * World S :=
  let c1 := aggregate (this w) (message (this w) arguments) in
  let w1 := mkWorld c1 (storage w) (timeouts w) (nextTimeoutID w) (stored w) in
  if size_reached c1 then _flush true w1 else (Ret tt, w1).

Definition flush (w : World S) : Outcome unit * World S := _flush true w.

(** [stop()]: a last flush, then the batch counter goes back to 1. *)
Definition stop (w : World S) : Outcome unit * World S :=
  match _flush false w with
  | (Ret _, w') =>
      (Ret tt,
       mkWorld
         (mkFields (stringifyObjects (this w')) (storeInterval (this w'))
            (maxEntryLength (this w')) (storeLogsIntervalID (this w'))
            (queue (this w')) (totalLen (this w')) 1)
         (storage w') (timeouts w') (nextTimeoutID w') (stored w'))
  | (Throw e, w') => (Throw e, w')
  end.

End Methods.

(** A queue item as text and count. *)
Definition item_pair (i : QueueItem) : string * nat :=
  match i with
  | Plain s => (s, 1%nat)
  | Counted t n => (t, n)
  end.

Fixpoint sum_lengths (q : list QueueItem) : Z :=
  match q with
  | [] => 0
  | i :: rest => length_of (fst (item_pair i)) + sum_lengths rest
  end.

(** An object in the queue stands for at least two messages. *)
Definition well_counted (i : QueueItem) : Prop :=
  match i with
  | Plain s => s <> ""
  | Counted t n => t <> "" /\ (2 <= n)%nat
  end.

End OldCollector.

(** The errors the storage raised, in the order of the calls. *)
Fixpoint raised (evs : list Event) : list JsValue :=
  match evs with
  | [] => []
  | CallIsReady (Throw e) :: rest => e :: raised rest
  | CallStoreLogs _ (Throw e) :: rest => e :: raised rest
  | _ :: rest => raised rest
  end.

(** The method [m] only adds to the trace, and what it adds has on the
    console the errors the storage raised meanwhile, one for one. *)
Definition accounted {S A} (m : M S A) : Prop :=
  forall w : World S,
    exists evs : list Event,
      events (snd (m w)) = events w ++ evs
      /\ console_errors evs = raised evs.

(* ================================================================== *)
(** * Lemmas on the shared code *)

Section SharedFacts.
Context {S : Type}.
Variable ls : LogStorage S.

Lemma reschedule_returns (w : World S) :
  _reschedulePublishInterval w =
  (Ret tt,
   mkWorld (set_storeLogsIntervalID (this w) (Some (nextTimeoutID w)))
     (storage w)
     (match storeLogsIntervalID (this w) with
      | Some id =>
          if negb (Nat.eqb id 0)
          then filter (fun t => negb (Nat.eqb (fst t) id)) (timeouts w)
          else timeouts w
      | None => timeouts w
      end ++ [(nextTimeoutID w, storeInterval (this w))])
     (Datatypes.S (nextTimeoutID w)) (events w)).
Proof.
  destruct w as [c s ts n evs]; destruct c as [so si me lm [id|] q tl oc];
    unfold _reschedulePublishInterval, bind, get_this; simpl;
    [destruct (Nat.eqb id 0)|]; reflexivity.
Qed.

(** The reschedule step returns and touches neither the queue, its
    length, the cache, the storage nor the calls made. *)
Lemma finish_kept (reschedule : bool) (w : World S) :
  fst (finish reschedule w) = Ret tt
  /\ queue (this (snd (finish reschedule w))) = queue (this w)
  /\ totalLen (this (snd (finish reschedule w))) = totalLen (this w)
  /\ outputCache (this (snd (finish reschedule w))) = outputCache (this w)
  /\ events (snd (finish reschedule w)) = events w
  /\ storage (snd (finish reschedule w)) = storage w.
Proof.
  unfold finish. destruct reschedule.
  - rewrite reschedule_returns. simpl. tauto.
  - simpl. tauto.
Qed.

Lemma forEach_stores_return (l : list (list LogEntry)) :
  forall w : World S,
    stores_return ls l (storage w) ->
    forEach l (fun cachedQueue => call_storeLogs ls cachedQueue) w =
    (Ret tt,
     mkWorld (this w) (after_stores ls l (storage w)) (timeouts w)
       (nextTimeoutID w)
       (events w ++ map (fun logs => CallStoreLogs logs (Ret tt)) l)).
Proof.
  induction l as [|logs rest IH]; intros w H; simpl.
  - unfold ret. rewrite app_nil_r. destruct w; reflexivity.
  - destruct H as [H1 H2]. unfold bind, call_storeLogs.
    destruct (storeLogs ls logs (storage w)) as [r s'] eqn:E.
    simpl in H1, H2. subst r. rewrite IH by exact H2. simpl.
    rewrite <- app_assoc. reflexivity.
Qed.

Lemma stores_return_app (l1 l2 : list (list LogEntry)) :
  forall s : S,
    stores_return ls (l1 ++ l2) s ->
    stores_return ls l1 s /\ stores_return ls l2 (after_stores ls l1 s).
Proof.
  induction l1 as [|logs rest IH]; intros s H; simpl in *.
  - split; [exact I | exact H].
  - destruct H as [H1 H2]. apply IH in H2. tauto.
Qed.

Lemma after_stores_app (l1 l2 : list (list LogEntry)) :
  forall s : S,
    after_stores ls (l1 ++ l2) s = after_stores ls l2 (after_stores ls l1 s).
Proof.
  induction l1 as [|logs rest IH]; intros s; simpl; [reflexivity | apply IH].
Qed.

End SharedFacts.

(* ================================================================== *)
(** * The four ways through [_flush] of [lib/LogCollector.ts] *)

Section TsFlushFacts.
Context {S : Type}.
Variable ls : LogStorage S.

(** Nothing queued: only the reschedule step runs. *)
Lemma ts_flush_idle (force reschedule : bool) (w : World S) :
  totalLen (this w) <= 0 ->
  TsCollector._flush ls force reschedule w = finish reschedule w.
Proof.
  intros H. unfold TsCollector._flush, bind, get_this, finish.
  destruct (0 <? totalLen (this w)) eqn:E.
  - apply Z.ltb_lt in E. lia.
  - unfold ret. simpl. reflexivity.
Qed.

(** Not ready and not forced: one readiness query, nothing else. *)
Lemma ts_flush_skipped (reschedule : bool) (w : World S) :
  0 < totalLen (this w) ->
  reports ls false 1 (storage w) ->
  TsCollector._flush ls false reschedule w =
  finish reschedule
    (mkWorld (this w) (after_queries ls 1 (storage w)) (timeouts w)
       (nextTimeoutID w) (events w ++ [CallIsReady (Ret false)])).
Proof.
  intros Hlen [Hr _]. unfold TsCollector._flush, bind, get_this, finish.
  apply Z.ltb_lt in Hlen. rewrite Hlen. unfold call_isReady. simpl.
  destruct (isReady ls (storage w)) as [r s1]. simpl in *. subst r.
  reflexivity.
Qed.

(** Forced and not ready: the queue goes to the cache. *)
Lemma ts_flush_cached (reschedule : bool) (w : World S) :
  0 < totalLen (this w) ->
  reports ls false 2 (storage w) ->
  TsCollector._flush ls true reschedule w =
  finish reschedule
    (mkWorld
       (set_totalLen
          (set_queue
             (set_outputCache (this w) (outputCache (this w) ++ [queue (this w)]))
             [])
          0)
       (after_queries ls 2 (storage w)) (timeouts w) (nextTimeoutID w)
       (events w ++ [CallIsReady (Ret false); CallIsReady (Ret false)])).
Proof.
  intros Hlen (Hr1 & Hr2 & _).
  unfold TsCollector._flush, bind, get_this, finish.
  apply Z.ltb_lt in Hlen. rewrite Hlen. unfold call_isReady. simpl.
  destruct (isReady ls (storage w)) as [r s1]. simpl in *. subst r. simpl.
  destruct (isReady ls s1) as [r s2]. simpl in *. subst r. simpl.
  rewrite <- app_assoc. reflexivity.
Qed.

(** Ready, and every store call returns: the cached batches are
    stored in order, then the queue. *)
Lemma ts_flush_sent (force reschedule : bool) (w : World S) :
  0 < totalLen (this w) ->
  reports ls true 2 (storage w) ->
  stores_return ls (outputCache (this w) ++ [queue (this w)])
    (after_queries ls 2 (storage w)) ->
  TsCollector._flush ls force reschedule w =
  finish reschedule
    (mkWorld
       (set_totalLen (set_queue (set_outputCache (this w) []) []) 0)
       (after_stores ls (outputCache (this w) ++ [queue (this w)])
          (after_queries ls 2 (storage w)))
       (timeouts w) (nextTimeoutID w)
       (events w
        ++ [CallIsReady (Ret true); CallIsReady (Ret true)]
        ++ map (fun logs => CallStoreLogs logs (Ret tt))
             (outputCache (this w) ++ [queue (this w)]))).
Proof.
  intros Hlen (Hr1 & Hr2 & _) Hst.
  cbn [after_queries] in *.
  apply stores_return_app in Hst. destruct Hst as [Hcache [Hq _]].
  rewrite after_stores_app, map_app. cbn [after_stores map].
  unfold TsCollector._flush, bind, get_this, finish.
  apply Z.ltb_lt in Hlen. rewrite Hlen. unfold call_isReady. simpl.
  destruct (isReady ls (storage w)) as [r s1]. simpl in *. subst r. simpl.
  destruct (isReady ls s1) as [r s2]. simpl in *. subst r. simpl.
  pose proof (forEach_stores_return ls (outputCache (this w))
                (mkWorld (this w) s2 (timeouts w) (nextTimeoutID w)
                   ((events w ++ [CallIsReady (Ret true)]) ++ [CallIsReady (Ret true)]))
                Hcache) as HF.
  destruct (outputCache (this w)) as [|b cache] eqn:Ecache.
  - simpl in *. unfold call_storeLogs. simpl.
    destruct (storeLogs ls (queue (this w)) s2) as [r s3]. simpl in *.
    subst r. simpl.
    replace (set_outputCache (this w) []) with (this w)
      by (destruct (this w); simpl in Ecache; subst; reflexivity).
    rewrite <- !app_assoc. reflexivity.
  - cbn [List.length Nat.eqb negb]. rewrite HF. cbn [this storage timeouts nextTimeoutID events].
    unfold update_this, call_storeLogs. cbn [this storage timeouts nextTimeoutID events].
    cbn [set_outputCache queue].
    destruct (storeLogs ls (queue (this w)) _) as [r s3]. simpl in Hq.
    subst r. cbn [fst snd].
    rewrite <- !app_assoc. reflexivity.
Qed.

End TsFlushFacts.

(* ================================================================== *)
(** * The bookkeeping invariant *)

Lemma unsnoc_nil {A} (l : list A) : unsnoc l = None -> l = [].
Proof.
  unfold unsnoc. destruct (rev l) eqn:E; [|discriminate].
  intros _. apply (f_equal (@rev A)) in E. rewrite rev_involutive in E. exact E.
Qed.

Lemma unsnoc_snoc {A} (l before : list A) (x : A) :
  unsnoc l = Some (before, x) -> l = (before ++ [x])%list.
Proof.
  unfold unsnoc. destruct (rev l) as [|y rest] eqn:E; [discriminate|].
  intros H. inversion H; subst. apply (f_equal (@rev A)) in E.
  rewrite rev_involutive in E. simpl in E. exact E.
Qed.

Lemma unsnoc_app {A} (before : list A) (x : A) :
  unsnoc (before ++ [x])%list = Some (before, x).
Proof.
  unfold unsnoc. rewrite rev_unit, rev_involutive. reflexivity.
Qed.

Lemma sum_lengths_app (q1 q2 : list LogEntry) :
  sum_lengths (q1 ++ q2) = sum_lengths q1 + sum_lengths q2.
Proof.
  induction q1 as [|e rest IH]; simpl; [reflexivity | rewrite IH; lia].
Qed.

Lemma truthy_string (s : string) : truthy (JsString s) = true <-> s <> "".
Proof.
  simpl. destruct (String.eqb_spec s ""); simpl; split; congruence.
Qed.

Lemma length_of_pos (s : string) : s <> "" -> 0 < length_of s.
Proof.
  destruct s; [congruence|]. intros _. unfold length_of. simpl String.length. lia.
Qed.

Lemma sum_lengths_nonneg (q : list LogEntry) : 0 <= sum_lengths q.
Proof.
  induction q as [|e rest IH]; simpl; unfold length_of; lia.
Qed.

(** Under sound bookkeeping [totalLen] is zero exactly when the queue
    is empty. *)
Lemma collector_ok_zero (c : Collector) :
  collector_ok c -> (totalLen c = 0 <-> queue c = []).
Proof.
  intros [Hsum Hne]. rewrite Hsum. destruct (queue c) as [|e rest]; simpl.
  - tauto.
  - split; [|discriminate]. inversion Hne as [|? ? He _]; subst.
    pose proof (length_of_pos _ He). pose proof (sum_lengths_nonneg rest). lia.
Qed.

Lemma collector_ok_positive (c : Collector) :
  collector_ok c -> queue c <> [] -> 0 < totalLen c.
Proof.
  intros Hok Hq. pose proof (proj1 (collector_ok_zero c Hok)) as Hz.
  destruct Hok as [Hsum _]. pose proof (sum_lengths_nonneg (queue c)).
  destruct (Z.eq_dec (totalLen c) 0) as [E|E]; [tauto | lia].
Qed.

Lemma aggregate_ok (c : Collector) (msg : option string) (stamp : JsValue) :
  collector_ok c -> collector_ok (aggregate c msg stamp).
Proof.
  intros [Hsum Hne]. unfold aggregate.
  destruct msg as [msg|]; [|split; assumption].
  destruct (truthy (JsString msg)) eqn:Et; [|split; assumption].
  apply truthy_string in Et.
  assert (Hpush : collector_ok
            (set_totalLen (set_queue c (queue c ++ [mkEntry msg stamp 1%nat]))
               (totalLen c + length_of msg))).
  { split; simpl.
    - rewrite sum_lengths_app. simpl. lia.
    - apply Forall_app. split; [assumption|]. constructor; [exact Et | constructor]. }
  destruct (unsnoc (queue c)) as [[before prev]|] eqn:Eu; [|exact Hpush].
  destruct (String.eqb_spec (text prev) msg) as [Heq|Hneq]; [|exact Hpush].
  apply unsnoc_snoc in Eu. split; simpl.
  - rewrite Hsum, Eu, !sum_lengths_app. reflexivity.
  - rewrite Eu in Hne. apply Forall_app in Hne. destruct Hne as [Hb Hp].
    apply Forall_app. split; [assumption|].
    inversion Hp; subst. constructor; [assumption | constructor].
Qed.

Lemma reset_ok (c : Collector) : collector_ok (set_totalLen (set_queue c []) 0).
Proof. split; simpl; [reflexivity | constructor]. Qed.

(** ** Properties of the collector object that every method keeps *)

Section Keeps.
Context {S : Type}.
Variable ls : LogStorage S.

(** [P] is a property of the collector object that depends on the
    queue and its length only and holds of an emptied queue. *)
Variable P : Collector -> Prop.
Hypothesis P_cache : forall c v, P c -> P (set_outputCache c v).
Hypothesis P_timeout : forall c v, P c -> P (set_storeLogsIntervalID c v).
Hypothesis P_reset : forall c, P (set_totalLen (set_queue c []) 0).
Hypothesis P_aggregate : forall c msg stamp, P c -> P (aggregate c msg stamp).

Lemma keeps_ret {A} (a : A) : keeps P (ret (S := S) a).
Proof. intros w H. exact H. Qed.

Lemma keeps_throw {A} (e : JsValue) : keeps P (@throw S A e).
Proof. intros w H. exact H. Qed.

Lemma keeps_bind {A B} (m : M S A) (k : A -> M S B) :
  keeps P m -> (forall a, keeps P (k a)) -> keeps P (bind m k).
Proof.
  intros Hm Hk w H. unfold bind. specialize (Hm w H).
  destruct (m w) as [[a|e] w']; simpl in *; [apply Hk; exact Hm | exact Hm].
Qed.

Lemma keeps_try_catch {A} (body : M S A) (handler : JsValue -> M S A) :
  keeps P body -> (forall e, keeps P (handler e)) -> keeps P (try_catch body handler).
Proof.
  intros Hm Hk w H. unfold try_catch. specialize (Hm w H).
  destruct (body w) as [[a|e] w']; simpl in *; [exact Hm | apply Hk; exact Hm].
Qed.

Lemma keeps_get_this : keeps P (get_this (S := S)).
Proof. intros w H. exact H. Qed.

Lemma keeps_update (f : Collector -> Collector) :
  (forall c, P c -> P (f c)) -> keeps P (update_this (S := S) f).
Proof. intros Hf w H. simpl. apply Hf. exact H. Qed.

Lemma keeps_emit (e : Event) : keeps P (emit (S := S) e).
Proof. intros w H. exact H. Qed.

Lemma keeps_isReady : keeps P (call_isReady ls).
Proof.
  intros w H. unfold call_isReady. destruct (isReady ls (storage w)). exact H.
Qed.

Lemma keeps_storeLogs (logs : list LogEntry) : keeps P (call_storeLogs ls logs).
Proof.
  intros w H. unfold call_storeLogs. destruct (storeLogs ls logs (storage w)).
  exact H.
Qed.

Lemma keeps_clearTimeout (id : nat) : keeps P (clearTimeout (S := S) id).
Proof. intros w H. exact H. Qed.

Lemma keeps_setTimeout (delay : Z) : keeps P (setTimeout (S := S) delay).
Proof. intros w H. exact H. Qed.

Lemma keeps_forEach {A} (f : A -> M S unit) (l : list A) :
  (forall x, keeps P (f x)) -> keeps P (forEach l f).
Proof.
  intros Hf. induction l as [|x rest IH]; simpl.
  - apply keeps_ret.
  - apply keeps_bind; [apply Hf | intros _; exact IH].
Qed.

(** The two assignments [this.queue = []; this.totalLen = 0]. *)
Lemma keeps_reset :
  keeps P (bind (update_this (S := S) (fun c => set_queue c []))
           (fun _ => update_this (fun c => set_totalLen c 0))).
Proof. intros w _. simpl. apply P_reset. Qed.

Lemma keeps_reschedule : keeps P (_reschedulePublishInterval (S := S)).
Proof.
  intros w H. rewrite reschedule_returns. simpl. apply P_timeout. exact H.
Qed.

Lemma keeps_ts_flush (force reschedule : bool) :
  keeps P (TsCollector._flush ls force reschedule).
Proof.
  unfold TsCollector._flush.
  apply keeps_bind; [apply keeps_get_this | intros c].
  apply keeps_bind.
  { destruct (0 <? totalLen c); [|apply keeps_ret].
    apply keeps_bind; [apply keeps_isReady | intros; apply keeps_ret]. }
  intros publish. apply keeps_bind.
  2:{ intros _. destruct reschedule; [apply keeps_reschedule | apply keeps_ret]. }
  destruct publish; [|apply keeps_ret].
  apply keeps_bind; [apply keeps_isReady | intros ready].
  apply keeps_bind; [|intros _; apply keeps_reset].
  destruct ready.
  - apply keeps_bind; [apply keeps_get_this | intros c1].
    apply keeps_bind.
    + destruct (negb _); [|apply keeps_ret].
      apply keeps_bind.
      * apply keeps_forEach. intros logs. apply keeps_storeLogs.
      * intros _. apply keeps_update. intros; apply P_cache; assumption.
    + intros _. apply keeps_bind; [apply keeps_get_this | intros c2].
      apply keeps_storeLogs.
  - apply keeps_update. intros; apply P_cache; assumption.
Qed.

Lemma keeps_js_storeLogs (logs : list LogEntry) :
  keeps P (JsCollector._storeLogs ls logs).
Proof.
  apply keeps_try_catch; [apply keeps_storeLogs | intros; apply keeps_emit].
Qed.

Lemma keeps_js_flush (force reschedule : bool) :
  keeps P (JsCollector._flush ls force reschedule).
Proof.
  unfold JsCollector._flush.
  apply keeps_bind.
  { apply keeps_try_catch; [apply keeps_isReady | intros e].
    apply keeps_bind; [apply keeps_emit | intros; apply keeps_ret]. }
  intros ready.
  apply keeps_bind; [apply keeps_get_this | intros c].
  apply keeps_bind.
  2:{ intros _. destruct reschedule; [apply keeps_reschedule | apply keeps_ret]. }
  destruct (_ && _); [|apply keeps_ret].
  apply keeps_bind; [|intros _; apply keeps_reset].
  destruct ready.
  - apply keeps_bind.
    + destruct (negb _); [|apply keeps_ret].
      apply keeps_bind.
      * apply keeps_forEach. intros logs. apply keeps_js_storeLogs.
      * intros _. apply keeps_update. intros; apply P_cache; assumption.
    + intros _. apply keeps_bind; [apply keeps_get_this | intros c2].
      apply keeps_js_storeLogs.
  - apply keeps_update. intros; apply P_cache; assumption.
Qed.

Lemma keeps_ts_log (args : list JsValue) : keeps P (TsCollector._log ls args).
Proof.
  unfold TsCollector._log.
  apply keeps_bind.
  { apply keeps_update. intros; apply P_aggregate; assumption. }
  intros _. apply keeps_bind; [apply keeps_get_this | intros c].
  destruct (_ <=? _); [apply keeps_ts_flush | apply keeps_ret].
Qed.

Lemma keeps_js_log (args : list JsValue) : keeps P (JsCollector._log ls args).
Proof.
  unfold JsCollector._log.
  apply keeps_bind.
  { apply keeps_update. intros; apply P_aggregate; assumption. }
  intros _. apply keeps_bind; [apply keeps_get_this | intros c].
  destruct (_ <=? _); [apply keeps_js_flush | apply keeps_ret].
Qed.

Lemma keeps_ts_op (op : Op S) : keeps P (TsRun.run_op ls op).
Proof.
  destruct op as [m args| | | |force reschedule|id|s]; simpl.
  - unfold TsCollector.call_level.
    apply keeps_bind; [apply keeps_get_this | intros c].
    destruct (Logger.get _ _); [apply keeps_ts_log | apply keeps_throw].
  - apply keeps_reschedule.
  - apply keeps_ts_flush.
  - apply keeps_ts_flush.
  - apply keeps_ts_flush.
  - intros w H. unfold TsCollector.timeout_expires.
    destruct (pending id w); [|exact H].
    apply (keeps_ts_flush false true (expire id w)). exact H.
  - intros w H. exact H.
Qed.

Lemma keeps_ts_run (ops : list (Op S)) :
  forall w, P (this w) -> P (this (TsRun.run ls ops w)).
Proof.
  induction ops as [|op rest IH]; intros w H; simpl; [exact H|].
  apply IH. apply keeps_ts_op. exact H.
Qed.

End Keeps.

(* ================================================================== *)
(** * The queue and its length *)

Lemma constructor_ok (options : option Options) :
  collector_ok (TsCollector.constructor options).
Proof. split; simpl; [reflexivity | constructor]. Qed.

(** C9: in every state a [LogCollector] can reach from its construction
    (by per-level submissions, [start], [flush], [stop], [_flush] with
    any flags, expiring timeouts, against a storage that answers, raises
    and changes as it likes) [totalLen] is zero if and only if the queue
    is empty. The state after no operation is the constructor's. *)
Theorem totalLen_zero_iff_queue_empty :
  forall (S : Type) (ls : LogStorage S) (options : option Options) (s : S)
         (ops : list (Op S)),
    let w := TsRun.run ls ops (new_world (TsCollector.constructor options) s) in
    totalLen (this w) = 0 <-> queue (this w) = [].
Proof.
  intros S ls options s ops w. apply collector_ok_zero. subst w.
  apply (keeps_ts_run ls collector_ok).
  - intros c v [H1 H2]. split; assumption.
  - intros c v [H1 H2]. split; assumption.
  - apply reset_ok.
  - apply aggregate_ok.
  - apply constructor_ok.
Qed.

(* ================================================================== *)
(** * The constructor's options *)

Lemma truthy_number_zero (z : Z) : truthy_number z = false <-> z = 0.
Proof.
  unfold truthy_number. simpl. destruct (Z.eqb_spec z 0); simpl; split; congruence.
Qed.

Lemma option_or_number_nonzero (options : option Options)
    (field : Options -> option Z) (default : Z) :
  default <> 0 -> option_or truthy_number options field default <> 0.
Proof.
  intros Hd. unfold option_or. destruct options as [o|]; [|exact Hd].
  destruct (field o) as [v|]; [|exact Hd].
  destruct (truthy_number v) eqn:E; [|exact Hd].
  intros Hv. apply truthy_number_zero in Hv. congruence.
Qed.

(** C10: an option that is present but falsy configures what its
    absence configures, in both files: 10000 for [maxEntryLength], 30000
    for [storeInterval], [false] for [stringifyObjects]; no options
    object gives a zero threshold or a zero interval. *)
Theorem falsy_option_is_default :
  forall (z : Z) (b : bool) (me si : option Z) (so : option bool),
    truthy_number z = false ->
    truthy_boolean b = false ->
    (TsCollector.constructor (Some (mkOptions (Some z) si so))
     = TsCollector.constructor (Some (mkOptions None si so))
     /\ maxEntryLength (TsCollector.constructor (Some (mkOptions (Some z) si so)))
        = 10000)
    /\ (TsCollector.constructor (Some (mkOptions me (Some z) so))
        = TsCollector.constructor (Some (mkOptions me None so))
        /\ storeInterval (TsCollector.constructor (Some (mkOptions me (Some z) so)))
           = 30000)
    /\ (TsCollector.constructor (Some (mkOptions me si (Some b)))
        = TsCollector.constructor (Some (mkOptions me si None))
        /\ stringifyObjects (TsCollector.constructor (Some (mkOptions me si (Some b))))
           = false)
    /\ (JsCollector.constructor (Some (mkOptions (Some z) si so))
        = JsCollector.constructor (Some (mkOptions None si so))
        /\ maxEntryLength (JsCollector.constructor (Some (mkOptions (Some z) si so)))
           = 10000)
    /\ (JsCollector.constructor (Some (mkOptions me (Some z) so))
        = JsCollector.constructor (Some (mkOptions me None so))
        /\ storeInterval (JsCollector.constructor (Some (mkOptions me (Some z) so)))
           = 30000)
    /\ (JsCollector.constructor (Some (mkOptions me si (Some b)))
        = JsCollector.constructor (Some (mkOptions me si None))
        /\ stringifyObjects (JsCollector.constructor (Some (mkOptions me si (Some b))))
           = false)
    /\ (forall options,
          maxEntryLength (TsCollector.constructor options) <> 0
          /\ storeInterval (TsCollector.constructor options) <> 0
          /\ maxEntryLength (JsCollector.constructor options) <> 0
          /\ storeInterval (JsCollector.constructor options) <> 0).
Proof.
  intros z b me si so Hz Hb.
  unfold TsCollector.constructor, JsCollector.constructor, option_or; simpl.
  rewrite Hz, Hb.
  repeat split; try reflexivity;
    apply option_or_number_nonzero; discriminate.
Qed.

Lemma falsy_option_is_default_witness :
  TsCollector.constructor (Some (mkOptions (Some 0) (Some 500) (Some true)))
  = TsCollector.constructor (Some (mkOptions None (Some 500) (Some true)))
  /\ maxEntryLength
       (TsCollector.constructor (Some (mkOptions (Some 0) (Some 500) (Some true))))
     = 10000.
Proof.
  exact (proj1 (falsy_option_is_default 0 false (Some 7) (Some 500) (Some true)
                  eq_refl eq_refl)).
Defined.

(* ================================================================== *)
(** * The ways through [_flush] of the guarded JavaScript collector *)

Section JsFlushFacts.
Context {S : Type}.
Variable ls : LogStorage S.

(** A storage that answers "not ready": a forced flush of a non-empty
    queue caches it, any other flush leaves the collector as it is. *)
Lemma js_flush_not_ready (force reschedule : bool) (w : World S) :
  fst (isReady ls (storage w)) = Ret false ->
  JsCollector._flush ls force reschedule w =
  finish reschedule
    (mkWorld
       (if (0 <? totalLen (this w)) && force then cached (this w) else this w)
       (snd (isReady ls (storage w))) (timeouts w) (nextTimeoutID w)
       (events w ++ [CallIsReady (Ret false)])).
Proof.
  intros Hr. unfold JsCollector._flush, bind, try_catch, call_isReady, get_this, finish.
  destruct (isReady ls (storage w)) as [r s1]. simpl in *. subst r. simpl.
  destruct (0 <? totalLen (this w)); destruct force; reflexivity.
Qed.

(** A storage whose [isReady] raises: the error goes to the console and
    the flush goes on as if the answer had been "not ready". *)
Lemma js_flush_isReady_raises (force reschedule : bool) (w : World S) (e : JsValue) :
  fst (isReady ls (storage w)) = Throw e ->
  JsCollector._flush ls force reschedule w =
  finish reschedule
    (mkWorld
       (if (0 <? totalLen (this w)) && force then cached (this w) else this w)
       (snd (isReady ls (storage w))) (timeouts w) (nextTimeoutID w)
       (events w
        ++ [CallIsReady (Throw e);
            ConsoleError "LogCollector error when calling logStorage.isReady(): " e])).
Proof.
  intros Hr. unfold JsCollector._flush, bind, try_catch, call_isReady, get_this, finish.
  destruct (isReady ls (storage w)) as [r s1]. simpl in *. subst r. simpl.
  rewrite <- app_assoc. simpl.
  destruct (0 <? totalLen (this w)); destruct force; reflexivity.
Qed.

Lemma store_calls_app (evs1 evs2 : list Event) :
  store_calls (evs1 ++ evs2) = store_calls evs1 ++ store_calls evs2.
Proof.
  induction evs1 as [|[r|logs r|msg err] rest IH]; simpl; rewrite ?IH; reflexivity.
Qed.

Lemma store_calls_stored (l : list (list LogEntry)) :
  store_calls (map (fun logs => CallStoreLogs logs (Ret tt)) l) = l.
Proof.
  induction l as [|b l IH]; simpl; [reflexivity | rewrite IH; reflexivity].
Qed.

(** A guarded store call returns whatever the storage does; an error
    raised is reported on the console. *)
Lemma js_storeLogs_shape (logs : list LogEntry) (w : World S) :
  exists (s' : S) (evs : list Event),
    JsCollector._storeLogs ls logs w
    = (Ret tt, mkWorld (this w) s' (timeouts w) (nextTimeoutID w) (events w ++ evs))
    /\ store_calls evs = [logs]
    /\ (fst (storeLogs ls logs (storage w)) = Ret tt -> console_errors evs = [])
    /\ (forall e, fst (storeLogs ls logs (storage w)) = Throw e ->
        console_errors evs = [e]).
Proof.
  unfold JsCollector._storeLogs, try_catch, call_storeLogs.
  destruct (storeLogs ls logs (storage w)) as [[[]|e] s1].
  - exists s1, [CallStoreLogs logs (Ret tt)]. simpl.
    repeat split; discriminate.
  - exists s1,
      [CallStoreLogs logs (Throw e);
       ConsoleError "LogCollector error when calling logStorage.storeLogs(): " e].
    unfold console_error, emit. simpl. rewrite <- app_assoc. simpl.
    repeat split; [discriminate | intros e' H; inversion H; reflexivity].
Qed.

(** The guarded store calls for the batches [l]: every batch is handed
    to the storage, in order, whatever the calls do. *)
Lemma js_forEach_storeLogs (l : list (list LogEntry)) :
  forall w : World S,
    exists (s' : S) (evs : list Event),
      forEach l (fun cachedQueue => JsCollector._storeLogs ls cachedQueue) w
      = (Ret tt,
         mkWorld (this w) s' (timeouts w) (nextTimeoutID w) (events w ++ evs))
      /\ store_calls evs = l.
Proof.
  induction l as [|logs rest IH]; intros w.
  - exists (storage w), []. simpl. unfold ret. rewrite app_nil_r.
    destruct w; auto.
  - simpl. unfold bind.
    destruct (js_storeLogs_shape logs w) as (s1 & evs1 & E1 & Hc1 & _).
    rewrite E1.
    match goal with |- context [forEach rest _ ?w1] =>
      destruct (IH w1) as (s' & evs & E & Hc) end.
    exists s', (evs1 ++ evs). rewrite E. simpl.
    rewrite store_calls_app, Hc1, Hc, <- app_assoc. auto.
Qed.

(** A storage that answers "ready", the queue not empty: every cached
    batch and then the queue are handed to the storage, whether the
    store calls return or raise, and cache and queue are emptied. *)
Lemma js_flush_ready (force reschedule : bool) (w : World S) :
  0 < totalLen (this w) ->
  fst (isReady ls (storage w)) = Ret true ->
  exists (s' : S) (evs : list Event),
    JsCollector._flush ls force reschedule w =
    finish reschedule
      (mkWorld (set_totalLen (set_queue (set_outputCache (this w) []) []) 0)
         s' (timeouts w) (nextTimeoutID w)
         (events w ++ CallIsReady (Ret true) :: evs))
    /\ store_calls evs = outputCache (this w) ++ [queue (this w)].
Proof.
  intros Hlen Hr. apply Z.ltb_lt in Hlen.
  unfold JsCollector._flush.
  unfold bind at 1. unfold try_catch at 1. unfold call_isReady at 1.
  destruct (isReady ls (storage w)) as [r s1]. simpl in Hr. subst r.
  unfold bind at 1. unfold get_this at 1.
  cbn [this]. rewrite Hlen. cbn [andb orb].
  unfold bind at 1. unfold bind at 1. unfold bind at 1.
  destruct (outputCache (this w)) as [|b cache] eqn:Ecache.
  - cbn [List.length Nat.eqb negb]. unfold ret at 1. unfold bind at 1, get_this at 1.
    match goal with |- context [JsCollector._storeLogs ls ?q ?w1] =>
      destruct (js_storeLogs_shape q w1) as (s' & evs & E & Hc & _) end.
    exists s', evs. cbn [this] in *. rewrite E. cbn [this storage timeouts nextTimeoutID events].
    unfold bind, update_this. cbn [this storage timeouts nextTimeoutID events].
    replace (set_outputCache (this w) []) with (this w)
      by (destruct (this w); simpl in Ecache; subst; reflexivity).
    rewrite <- app_assoc. simpl. auto.
  - cbn [List.length Nat.eqb negb]. unfold bind at 1.
    match goal with |- context [forEach ?l _ ?w1] =>
      destruct (js_forEach_storeLogs l w1) as (s1' & evs1 & E1 & Hc1) end.
    rewrite E1. unfold update_this at 1. cbn [this storage timeouts nextTimeoutID events].
    unfold bind at 1, get_this at 1. cbn [this].
    match goal with |- context [JsCollector._storeLogs ls ?q ?w1] =>
      destruct (js_storeLogs_shape q w1) as (s' & evs & E & Hc & _) end.
    rewrite E. cbn [this storage timeouts nextTimeoutID events].
    exists s', (evs1 ++ evs). unfold bind, update_this.
    cbn [this storage timeouts nextTimeoutID events set_outputCache queue].
    rewrite store_calls_app, Hc1, Hc. simpl.
    rewrite <- !app_assoc. simpl. auto.
Qed.

End JsFlushFacts.

(* ================================================================== *)
(** * [stop()] against a storage that is not ready *)

(** C4, as stated, fails: after [stop()] against a storage that is not
    ready the pending batch has not been appended to the cache, in
    neither file; it is still the queue. *)
Lemma stop_does_not_cache_pending_batch :
  ~ stop_caches_pending_batch (TsCollector.stop (plain_storage false)) hello_world
  /\ ~ stop_caches_pending_batch (JsCollector.stop (plain_storage false)) js_hello_world
  /\ queue (this (snd (TsCollector.stop (plain_storage false) hello_world)))
     = [ts_line "hello"]
  /\ outputCache (this (snd (TsCollector.stop (plain_storage false) hello_world)))
     = [].
Proof.
  repeat split; try (vm_compute; reflexivity);
    intros [H _]; vm_compute in H; discriminate.
Qed.

(** C4, amended: [stop()] is [_flush(false, false)]; against a storage
    that answers "not ready" it asks for readiness once and leaves
    everything else as it was: the pending batch stays in the queue,
    [totalLen] and the cache are unchanged, no store call is made and no
    timeout is set or cleared. Both files agree. *)
Theorem stop_keeps_pending_batch_when_not_ready :
  forall (S : Type) (ls : LogStorage S) (w : World S),
    collector_ok (this w) ->
    queue (this w) <> [] ->
    reports ls false 1 (storage w) ->
    let w' :=
      mkWorld (this w) (after_queries ls 1 (storage w)) (timeouts w)
        (nextTimeoutID w) (events w ++ [CallIsReady (Ret false)]) in
    TsCollector.stop ls = TsCollector._flush ls false false
    /\ TsCollector.stop ls w = (Ret tt, w')
    /\ JsCollector.stop ls = JsCollector._flush ls false false
    /\ JsCollector.stop ls w = (Ret tt, w').
Proof.
  intros S ls w Hok Hq Hr w'.
  pose proof (collector_ok_positive _ Hok Hq) as Hlen.
  repeat split.
  - unfold TsCollector.stop. rewrite (ts_flush_skipped ls false w Hlen Hr).
    reflexivity.
  - unfold JsCollector.stop. destruct Hr as [Hr _].
    rewrite (js_flush_not_ready ls false false w Hr).
    rewrite andb_false_r. reflexivity.
Qed.

Lemma stop_keeps_pending_batch_when_not_ready_witness :
  TsCollector.stop (plain_storage false) hello_world
  = (Ret tt,
     mkWorld (this hello_world) tt [] 1%nat [CallIsReady (Ret false)]).
Proof.
  refine (proj1 (proj2 (stop_keeps_pending_batch_when_not_ready unit
                         (plain_storage false) hello_world _ _ _))).
  - vm_compute. split; [reflexivity | repeat constructor; discriminate].
  - vm_compute. discriminate.
  - vm_compute. auto.
Defined.

(* ================================================================== *)
(** * A forced flush against a storage that is not ready *)

(** C8: a forced flush of a non-empty queue against a storage that
    answers "not ready" makes no store call (the two readiness queries
    are all it asks of the storage), appends the queue as it is as one
    new batch at the end of the cache, and leaves the queue empty with
    [totalLen] zero. *)
Theorem forced_flush_caches_queue_when_not_ready :
  forall (S : Type) (ls : LogStorage S) (reschedule : bool) (w : World S),
    collector_ok (this w) ->
    queue (this w) <> [] ->
    reports ls false 2 (storage w) ->
    let r := TsCollector._flush ls true reschedule w in
    fst r = Ret tt
    /\ events (snd r)
       = events w ++ [CallIsReady (Ret false); CallIsReady (Ret false)]
    /\ store_calls (events (snd r)) = store_calls (events w)
    /\ outputCache (this (snd r)) = outputCache (this w) ++ [queue (this w)]
    /\ queue (this (snd r)) = []
    /\ totalLen (this (snd r)) = 0.
Proof.
  intros S ls reschedule w Hok Hq Hr r. subst r.
  pose proof (collector_ok_positive _ Hok Hq) as Hlen.
  rewrite (ts_flush_cached ls reschedule w Hlen Hr).
  match goal with |- context [finish reschedule ?w1] =>
    destruct (finish_kept reschedule w1) as (H1 & H2 & H3 & H4 & H5 & _) end.
  rewrite H1, H2, H3, H4, H5. simpl.
  repeat split. rewrite store_calls_app. simpl. apply app_nil_r.
Qed.

Lemma forced_flush_caches_queue_when_not_ready_witness :
  let r := TsCollector._flush (plain_storage false) true true hello_world in
  fst r = Ret tt
  /\ events (snd r) = [CallIsReady (Ret false); CallIsReady (Ret false)]
  /\ store_calls (events (snd r)) = []
  /\ outputCache (this (snd r)) = [[ts_line "hello"]]
  /\ queue (this (snd r)) = []
  /\ totalLen (this (snd r)) = 0.
Proof.
  refine (forced_flush_caches_queue_when_not_ready unit (plain_storage false) true
            hello_world _ _ _).
  - vm_compute. split; [reflexivity | repeat constructor; discriminate].
  - vm_compute. discriminate.
  - vm_compute. auto.
Defined.

(* ================================================================== *)
(** * A flush against a storage that is ready *)

(** When the store calls return: a flush of a non-empty queue against a
    storage that answers "ready" hands the cached batches to the
    storage in the order they were cached, then the queue, and leaves
    the cache empty (and the queue too). *)
Lemma ready_flush_delivers_cache_in_order :
  forall (S : Type) (ls : LogStorage S) (force reschedule : bool) (w : World S),
    collector_ok (this w) ->
    queue (this w) <> [] ->
    reports ls true 2 (storage w) ->
    stores_return ls (outputCache (this w) ++ [queue (this w)])
      (after_queries ls 2 (storage w)) ->
    let r := TsCollector._flush ls force reschedule w in
    fst r = Ret tt
    /\ events (snd r)
       = events w
         ++ [CallIsReady (Ret true); CallIsReady (Ret true)]
         ++ map (fun logs => CallStoreLogs logs (Ret tt)) (outputCache (this w))
         ++ [CallStoreLogs (queue (this w)) (Ret tt)]
    /\ store_calls (events (snd r))
       = store_calls (events w) ++ outputCache (this w) ++ [queue (this w)]
    /\ outputCache (this (snd r)) = []
    /\ queue (this (snd r)) = []
    /\ totalLen (this (snd r)) = 0.
Proof.
  intros S ls force reschedule w Hok Hq Hr Hst r. subst r.
  pose proof (collector_ok_positive _ Hok Hq) as Hlen.
  rewrite (ts_flush_sent ls force reschedule w Hlen Hr Hst).
  match goal with |- context [finish reschedule ?w1] =>
    destruct (finish_kept reschedule w1) as (H1 & H2 & H3 & H4 & H5 & _) end.
  rewrite H1, H2, H3, H4, H5. cbn [this events queue totalLen outputCache
    set_totalLen set_queue set_outputCache].
  rewrite map_app. cbn [map].
  repeat split.
  rewrite !store_calls_app, store_calls_stored. reflexivity.
Qed.

Lemma ready_flush_delivers_cache_in_order_witness :
  let r := TsCollector._flush (plain_storage true) false true backlog_world in
  fst r = Ret tt
  /\ events (snd r)
     = events backlog_world
       ++ [CallIsReady (Ret true); CallIsReady (Ret true);
           CallStoreLogs [ts_line "a"; ts_line "b"] (Ret tt);
           CallStoreLogs [ts_line "c"; ts_line "d"] (Ret tt);
           CallStoreLogs [ts_line "e"] (Ret tt)]
  /\ store_calls (events (snd r))
     = [[ts_line "a"; ts_line "b"]; [ts_line "c"; ts_line "d"]; [ts_line "e"]]
  /\ outputCache (this (snd r)) = []
  /\ queue (this (snd r)) = []
  /\ totalLen (this (snd r)) = 0.
Proof.
  refine (ready_flush_delivers_cache_in_order unit (plain_storage true) false true
            backlog_world _ _ _ _).
  - vm_compute. split; [reflexivity | repeat constructor; discriminate].
  - vm_compute. discriminate.
  - vm_compute. auto.
  - vm_compute. auto.
Defined.

(** C7, the TypeScript class: the store calls of a ready flush are not
    guarded. The storage answers "ready", the queue is not empty and the
    second store call raises: the first cached batch has been handed
    over, the error leaves the flush, the queue is never handed over,
    and the cache is not emptied; it still holds both batches. The next
    flush, with the storage recovered, hands the first batch over a
    second time. *)
Theorem ts_ready_flush_keeps_cache_when_store_raises :
  let r := TsCollector.flush flaky_storage flaky_backlog_world in
  outputCache (this flaky_backlog_world)
  = [[ts_line "a"; ts_line "b"]; [ts_line "c"; ts_line "d"]]
  /\ queue (this flaky_backlog_world) = [ts_line "e"]
  /\ fst r = Throw boom
  /\ events (snd r)
     = events flaky_backlog_world
       ++ [CallIsReady (Ret true); CallIsReady (Ret true);
           CallStoreLogs [ts_line "a"; ts_line "b"] (Ret tt);
           CallStoreLogs [ts_line "c"; ts_line "d"] (Throw boom)]
  /\ outputCache (this (snd r))
     = [[ts_line "a"; ts_line "b"]; [ts_line "c"; ts_line "d"]]
  /\ queue (this (snd r)) = [ts_line "e"]
  /\ store_calls (events (snd (TsCollector.flush flaky_storage (snd r))))
     = [[ts_line "a"; ts_line "b"]; [ts_line "c"; ts_line "d"];
        [ts_line "a"; ts_line "b"]; [ts_line "c"; ts_line "d"]; [ts_line "e"]].
Proof. vm_compute. repeat split. Qed.

(** The guarded collector on the same input: the three batches are
    handed over once each, the error is reported, cache and queue are
    emptied and the flush returns. *)
Lemma js_ready_flush_goes_on_when_store_raises :
  let w := mkWorld (this js_backlog_world) 0%nat (timeouts js_backlog_world)
             (nextTimeoutID js_backlog_world) (events js_backlog_world) in
  let r := JsCollector.flush flaky_storage w in
  fst r = Ret tt
  /\ store_calls (events (snd r))
     = [[js_line "a"; js_line "b"]; [js_line "c"; js_line "d"]; [js_line "e"]]
  /\ console_errors (events (snd r)) = [boom]
  /\ outputCache (this (snd r)) = []
  /\ queue (this (snd r)) = [].
Proof. vm_compute. repeat split. Qed.

(** The guarded collector does the same without the assumption on the
    store calls: they may raise. *)
Lemma js_ready_flush_delivers_cache_in_order
    (S : Type) (ls : LogStorage S) (force reschedule : bool) (w : World S) :
  0 < totalLen (this w) ->
  fst (isReady ls (storage w)) = Ret true ->
  let r := JsCollector._flush ls force reschedule w in
  fst r = Ret tt
  /\ store_calls (events (snd r))
     = store_calls (events w) ++ outputCache (this w) ++ [queue (this w)]
  /\ outputCache (this (snd r)) = []
  /\ queue (this (snd r)) = []
  /\ totalLen (this (snd r)) = 0.
Proof.
  intros Hlen Hr r. subst r.
  destruct (js_flush_ready ls force reschedule w Hlen Hr) as (s' & evs & E & Hc).
  rewrite E.
  match goal with |- context [finish reschedule ?w1] =>
    destruct (finish_kept reschedule w1) as (H1 & H2 & H3 & H4 & H5 & _) end.
  rewrite H1, H2, H3, H4, H5. simpl.
  repeat split. rewrite store_calls_app. simpl. rewrite Hc. reflexivity.
Qed.

(* ================================================================== *)
(** * Errors raised by the storage *)

Section NeverRaises.
Context {S : Type}.
Variable ls : LogStorage S.

Lemma never_raises_ret {A} (a : A) : never_raises (ret (S := S) a).
Proof. intros w. reflexivity. Qed.

Lemma never_raises_bind {A B} (m : M S A) (k : A -> M S B) :
  never_raises m -> (forall a, never_raises (k a)) -> never_raises (bind m k).
Proof.
  intros Hm Hk w. unfold bind. specialize (Hm w).
  destruct (m w) as [[a|e] w']; simpl in *; [apply Hk | discriminate].
Qed.

Lemma never_raises_try_catch {A} (body : M S A) (handler : JsValue -> M S A) :
  (forall e, never_raises (handler e)) -> never_raises (try_catch body handler).
Proof.
  intros Hk w. unfold try_catch.
  destruct (body w) as [[a|e] w']; simpl; [reflexivity | apply Hk].
Qed.

Lemma never_raises_update (f : Collector -> Collector) :
  never_raises (update_this (S := S) f).
Proof. intros w. reflexivity. Qed.

Lemma never_raises_emit (e : Event) : never_raises (emit (S := S) e).
Proof. intros w. reflexivity. Qed.

Lemma never_raises_get_this : never_raises (get_this (S := S)).
Proof. intros w. reflexivity. Qed.

Lemma never_raises_forEach {A} (f : A -> M S unit) (l : list A) :
  (forall x, never_raises (f x)) -> never_raises (forEach l f).
Proof.
  intros Hf. induction l as [|x rest IH]; simpl.
  - apply never_raises_ret.
  - apply never_raises_bind; [apply Hf | intros _; exact IH].
Qed.

Lemma never_raises_reschedule : never_raises (_reschedulePublishInterval (S := S)).
Proof. intros w. rewrite reschedule_returns. reflexivity. Qed.

Lemma js_storeLogs_never_raises (logs : list LogEntry) :
  never_raises (JsCollector._storeLogs ls logs).
Proof.
  apply never_raises_try_catch. intros e. apply never_raises_emit.
Qed.

(** No call of [_flush] of the guarded collector raises. *)
Lemma js_flush_never_raises (force reschedule : bool) :
  never_raises (JsCollector._flush ls force reschedule).
Proof.
  unfold JsCollector._flush.
  apply never_raises_bind.
  { apply never_raises_try_catch. intros e.
    apply never_raises_bind; [apply never_raises_emit | intros; apply never_raises_ret]. }
  intros ready.
  apply never_raises_bind; [apply never_raises_get_this | intros c].
  apply never_raises_bind.
  2:{ intros _. destruct reschedule;
        [apply never_raises_reschedule | apply never_raises_ret]. }
  destruct (_ && _); [|apply never_raises_ret].
  apply never_raises_bind.
  2:{ intros _. apply never_raises_bind; intros; apply never_raises_update. }
  destruct ready.
  - apply never_raises_bind.
    + destruct (negb _); [|apply never_raises_ret].
      apply never_raises_bind.
      * apply never_raises_forEach. intros logs. apply js_storeLogs_never_raises.
      * intros _. apply never_raises_update.
    + intros _. apply never_raises_bind; [apply never_raises_get_this | intros c2].
      apply js_storeLogs_never_raises.
  - apply never_raises_update.
Qed.

End NeverRaises.

(** C2, the TypeScript class: a flush of a non-empty queue against a
    storage whose [isReady] raises lets the error out. Nothing is
    reported on the console, the reschedule step is not reached (no
    timeout is set), and the queue is as before. *)
Theorem ts_flush_propagates_isReady_error :
  TsCollector.flush unreachable_storage hello_world
  = (Throw boom,
     mkWorld (this hello_world) tt [] 1%nat [CallIsReady (Throw boom)]).
Proof. vm_compute. reflexivity. Qed.

(** The guarded collector on the same input: the error is reported, the
    answer counts as "not ready", the flush goes on to its reschedule
    step and returns. *)
Lemma js_flush_reports_isReady_error :
  JsCollector.flush unreachable_storage js_hello_world
  = (Ret tt,
     mkWorld (set_storeLogsIntervalID (this js_hello_world) (Some 1%nat)) tt
       [(1%nat, 30000)] 2%nat
       [CallIsReady (Throw boom);
        ConsoleError "LogCollector error when calling logStorage.isReady(): " boom]).
Proof. vm_compute. reflexivity. Qed.

(** C3, the TypeScript class: a flush against a ready storage whose
    [storeLogs] raises stops at the first cached batch. The error gets
    out, the second cached batch and the queue are not handed over,
    nothing is reported, the reschedule step is not reached, and cache
    and queue stay as they were, so that the next flush sends the first
    batch again. *)
Theorem ts_flush_propagates_storeLogs_error :
  outputCache (this backlog_world)
  = [[ts_line "a"; ts_line "b"]; [ts_line "c"; ts_line "d"]]
  /\ queue (this backlog_world) = [ts_line "e"]
  /\ TsCollector.flush failing_storage backlog_world
     = (Throw boom,
        mkWorld (this backlog_world) tt (timeouts backlog_world)
          (nextTimeoutID backlog_world)
          (events backlog_world
           ++ [CallIsReady (Ret true); CallIsReady (Ret true);
               CallStoreLogs [ts_line "a"; ts_line "b"] (Throw boom)])).
Proof. vm_compute. repeat split. Qed.

(** The guarded collector on the same input: three store calls, three
    reports, cache and queue emptied. *)
Lemma js_flush_reports_storeLogs_errors :
  let r := JsCollector.flush failing_storage js_backlog_world in
  fst r = Ret tt
  /\ store_calls (events (snd r))
     = [[js_line "a"; js_line "b"]; [js_line "c"; js_line "d"]; [js_line "e"]]
  /\ console_errors (events (snd r)) = [boom; boom; boom]
  /\ outputCache (this (snd r)) = []
  /\ queue (this (snd r)) = []
  /\ totalLen (this (snd r)) = 0.
Proof. vm_compute. repeat split. Qed.

(* ================================================================== *)
(** * The size check of [_log] *)

Section ForcedFlush.
Context {S : Type}.
Variable ls : LogStorage S.

Lemma forEach_storeLogs_shape (l : list (list LogEntry)) :
  forall w : World S,
    exists (r : Outcome unit) (s' : S) (evs : list Event),
      forEach l (fun cachedQueue => call_storeLogs ls cachedQueue) w
      = (r, mkWorld (this w) s' (timeouts w) (nextTimeoutID w) (events w ++ evs)).
Proof.
  induction l as [|logs rest IH]; intros w.
  - exists (Ret tt), (storage w), []. simpl. unfold ret. rewrite app_nil_r.
    destruct w; reflexivity.
  - simpl. unfold bind. unfold call_storeLogs at 1.
    destruct (storeLogs ls logs (storage w)) as [[[]|e] s1].
    + match goal with |- context [forEach rest _ ?w1] =>
        destruct (IH w1) as (r & s' & evs & E) end.
      rewrite E. simpl. exists r, s', (CallStoreLogs logs (Ret tt) :: evs).
      rewrite <- app_assoc. reflexivity.
    + exists (Throw e), s1, [CallStoreLogs logs (Throw e)]. reflexivity.
Qed.

(** A forced flush of a non-empty queue either raises or gets to the
    reschedule step; in the second case it has emptied the queue. On the
    way it touches neither the timeouts nor the collector's timeout
    fields. *)
Lemma ts_forced_flush_shape (reschedule : bool) (w : World S) :
  0 < totalLen (this w) ->
  exists (r : Outcome unit) (c' : Collector) (s' : S) (evs : list Event),
    TsCollector._flush ls true reschedule w
    = match r with
      | Ret _ =>
          finish reschedule
            (mkWorld c' s' (timeouts w) (nextTimeoutID w) (events w ++ evs))
      | Throw e =>
          (Throw e, mkWorld c' s' (timeouts w) (nextTimeoutID w) (events w ++ evs))
      end
    /\ (returned r = true -> queue c' = [] /\ totalLen c' = 0)
    /\ storeLogsIntervalID c' = storeLogsIntervalID (this w)
    /\ storeInterval c' = storeInterval (this w).
Proof.
  intros Hlen. apply Z.ltb_lt in Hlen.
  unfold TsCollector._flush, bind, get_this. fold (finish (S := S) reschedule).
  rewrite Hlen. unfold call_isReady at 1.
  destruct (isReady ls (storage w)) as [[ready|e] s1].
  2:{ exists (Throw e), (this w), s1, [CallIsReady (Throw e)].
      repeat split; discriminate. }
  unfold ret at 1. rewrite orb_true_r. unfold call_isReady at 1. cbn [storage].
  destruct (isReady ls s1) as [[ready2|e] s2].
  2:{ exists (Throw e), (this w), s2,
        [CallIsReady (Ret ready); CallIsReady (Throw e)].
      cbn [this timeouts nextTimeoutID events]. rewrite <- app_assoc.
      repeat split; discriminate. }
  cbn beta iota. cbn [this storage timeouts nextTimeoutID events].
  destruct ready2.
  - cbn beta iota. cbn [this storage timeouts nextTimeoutID events].
    destruct (outputCache (this w)) as [|b cache] eqn:Ecache.
    + cbn [List.length Nat.eqb negb]. unfold ret at 1. unfold call_storeLogs.
      cbn [this storage timeouts nextTimeoutID events].
      destruct (storeLogs ls (queue (this w)) s2) as [[[]|e] s3].
      * unfold update_this. cbn [this storage timeouts nextTimeoutID events].
        eexists (Ret tt), _, _, _. rewrite <- !app_assoc.
        split; [reflexivity|]. simpl. auto.
      * eexists (Throw e), _, _, _. rewrite <- !app_assoc.
        split; [reflexivity|]. repeat split; discriminate.
    + cbn [List.length Nat.eqb negb].
      match goal with |- context [forEach ?l _ ?w1] =>
        destruct (forEach_storeLogs_shape l w1) as (r & s3 & evs & E) end.
      rewrite E. cbn [this storage timeouts nextTimeoutID events].
      destruct r as [[]|e].
      2:{ eexists (Throw e), _, _, _. rewrite <- !app_assoc.
          split; [reflexivity|]. repeat split; discriminate. }
      unfold update_this at 1. cbn [this storage timeouts nextTimeoutID events].
      unfold call_storeLogs. cbn [this storage timeouts nextTimeoutID events].
      destruct (storeLogs ls _ s3) as [[[]|e] s4].
      * unfold update_this. cbn [this storage timeouts nextTimeoutID events].
        eexists (Ret tt), _, _, _. rewrite <- !app_assoc.
        split; [reflexivity|]. simpl. auto.
      * eexists (Throw e), _, _, _. rewrite <- !app_assoc.
        split; [reflexivity|]. repeat split; discriminate.
  - unfold update_this. cbn [this storage timeouts nextTimeoutID events].
    eexists (Ret tt), _, _, _. rewrite <- !app_assoc.
    split; [reflexivity|]. simpl. auto.
Qed.

End ForcedFlush.

Lemma aggregate_frame (c : Collector) (msg : option string) (stamp : JsValue) :
  stringifyObjects (aggregate c msg stamp) = stringifyObjects c
  /\ storeInterval (aggregate c msg stamp) = storeInterval c
  /\ maxEntryLength (aggregate c msg stamp) = maxEntryLength c
  /\ levelMethods (aggregate c msg stamp) = levelMethods c
  /\ storeLogsIntervalID (aggregate c msg stamp) = storeLogsIntervalID c
  /\ outputCache (aggregate c msg stamp) = outputCache c.
Proof.
  unfold aggregate. destruct msg as [msg|]; [|tauto].
  destruct (truthy (JsString msg)); [|tauto].
  destruct (unsnoc (queue c)) as [[before prev]|]; [|simpl; tauto].
  destruct (String.eqb (text prev) msg); simpl; tauto.
Qed.

(** What a call of a per-level method does, by the outcome of the size
    check on the collector [c1] that the aggregation leaves. *)
Lemma ts_call_level_unfold (S : Type) (ls : LogStorage S) (w : World S)
    (methodName logLevel : string) (args : list JsValue) :
  Logger.get (levelMethods (this w)) methodName = Some logLevel ->
  let c1 := TsRun.aggregated (this w) (methodName, args) in
  let w1 := mkWorld c1 (storage w) (timeouts w) (nextTimeoutID w) (events w) in
  TsCollector.call_level ls methodName args w
  = if maxEntryLength c1 <=? totalLen c1
    then TsCollector._flush ls true true w1
    else (Ret tt, w1).
Proof.
  intros Hm c1 w1. subst c1 w1.
  unfold TsCollector.call_level, TsRun.aggregated, bind at 1, get_this at 1.
  cbn [fst snd]. rewrite Hm.
  unfold TsCollector._log, bind, update_this, get_this. cbn [this].
  destruct (_ <=? _); reflexivity.
Qed.

(** Right after a submission has been aggregated, [_log] compares
    [totalLen] with [maxEntryLength]. If the threshold is reached the
    call is [_flush(true, true)] on the state the aggregation left: when
    that call returns, a new timeout over [storeInterval] is pending in
    place of the collector's previous one, and a non-empty queue has
    been emptied whatever the storage answered. Below the threshold the
    submission does nothing but aggregate. *)
Lemma size_check_forces_flush :
  forall (S : Type) (ls : LogStorage S) (w : World S)
         (methodName logLevel : string) (args : list JsValue),
    Logger.get (levelMethods (this w)) methodName = Some logLevel ->
    let c1 := TsRun.aggregated (this w) (methodName, args) in
    let w1 := mkWorld c1 (storage w) (timeouts w) (nextTimeoutID w) (events w) in
    let r := TsCollector.call_level ls methodName args w in
    (maxEntryLength c1 <= totalLen c1 ->
     r = TsCollector._flush ls true true w1
     /\ (fst r = Ret tt ->
         storeLogsIntervalID (this (snd r)) = Some (nextTimeoutID w)
         /\ timeouts (snd r)
            = match storeLogsIntervalID (this w) with
              | Some id =>
                  if negb (Nat.eqb id 0)
                  then filter (fun t => negb (Nat.eqb (fst t) id)) (timeouts w)
                  else timeouts w
              | None => timeouts w
              end ++ [(nextTimeoutID w, storeInterval (this w))]
         /\ (0 < totalLen c1 ->
             queue (this (snd r)) = [] /\ totalLen (this (snd r)) = 0)))
    /\ (totalLen c1 < maxEntryLength c1 -> r = (Ret tt, w1)).
Proof.
  intros S ls w methodName logLevel args Hm c1 w1 r.
  assert (Hr : r = if maxEntryLength c1 <=? totalLen c1
                   then TsCollector._flush ls true true w1 else (Ret tt, w1))
    by (apply (ts_call_level_unfold S ls w methodName logLevel args Hm)).
  assert (Hframe : storeLogsIntervalID c1 = storeLogsIntervalID (this w)
                   /\ storeInterval c1 = storeInterval (this w)).
  { subst c1. unfold TsRun.aggregated. cbn [fst snd]. rewrite Hm.
    match goal with |- context [aggregate ?c ?m ?t] =>
      pose proof (aggregate_frame c m t) end. tauto. }
  destruct Hframe as [Hid Hsi].
  split.
  - intros Hmax. apply Z.leb_le in Hmax. rewrite Hmax in Hr.
    split; [exact Hr|]. rewrite Hr. clear Hr r.
    destruct (Z_lt_le_dec 0 (totalLen c1)) as [Hpos|Hzero].
    + destruct (ts_forced_flush_shape ls true w1 Hpos)
        as (o & c' & s' & evs & E & Hreset & Hid' & Hsi').
      rewrite E. destruct o as [[]|e]; [|cbn; discriminate].
      intros _. unfold finish. rewrite reschedule_returns.
      cbn [snd this timeouts nextTimeoutID events set_storeLogsIntervalID
           storeLogsIntervalID queue totalLen].
      subst w1. cbn [this timeouts nextTimeoutID] in *.
      rewrite Hid', Hsi', Hid, Hsi.
      repeat split; apply Hreset; reflexivity.
    + rewrite (ts_flush_idle ls true true w1 Hzero).
      intros _. unfold finish. rewrite reschedule_returns.
      subst w1. cbn [snd this timeouts nextTimeoutID events set_storeLogsIntervalID
           storeLogsIntervalID queue totalLen].
      rewrite Hid, Hsi. repeat split; lia.
  - intros Hlt. apply Z.leb_gt in Hlt. rewrite Hlt in Hr. exact Hr.
Qed.

Lemma size_check_forces_flush_witness :
  let w := new_world (TsCollector.constructor (Some (mkOptions (Some 5) None None))) tt in
  let r := TsCollector.call_level (plain_storage true) "log" [JsString "abcdef"] w in
  fst r = Ret tt
  /\ storeLogsIntervalID (this (snd r)) = Some 1%nat
  /\ timeouts (snd r) = [(1%nat, 30000)]
  /\ queue (this (snd r)) = []
  /\ totalLen (this (snd r)) = 0.
Proof.
  intros w r.
  destruct (size_check_forces_flush unit (plain_storage true) w "log" "LOG"
              [JsString "abcdef"] eq_refl) as [Hreached _].
  destruct Hreached as [_ Hdone]; [vm_compute; discriminate|].
  destruct (Hdone eq_refl) as (Hid & Hts & Hq).
  destruct Hq as [Hq Hlen]; [reflexivity|].
  repeat split; assumption.
Defined.

(** C6, the TypeScript class: the size check calls [_flush(true, true)],
    and nothing guards the flush. With [maxEntryLength] 5 and a storage
    whose [isReady] raises, [collector.log('abcdef')] queues the
    message, reaches the threshold and lets the error out of the call:
    the reschedule step is not reached, so that no timeout is pending
    afterwards, and the queue keeps the message. *)
Theorem ts_size_check_does_not_rearm_when_isReady_raises :
  let r := TsCollector.call_level unreachable_storage "log" [JsString "abcdef"]
             small_world in
  maxEntryLength (this small_world) = 5
  /\ fst r = Throw boom
  /\ queue (this (snd r)) = [mkEntry "abcdef" (JsString "abcdef") 1%nat]
  /\ totalLen (this (snd r)) = 6
  /\ events (snd r) = [CallIsReady (Throw boom)]
  /\ timeouts (snd r) = []
  /\ storeLogsIntervalID (this (snd r)) = None.
Proof. vm_compute. repeat split. Qed.

(** The guarded collector on the same input: the error is reported, the
    forced flush moves the queue to the cache, the timer is rearmed and
    the call returns. *)
Lemma js_size_check_rearms_when_isReady_raises :
  let r := JsCollector.call_level unreachable_storage "log" [JsString "abcdef"]
             js_small_world in
  fst r = Ret tt
  /\ console_errors (events (snd r)) = [boom]
  /\ outputCache (this (snd r)) = [[mkEntry "abcdef" (JsString "abcdef") 1%nat]]
  /\ queue (this (snd r)) = []
  /\ timeouts (snd r) = [(1%nat, 30000)]
  /\ storeLogsIntervalID (this (snd r)) = Some 1%nat.
Proof. vm_compute. repeat split. Qed.

(* ================================================================== *)
(** * Aggregation is run-length grouping *)

Lemma group_runs_cons (t : string) (l : list string) :
  group_runs (t :: l) = cons_run t (group_runs l).
Proof. simpl. unfold cons_run. destruct (group_runs l) as [|[t' n] g]; reflexivity. Qed.

Lemma snoc_run_cons (p : string * nat) (g : list (string * nat)) (t : string) :
  g <> [] -> snoc_run (p :: g) t = p :: snoc_run g t.
Proof. destruct g as [|q g]; [congruence|]. destruct p. reflexivity. Qed.

Lemma snoc_run_not_nil (g : list (string * nat)) (t : string) : snoc_run g t <> [].
Proof.
  destruct g as [|[a n] [|q g]]; simpl; try destruct (String.eqb a t); discriminate.
Qed.

Lemma cons_snoc_run (x t : string) (g : list (string * nat)) :
  cons_run x (snoc_run g t) = snoc_run (cons_run x g) t.
Proof.
  destruct g as [|[a n] g].
  - simpl. rewrite String.eqb_sym. destruct (String.eqb t x); reflexivity.
  - destruct g as [|q g].
    + simpl. destruct (String.eqb_spec a t) as [Hat|Hat];
        destruct (String.eqb_spec x a) as [Hxa|Hxa]; subst; simpl;
        rewrite ?String.eqb_refl; try reflexivity.
      * destruct (String.eqb_spec x t); [congruence | reflexivity].
      * destruct (String.eqb_spec a t); [congruence | reflexivity].
      * destruct (String.eqb_spec x a); [congruence|].
        destruct (String.eqb_spec a t); [congruence | reflexivity].
    + rewrite (snoc_run_cons (a, n) (q :: g) t) by discriminate.
      unfold cons_run. destruct (String.eqb x a).
      * rewrite (snoc_run_cons (x, Datatypes.S n) (q :: g) t) by discriminate.
        reflexivity.
      * rewrite (snoc_run_cons (x, 1%nat) ((a, n) :: q :: g) t) by discriminate.
        rewrite (snoc_run_cons (a, n) (q :: g) t) by discriminate. reflexivity.
Qed.

Lemma group_runs_snoc (l : list string) (t : string) :
  group_runs (l ++ [t]) = snoc_run (group_runs l) t.
Proof.
  induction l as [|x l IH]; [reflexivity|].
  rewrite <- app_comm_cons, !group_runs_cons, IH. apply cons_snoc_run.
Qed.

Lemma snoc_run_app (before : list (string * nat)) (p : string * nat) (t : string) :
  snoc_run (before ++ [p]) t = before ++ snoc_run [p] t.
Proof.
  induction before as [|q before IH]; [reflexivity|].
  rewrite <- !app_comm_cons, snoc_run_cons, IH; [reflexivity|].
  destruct before; discriminate.
Qed.

(** The aggregation of a non-empty message, seen on the pairs of text
    and count. *)
Lemma aggregate_pairs (c : Collector) (msg : string) (stamp : JsValue) :
  msg <> "" ->
  map entry_pair (queue (aggregate c (Some msg) stamp))
  = snoc_run (map entry_pair (queue c)) msg.
Proof.
  intros Hne. unfold aggregate.
  apply truthy_string in Hne. rewrite Hne.
  destruct (unsnoc (queue c)) as [[before prev]|] eqn:Eu.
  - apply unsnoc_snoc in Eu. rewrite Eu, map_app. cbn [map].
    rewrite snoc_run_app. unfold entry_pair at 3. cbn [snoc_run].
    destruct (String.eqb (text prev) msg); cbn [queue set_queue set_totalLen].
    + rewrite map_app. reflexivity.
    + rewrite map_app, map_app. cbn [map]. rewrite <- app_assoc. reflexivity.
  - apply unsnoc_nil in Eu. rewrite Eu. reflexivity.
Qed.

Lemma expand_cons_run (t : string) (g : list (string * nat)) :
  expand (cons_run t g) = t :: expand g.
Proof.
  unfold cons_run. destruct g as [|[t' n] g]; [reflexivity|].
  destruct (String.eqb_spec t t'); subst; reflexivity.
Qed.

Lemma expand_group_runs (l : list string) : expand (group_runs l) = l.
Proof.
  induction l as [|t l IH]; [reflexivity|].
  rewrite group_runs_cons, expand_cons_run, IH. reflexivity.
Qed.

Lemma neighbours_differ_group_runs (l : list string) :
  neighbours_differ (group_runs l).
Proof.
  induction l as [|t l IH]; [exact I|].
  rewrite group_runs_cons. unfold cons_run.
  destruct (group_runs l) as [|[t' n] g]; [simpl; auto|].
  destruct (String.eqb_spec t t') as [E|E].
  - subst. simpl in *. exact IH.
  - simpl in *. auto.
Qed.

Lemma counts_group_runs (l : list string) :
  Forall (fun p => (1 <= snd p)%nat) (group_runs l).
Proof.
  induction l as [|t l IH]; [constructor|].
  rewrite group_runs_cons. unfold cons_run.
  destruct (group_runs l) as [|[t' n] g]; [repeat constructor|].
  inversion IH; subst.
  destruct (String.eqb t t'); repeat constructor; simpl in *; auto; lia.
Qed.

Lemma fold_snoc_run (l l0 : list string) :
  fold_left snoc_run l (group_runs l0) = group_runs (l0 ++ l).
Proof.
  revert l0. induction l as [|t l IH]; intros l0; simpl.
  - rewrite app_nil_r. reflexivity.
  - rewrite <- group_runs_snoc, IH, <- app_assoc. reflexivity.
Qed.

Lemma ts_formatLogMessage_ext (c c' : Collector) (args : list JsValue) :
  stringifyObjects c = stringifyObjects c' ->
  TsCollector.formatLogMessage c args = TsCollector.formatLogMessage c' args.
Proof.
  intros H. unfold TsCollector.formatLogMessage, TsCollector.processArg.
  rewrite H. reflexivity.
Qed.

Section Grouping.
Context {S : Type}.
Variable ls : LogStorage S.

Lemma aggregated_frame (c : Collector) (sub : Submission) :
  stringifyObjects (TsRun.aggregated c sub) = stringifyObjects c
  /\ maxEntryLength (TsRun.aggregated c sub) = maxEntryLength c
  /\ levelMethods (TsRun.aggregated c sub) = levelMethods c.
Proof.
  unfold TsRun.aggregated. destruct (Logger.get _ _); [|tauto].
  match goal with |- context [aggregate ?c ?m ?t] =>
    pose proof (aggregate_frame c m t) end. tauto.
Qed.

Lemma formatted_aggregated (c : Collector) (sub sub' : Submission) :
  TsRun.formatted (TsRun.aggregated c sub) sub' = TsRun.formatted c sub'.
Proof.
  destruct (aggregated_frame c sub) as (Hs & _ & Hl).
  unfold TsRun.formatted. rewrite Hl.
  destruct (Logger.get _ _); [|reflexivity].
  rewrite (ts_formatLogMessage_ext _ c _ Hs). reflexivity.
Qed.

Lemma aggregated_pairs (c : Collector) (sub : Submission) :
  map entry_pair (queue (TsRun.aggregated c sub))
  = match TsRun.formatted c sub with
    | Some msg => snoc_run (map entry_pair (queue c)) msg
    | None => map entry_pair (queue c)
    end.
Proof.
  unfold TsRun.aggregated, TsRun.formatted.
  destruct (Logger.get _ _) as [logLevel|]; [|reflexivity].
  destruct (TsCollector.formatLogMessage c _) as [msg|]; [|reflexivity].
  destruct (truthy (JsString msg)) eqn:Et.
  - apply aggregate_pairs. apply truthy_string. exact Et.
  - unfold aggregate. rewrite Et. reflexivity.
Qed.

Lemma aggregated_ok (c : Collector) (sub : Submission) :
  collector_ok c -> collector_ok (TsRun.aggregated c sub).
Proof.
  unfold TsRun.aggregated. destruct (Logger.get _ _); [apply aggregate_ok | auto].
Qed.

Lemma fold_aggregated_pairs (subs : list Submission) :
  forall c : Collector,
    map entry_pair (queue (fold_left TsRun.aggregated subs c))
    = fold_left snoc_run (queued_texts (map (TsRun.formatted c) subs))
        (map entry_pair (queue c)).
Proof.
  induction subs as [|sub subs IH]; intros c; [reflexivity|].
  cbn [fold_left map]. rewrite IH, aggregated_pairs.
  rewrite (map_ext _ _ (formatted_aggregated c sub)).
  destruct (TsRun.formatted c sub); reflexivity.
Qed.

Lemma fold_aggregated_ok (subs : list Submission) :
  forall c : Collector,
    collector_ok c -> collector_ok (fold_left TsRun.aggregated subs c).
Proof.
  induction subs as [|sub subs IH]; intros c H; [exact H|].
  simpl. apply IH, aggregated_ok, H.
Qed.

(** A submission for which the size check does not fire aggregates and
    does nothing else. *)
Lemma ts_call_level_below (w : World S) (sub : Submission) :
  totalLen (TsRun.aggregated (this w) sub) < maxEntryLength (this w) ->
  snd (TsCollector.call_level ls (fst sub) (snd sub) w)
  = mkWorld (TsRun.aggregated (this w) sub) (storage w) (timeouts w)
      (nextTimeoutID w) (events w).
Proof.
  intros Hlt. destruct sub as [m args]. cbn [fst snd].
  destruct (Logger.get (levelMethods (this w)) m) as [logLevel|] eqn:Hm.
  - rewrite (ts_call_level_unfold S ls w m logLevel args Hm).
    destruct (aggregated_frame (this w) (m, args)) as (_ & Hmax & _).
    rewrite Hmax. apply Z.leb_gt in Hlt. rewrite Hlt. reflexivity.
  - unfold TsCollector.call_level, bind, get_this, TsRun.aggregated.
    cbn [fst snd]. rewrite Hm. destruct w; reflexivity.
Qed.

Lemma ts_submit_all_no_flush (subs : list Submission) :
  forall w : World S,
    TsRun.no_flush ls subs w ->
    TsRun.submit_all ls subs w
    = mkWorld (fold_left TsRun.aggregated subs (this w)) (storage w)
        (timeouts w) (nextTimeoutID w) (events w).
Proof.
  induction subs as [|sub subs IH]; intros w H.
  - destruct w; reflexivity.
  - destruct H as [Hlt Hrest].
    unfold TsRun.submit_all, TsRun.run in *. cbn [map fold_left TsRun.run_op].
    rewrite (ts_call_level_below w sub Hlt) in *.
    rewrite (IH _ Hrest). reflexivity.
Qed.

End Grouping.

(** C5: submissions that follow one another on an empty queue without
    the size check firing leave the run-length grouping of their
    non-empty formatted texts in the queue: the pairs of text and count
    are [group_runs] of the texts, they expand to exactly these texts in
    order, no two neighbouring entries carry the same text, every count
    is at least one, and [totalLen] is the sum of the text lengths of
    the entries, each counted once. *)
Theorem queue_is_run_length_grouping :
  forall (S : Type) (ls : LogStorage S) (w : World S) (subs : list Submission),
    queue (this w) = [] ->
    totalLen (this w) = 0 ->
    TsRun.no_flush ls subs w ->
    let w' := TsRun.submit_all ls subs w in
    let texts := queued_texts (map (TsRun.formatted (this w)) subs) in
    map entry_pair (queue (this w')) = group_runs texts
    /\ expand (map entry_pair (queue (this w'))) = texts
    /\ neighbours_differ (map entry_pair (queue (this w')))
    /\ Forall (fun e => (1 <= count e)%nat) (queue (this w'))
    /\ totalLen (this w') = sum_lengths (queue (this w')).
Proof.
  intros S ls w subs Hq Hlen Hno w' texts.
  assert (Hpairs : map entry_pair (queue (this w')) = group_runs texts).
  { subst w' texts. rewrite (ts_submit_all_no_flush ls subs w Hno). cbn [this].
    rewrite fold_aggregated_pairs, Hq. apply (fold_snoc_run _ []). }
  split; [exact Hpairs|]. rewrite Hpairs.
  split; [apply expand_group_runs|].
  split; [apply neighbours_differ_group_runs|].
  split.
  - pose proof (counts_group_runs texts) as Hc. rewrite <- Hpairs in Hc.
    rewrite Forall_forall in Hc. apply Forall_forall. intros e He.
    apply (Hc (entry_pair e)). apply in_map. exact He.
  - subst w'. rewrite (ts_submit_all_no_flush ls subs w Hno). cbn [this].
    apply fold_aggregated_ok. split; [rewrite Hq, Hlen; reflexivity|].
    rewrite Hq. constructor.
Qed.

Lemma queue_is_run_length_grouping_witness :
  let subs := [("log", [JsString "hello"]); ("log", [JsString "hello"]);
               ("log", [JsString "world"]); ("warn", [JsString "hello"])] in
  let w' := TsRun.submit_all (plain_storage true) subs
              (new_world (TsCollector.constructor None) tt) in
  map entry_pair (queue (this w'))
  = [("hello", 2%nat); ("world", 1%nat); ("hello", 1%nat)]
  /\ totalLen (this w') = 15.
Proof.
  intros subs w'.
  destruct (queue_is_run_length_grouping unit (plain_storage true)
              (new_world (TsCollector.constructor None) tt) subs
              eq_refl eq_refl)
    as (Hpairs & _ & _ & _ & Hlen).
  - vm_compute. repeat split.
  - split; [exact Hpairs | exact Hlen].
Defined.

(* ================================================================== *)
(** * Objects logged on the error level *)

(** [formatLogMessage] of the TypeScript class, on an argument whose
    [typeof] is ['object']: it is stringified exactly when
    [stringifyObjects] is set or the level it is given is
    [Logger.levels.ERROR]. *)
Lemma ts_processArg_object (c : Collector) (logLevel : JsValue)
    (parts : list JsValue) (arg : JsValue) :
  typeof_object arg = true ->
  TsCollector.processArg c logLevel parts arg
  = parts ++ [if stringifyObjects c || strict_eq_string logLevel Logger.levels_ERROR
              then stringify arg else arg].
Proof.
  intros H. unfold TsCollector.processArg. rewrite H, andb_true_r. reflexivity.
Qed.

(** The level the per-level methods of the TypeScript class hand to
    [_log] is a key of [Logger.levels], and no key is
    [Logger.levels.ERROR]. *)
Lemma ts_level_methods_bind_keys (options : option Options) (methodName logLevel : string) :
  Logger.get (levelMethods (TsCollector.constructor options)) methodName
  = Some logLevel ->
  In logLevel (Logger.keys Logger.levels)
  /\ strict_eq_string (JsString logLevel) Logger.levels_ERROR = false.
Proof.
  cbn. intros H.
  repeat match type of H with
         | (if ?b then _ else _) = _ => destruct b
         end;
    inversion H; subst; cbn; intuition auto.
Qed.

(** So, without [stringifyObjects], a per-level method of the
    TypeScript class never stringifies. *)
Lemma ts_level_methods_never_stringify (options : option Options)
    (methodName logLevel : string) (parts : list JsValue) (arg : JsValue) :
  stringifyObjects (TsCollector.constructor options) = false ->
  Logger.get (levelMethods (TsCollector.constructor options)) methodName
  = Some logLevel ->
  TsCollector.processArg (TsCollector.constructor options) (JsString logLevel) parts arg
  = parts ++ [arg].
Proof.
  intros Hs Hm. apply ts_level_methods_bind_keys in Hm. destruct Hm as [_ Hm].
  unfold TsCollector.processArg. rewrite Hs, Hm. reflexivity.
Qed.

(** C1, on the input [collector.error(timestamp, { a: 1 })] with
    [stringifyObjects] off: the TypeScript class queues the object's
    default text, since its [error] method is bound to the key [ERROR]
    while the formatter compares with the value [error]; the formatter
    given the value does stringify. The guarded JavaScript collector
    queues the default text as well: its formatter has no level test. *)
Theorem error_level_object_is_not_stringified :
  queue (this (snd (TsCollector.call_level (plain_storage true) "error"
                      [stamp1; plain_object]
                      (new_world (TsCollector.constructor None) tt))))
  = [mkEntry "2024-01-01T00:00:00.000Z,[object Object]" stamp1 1%nat]
  /\ Logger.get (levelMethods (TsCollector.constructor None)) "error" = Some "ERROR"
  /\ TsCollector.formatLogMessage (TsCollector.constructor None)
       [JsString Logger.levels_ERROR; stamp1; plain_object]
     = Some ("2024-01-01T00:00:00.000Z,{" ++ json_quote "a" ++ ":1}")%string
  /\ queue (this (snd (JsCollector.call_level (plain_storage true) "error"
                         [stamp1; plain_object]
                         (new_world (JsCollector.constructor None) tt))))
     = [mkEntry "2024-01-01T00:00:00.000Z [object Object]" stamp1 1%nat].
Proof. repeat split. Qed.

(* ================================================================== *)
(** * The shape of every flush *)

Lemma same_settings_refl (c : Collector) : same_settings c c.
Proof. repeat split. Qed.

Lemma same_settings_trans (c1 c2 c3 : Collector) :
  same_settings c1 c2 -> same_settings c2 c3 -> same_settings c1 c3.
Proof.
  unfold same_settings. intros (A1 & A2 & A3 & A4 & A5) (B1 & B2 & B3 & B4 & B5).
  repeat split; congruence.
Qed.

Lemma console_errors_app (evs1 evs2 : list Event) :
  console_errors (evs1 ++ evs2) = console_errors evs1 ++ console_errors evs2.
Proof.
  induction evs1 as [|[r|logs r|msg err] rest IH]; simpl; rewrite ?IH; reflexivity.
Qed.

Section Shapes.
Context {S : Type}.
Variable ls : LogStorage S.

(** The unguarded store calls for the batches [l]: the loop stops at the
    first call that raises; when it returns, every batch was handed
    over, in order. *)
Lemma forEach_storeLogs_calls (l : list (list LogEntry)) :
  forall w : World S,
    exists (r : Outcome unit) (s' : S) (evs : list Event),
      forEach l (fun cachedQueue => call_storeLogs ls cachedQueue) w
      = (r, mkWorld (this w) s' (timeouts w) (nextTimeoutID w) (events w ++ evs))
      /\ (returned r = true -> store_calls evs = l)
      /\ console_errors evs = []
      /\ (reliable ls -> returned r = true).
Proof.
  induction l as [|logs rest IH]; intros w.
  - exists (Ret tt), (storage w), []. simpl. unfold ret. rewrite app_nil_r.
    destruct w; auto.
  - simpl. unfold bind. unfold call_storeLogs at 1.
    destruct (storeLogs ls logs (storage w)) as [[[]|e] s1] eqn:Es.
    + match goal with |- context [forEach rest _ ?w1] =>
        destruct (IH w1) as (r & s' & evs & E & Hc & He & Hr) end.
      rewrite E. simpl. exists r, s', (CallStoreLogs logs (Ret tt) :: evs).
      rewrite <- app_assoc. simpl. repeat split; auto.
      intros H. rewrite (Hc H). reflexivity.
    + exists (Throw e), s1, [CallStoreLogs logs (Throw e)]. simpl.
      repeat split; try discriminate.
      intros [_ Hrel]. specialize (Hrel logs (storage w)). rewrite Es in Hrel.
      exact Hrel.
Qed.

(** Every call of [_flush] of the TypeScript class either raises where
    the storage raised, or reaches the reschedule step. It assigns none
    of the settings, reports nothing on the console and, when it gets to
    the reschedule step, every entry of cache and queue is where it was
    or has moved on: from the queue to the cache or, with the cache, to
    the storage. *)
Lemma ts_flush_shape (force reschedule : bool) (w : World S) :
  exists (r : Outcome unit) (c' : Collector) (s' : S) (evs : list Event),
    TsCollector._flush ls force reschedule w
    = match r with
      | Ret _ =>
          finish reschedule
            (mkWorld c' s' (timeouts w) (nextTimeoutID w) (events w ++ evs))
      | Throw e =>
          (Throw e, mkWorld c' s' (timeouts w) (nextTimeoutID w) (events w ++ evs))
      end
    /\ same_settings (this w) c'
    /\ (returned r = true ->
        List.concat (store_calls evs) ++ List.concat (outputCache c') ++ queue c'
        = List.concat (outputCache (this w)) ++ queue (this w))
    /\ console_errors evs = []
    /\ (reliable ls -> returned r = true).
Proof.
  unfold TsCollector._flush, bind, get_this. fold (finish (S := S) reschedule).
  destruct (0 <? totalLen (this w)) eqn:Hlen.
  2:{ unfold ret. exists (Ret tt), (this w), (storage w), [].
      rewrite app_nil_r. destruct w as [c s ts n evs]. simpl.
      repeat split; reflexivity. }
  unfold call_isReady at 1.
  destruct (isReady ls (storage w)) as [[ready|e] s1] eqn:E1.
  2:{ exists (Throw e), (this w), s1, [CallIsReady (Throw e)].
      repeat split; try discriminate.
      intros [Hrel _]. specialize (Hrel (storage w)). rewrite E1 in Hrel.
      exact Hrel. }
  unfold ret at 1.
  destruct (ready || force) eqn:Hpub.
  2:{ unfold ret. exists (Ret tt), (this w), s1, [CallIsReady (Ret ready)].
      repeat split; reflexivity. }
  unfold call_isReady at 1. cbn [storage].
  destruct (isReady ls s1) as [[ready2|e] s2] eqn:E2.
  2:{ exists (Throw e), (this w), s2,
        [CallIsReady (Ret ready); CallIsReady (Throw e)].
      cbn [this timeouts nextTimeoutID events]. rewrite <- app_assoc.
      repeat split; try discriminate.
      intros [Hrel _]. specialize (Hrel s1). rewrite E2 in Hrel. exact Hrel. }
  cbn beta iota. cbn [this storage timeouts nextTimeoutID events].
  destruct ready2.
  - cbn beta iota. cbn [this storage timeouts nextTimeoutID events].
    destruct (outputCache (this w)) as [|b cache] eqn:Ecache.
    + cbn [List.length Nat.eqb negb]. unfold ret at 1. unfold call_storeLogs.
      cbn [this storage timeouts nextTimeoutID events].
      destruct (storeLogs ls (queue (this w)) s2) as [[[]|e] s3] eqn:E3.
      * unfold update_this. cbn [this storage timeouts nextTimeoutID events].
        eexists (Ret tt), _, _, _. rewrite <- !app_assoc.
        split; [reflexivity|]. simpl. rewrite Ecache.
        repeat split; try reflexivity. rewrite !app_nil_r. reflexivity.
      * eexists (Throw e), _, _, _. rewrite <- !app_assoc.
        split; [reflexivity|]. repeat split; try discriminate.
        intros [_ Hrel]. specialize (Hrel (queue (this w)) s2).
        rewrite E3 in Hrel. exact Hrel.
    + cbn [List.length Nat.eqb negb].
      match goal with |- context [forEach ?l _ ?w1] =>
        destruct (forEach_storeLogs_calls l w1) as (r & s3 & evs & E & Hc & He & Hr)
      end.
      rewrite E. cbn [this storage timeouts nextTimeoutID events].
      destruct r as [[]|e].
      2:{ eexists (Throw e), _, _, _. rewrite <- !app_assoc.
          split; [reflexivity|]. simpl. rewrite He.
          repeat split; try discriminate. exact Hr. }
      unfold update_this at 1. cbn [this storage timeouts nextTimeoutID events].
      unfold call_storeLogs. cbn [this storage timeouts nextTimeoutID events].
      cbn [queue set_outputCache].
      destruct (storeLogs ls (queue (this w)) s3) as [[[]|e] s4] eqn:E4.
      * unfold update_this. cbn [this storage timeouts nextTimeoutID events].
        eexists (Ret tt), _, _, _. rewrite <- !app_assoc.
        split; [reflexivity|]. simpl.
        rewrite !store_calls_app, !console_errors_app, He, (Hc eq_refl).
        simpl. repeat split; try reflexivity.
        rewrite !app_nil_r, concat_app. simpl. rewrite app_nil_r, <- app_assoc.
        reflexivity.
      * eexists (Throw e), _, _, _. rewrite <- !app_assoc.
        split; [reflexivity|]. simpl. rewrite !console_errors_app, He.
        repeat split; try discriminate.
        intros [_ Hrel]. specialize (Hrel (queue (this w)) s3).
        rewrite E4 in Hrel. exact Hrel.
  - unfold update_this. cbn [this storage timeouts nextTimeoutID events].
    eexists (Ret tt), _, _, _. rewrite <- !app_assoc.
    split; [reflexivity|]. simpl. repeat split; try reflexivity.
    rewrite concat_app. simpl. rewrite !app_nil_r. reflexivity.
Qed.

End Shapes.

Section JsShapes.
Context {S : Type}.
Variable ls : LogStorage S.

(** The guarded collector asks for readiness even when nothing is
    queued, and then does nothing else. *)
Lemma js_flush_ready_idle (force reschedule : bool) (w : World S) :
  totalLen (this w) <= 0 ->
  fst (isReady ls (storage w)) = Ret true ->
  JsCollector._flush ls force reschedule w =
  finish reschedule
    (mkWorld (this w) (snd (isReady ls (storage w))) (timeouts w) (nextTimeoutID w)
       (events w ++ [CallIsReady (Ret true)])).
Proof.
  intros Hlen Hr. unfold JsCollector._flush, bind, try_catch, call_isReady, get_this, finish.
  destruct (isReady ls (storage w)) as [r s1]. simpl in *. subst r. simpl.
  destruct (0 <? totalLen (this w)) eqn:E; [apply Z.ltb_lt in E; lia|].
  reflexivity.
Qed.

(** Every call of [_flush] of the guarded collector reaches the
    reschedule step. It assigns none of the settings, and every entry of
    cache and queue is where it was or has moved on: from the queue to
    the cache or, with the cache, to the storage. *)
Lemma js_flush_shape (force reschedule : bool) (w : World S) :
  exists (c' : Collector) (s' : S) (evs : list Event),
    JsCollector._flush ls force reschedule w
    = finish reschedule
        (mkWorld c' s' (timeouts w) (nextTimeoutID w) (events w ++ evs))
    /\ same_settings (this w) c'
    /\ List.concat (store_calls evs) ++ List.concat (outputCache c') ++ queue c'
       = List.concat (outputCache (this w)) ++ queue (this w).
Proof.
  assert (Hcached : forall b : bool,
             same_settings (this w) (if b then cached (this w) else this w)
             /\ List.concat (outputCache (if b then cached (this w) else this w))
                ++ queue (if b then cached (this w) else this w)
                = List.concat (outputCache (this w)) ++ queue (this w)).
  { intros [|]; split; try apply same_settings_refl; try reflexivity.
    - repeat split.
    - simpl. rewrite concat_app. simpl. rewrite !app_nil_r. reflexivity. }
  destruct (isReady ls (storage w)) as [[[|]|e] s1] eqn:E1.
  - destruct (Z_lt_le_dec 0 (totalLen (this w))) as [Hpos|Hzero].
    + destruct (js_flush_ready ls force reschedule w Hpos) as (s' & evs & E & Hc).
      { rewrite E1. reflexivity. }
      eexists _, s', (CallIsReady (Ret true) :: evs). split; [exact E|].
      split; [repeat split|]. simpl. rewrite Hc, concat_app. simpl.
      rewrite !app_nil_r. reflexivity.
    + eexists _, _, _. split.
      { apply (js_flush_ready_idle force reschedule w Hzero). rewrite E1. reflexivity. }
      split; [apply same_settings_refl | reflexivity].
  - eexists _, _, _. split.
    { apply (js_flush_not_ready ls force reschedule w). rewrite E1. reflexivity. }
    destruct (Hcached ((0 <? totalLen (this w)) && force)) as [H1 H2].
    split; [exact H1 | exact H2].
  - eexists _, _, _. split.
    { apply (js_flush_isReady_raises ls force reschedule w e). rewrite E1. reflexivity. }
    destruct (Hcached ((0 <? totalLen (this w)) && force)) as [H1 H2].
    split; [exact H1 | exact H2].
Qed.

End JsShapes.

(* ================================================================== *)
(** * No message is lost and none is delivered twice *)

Lemma expand_app (g1 g2 : list (string * nat)) :
  expand (g1 ++ g2) = expand g1 ++ expand g2.
Proof.
  induction g1 as [|[t n] g1 IH]; simpl; [reflexivity|].
  rewrite IH, app_assoc. reflexivity.
Qed.

Lemma messages_of_app (l1 l2 : list LogEntry) :
  messages_of (l1 ++ l2) = messages_of l1 ++ messages_of l2.
Proof. unfold messages_of. rewrite map_app. apply expand_app. Qed.

Lemma expand_snoc_run (g : list (string * nat)) (t : string) :
  expand (snoc_run g t) = expand g ++ [t].
Proof.
  induction g as [|[a n] g IH]; [reflexivity|].
  destruct g as [|q g].
  - simpl. destruct (String.eqb_spec a t) as [E|E]; simpl.
    + subst. rewrite !app_nil_r, repeat_app. reflexivity.
    + rewrite !app_nil_r. reflexivity.
  - rewrite snoc_run_cons by discriminate.
    cbn [expand]. rewrite IH, app_assoc. reflexivity.
Qed.

(** The aggregation adds the message, once, behind the messages the
    queue stands for; a message that is absent or empty adds nothing. *)
Lemma aggregate_messages (c : Collector) (msg : option string) (stamp : JsValue) :
  messages_of (queue (aggregate c msg stamp))
  = messages_of (queue c)
    ++ match msg with
       | Some m => if truthy (JsString m) then [m] else []
       | None => []
       end.
Proof.
  destruct msg as [m|]; [|simpl; rewrite app_nil_r; reflexivity].
  destruct (truthy (JsString m)) eqn:Et.
  - unfold messages_of. rewrite aggregate_pairs by (apply truthy_string; exact Et).
    apply expand_snoc_run.
  - unfold aggregate. rewrite Et, app_nil_r. reflexivity.
Qed.

Lemma format_loop_ext (c c' : Collector) (args : list JsValue) :
  stringifyObjects c = stringifyObjects c' ->
  forall msg, JsCollector.format_loop c msg args = JsCollector.format_loop c' msg args.
Proof.
  intros H. induction args as [|arg rest IH]; intros msg; simpl; [reflexivity|].
  unfold JsCollector.append_arg. rewrite H. apply IH.
Qed.

Lemma js_logged_ext {S} (c c' : Collector) (op : Op S) :
  stringifyObjects c = stringifyObjects c' ->
  levelMethods c = levelMethods c' ->
  js_logged c op = js_logged c' op.
Proof.
  intros Hs Hl. destruct op; try reflexivity. simpl. rewrite Hl.
  destruct (Logger.get _ _); [|reflexivity].
  unfold JsCollector.formatLogMessage. rewrite (format_loop_ext c c' _ Hs).
  reflexivity.
Qed.

Lemma ts_logged_ext {S} (c c' : Collector) (op : Op S) :
  stringifyObjects c = stringifyObjects c' ->
  levelMethods c = levelMethods c' ->
  ts_logged c op = ts_logged c' op.
Proof.
  intros Hs Hl. destruct op; try reflexivity. simpl. unfold TsRun.formatted.
  cbn [fst snd]. rewrite Hl. destruct (Logger.get _ _); [|reflexivity].
  rewrite (ts_formatLogMessage_ext c c' _ Hs). reflexivity.
Qed.

Section NoLoss.
Context {S : Type}.
Variable ls : LogStorage S.

Lemma finish_settings (reschedule : bool) (w : World S) :
  stringifyObjects (this (snd (finish reschedule w))) = stringifyObjects (this w)
  /\ levelMethods (this (snd (finish reschedule w))) = levelMethods (this w)
  /\ storeInterval (this (snd (finish reschedule w))) = storeInterval (this w)
  /\ maxEntryLength (this (snd (finish reschedule w))) = maxEntryLength (this w).
Proof.
  unfold finish. destruct reschedule; [rewrite reschedule_returns|]; simpl; tauto.
Qed.

Lemma finish_all_entries (reschedule : bool) (w : World S) :
  all_entries (snd (finish reschedule w)) = all_entries w.
Proof.
  destruct (finish_kept reschedule w) as (_ & Hq & _ & Hc & He & _).
  unfold all_entries. rewrite Hq, Hc, He. reflexivity.
Qed.

(** A flush of the guarded collector moves entries on and neither drops
    nor repeats one, whatever the storage does. *)
Lemma js_flush_all_entries (force reschedule : bool) (w : World S) :
  all_entries (snd (JsCollector._flush ls force reschedule w)) = all_entries w
  /\ stringifyObjects (this (snd (JsCollector._flush ls force reschedule w)))
     = stringifyObjects (this w)
  /\ levelMethods (this (snd (JsCollector._flush ls force reschedule w)))
     = levelMethods (this w).
Proof.
  destruct (js_flush_shape ls force reschedule w) as (c' & s' & evs & E & Hs & Hc).
  rewrite E, finish_all_entries.
  match goal with |- context [finish reschedule ?w1] =>
    destruct (finish_settings reschedule w1) as (F1 & F2 & _) end.
  rewrite F1, F2. destruct Hs as (S1 & _ & _ & S4 & _).
  cbn [this]. repeat split; try assumption.
  unfold all_entries. cbn [this events].
  rewrite store_calls_app, concat_app, <- app_assoc, Hc. reflexivity.
Qed.

(** So does a flush of the TypeScript class that returns. *)
Lemma ts_flush_all_entries (force reschedule : bool) (w : World S) :
  (fst (TsCollector._flush ls force reschedule w) = Ret tt ->
   all_entries (snd (TsCollector._flush ls force reschedule w)) = all_entries w)
  /\ (reliable ls -> fst (TsCollector._flush ls force reschedule w) = Ret tt)
  /\ stringifyObjects (this (snd (TsCollector._flush ls force reschedule w)))
     = stringifyObjects (this w)
  /\ levelMethods (this (snd (TsCollector._flush ls force reschedule w)))
     = levelMethods (this w).
Proof.
  destruct (ts_flush_shape ls force reschedule w)
    as (r & c' & s' & evs & E & Hs & Hc & _ & Hrel).
  rewrite E. destruct Hs as (S1 & _ & _ & S4 & _).
  destruct r as [[]|e].
  - rewrite finish_all_entries.
    match goal with |- context [finish reschedule ?w1] =>
      destruct (finish_settings reschedule w1) as (F1 & F2 & _);
      destruct (finish_kept reschedule w1) as (F0 & _) end.
    rewrite F0, F1, F2. cbn [this]. repeat split; try assumption.
    intros _. unfold all_entries. cbn [this events].
    rewrite store_calls_app, concat_app, <- app_assoc, (Hc eq_refl). reflexivity.
  - cbn [fst snd this]. repeat split; try assumption; try discriminate.
    intros H. specialize (Hrel H). discriminate.
Qed.

Lemma js_call_level_unfold (w : World S) (methodName logLevel : string)
    (args : list JsValue) :
  Logger.get (levelMethods (this w)) methodName = Some logLevel ->
  let c1 := aggregate (this w)
              (JsCollector.formatLogMessage (this w) (JsString logLevel :: args))
              (nth 1 (JsString logLevel :: args) JsUndefined) in
  let w1 := mkWorld c1 (storage w) (timeouts w) (nextTimeoutID w) (events w) in
  JsCollector.call_level ls methodName args w
  = if maxEntryLength c1 <=? totalLen c1
    then JsCollector._flush ls true true w1
    else (Ret tt, w1).
Proof.
  intros Hm c1 w1. subst c1 w1.
  unfold JsCollector.call_level, bind at 1, get_this at 1. rewrite Hm.
  unfold JsCollector._log, bind, update_this, get_this. cbn [this].
  destruct (_ <=? _); reflexivity.
Qed.

Lemma call_level_unknown (w : World S) (methodName : string) (args : list JsValue) :
  Logger.get (levelMethods (this w)) methodName = None ->
  JsCollector.call_level ls methodName args w
  = (Throw (TypeError (methodName ++ " is not a function")), w)
  /\ TsCollector.call_level ls methodName args w
     = (Throw (TypeError (methodName ++ " is not a function")), w).
Proof.
  intros Hm. unfold JsCollector.call_level, TsCollector.call_level, bind, get_this.
  rewrite Hm. split; reflexivity.
Qed.

Lemma js_op_step (op : Op S) (w : World S) :
  messages_of (all_entries (snd (JsRun.run_op ls op w)))
  = messages_of (all_entries w) ++ js_logged (this w) op
  /\ stringifyObjects (this (snd (JsRun.run_op ls op w))) = stringifyObjects (this w)
  /\ levelMethods (this (snd (JsRun.run_op ls op w))) = levelMethods (this w).
Proof.
  destruct op as [m args| | | |force reschedule|id|s]; cbn [JsRun.run_op js_logged];
    rewrite ?app_nil_r.
  - destruct (Logger.get (levelMethods (this w)) m) as [k|] eqn:Hm.
    2:{ rewrite (proj1 (call_level_unknown w m args Hm)), app_nil_r. auto. }
    rewrite (js_call_level_unfold w m k args Hm).
    set (c1 := aggregate (this w) _ _).
    set (w1 := mkWorld c1 (storage w) (timeouts w) (nextTimeoutID w) (events w)).
    assert (H1 : messages_of (all_entries w1)
                 = messages_of (all_entries w)
                   ++ match JsCollector.formatLogMessage (this w) (JsString k :: args) with
                      | Some msg => if truthy (JsString msg) then [msg] else []
                      | None => []
                      end).
    { unfold all_entries, w1, c1. cbn [this events].
      match goal with |- context [aggregate ?c ?mm ?t] =>
        destruct (aggregate_frame c mm t) as (_ & _ & _ & _ & _ & Hcache);
        pose proof (aggregate_messages c mm t) as Hm' end.
      rewrite Hcache, !messages_of_app, Hm', <- !app_assoc. reflexivity. }
    assert (H2 : stringifyObjects c1 = stringifyObjects (this w)
                 /\ levelMethods c1 = levelMethods (this w)).
    { unfold c1. match goal with |- context [aggregate ?c ?mm ?t] =>
        pose proof (aggregate_frame c mm t) end. tauto. }
    destruct (maxEntryLength c1 <=? totalLen c1).
    + destruct (js_flush_all_entries true true w1) as (A & B & C).
      rewrite A, B, C, H1. cbn [this]. tauto.
    + cbn [snd]. rewrite H1. cbn [this]. tauto.
  - unfold JsCollector.start. fold (finish (S := S) true).
    rewrite finish_all_entries. destruct (finish_settings true w). tauto.
  - unfold JsCollector.flush. destruct (js_flush_all_entries false true w) as (A & B & C).
    rewrite A. auto.
  - unfold JsCollector.stop. destruct (js_flush_all_entries false false w) as (A & B & C).
    rewrite A. auto.
  - destruct (js_flush_all_entries force reschedule w) as (A & B & C).
    rewrite A. auto.
  - unfold JsCollector.timeout_expires. destruct (pending id w); [|auto].
    destruct (js_flush_all_entries false true (expire id w)) as (A & B & C).
    rewrite A. auto.
  - auto.
Qed.

Lemma js_run_messages (ops : list (Op S)) :
  forall w : World S,
    messages_of (all_entries (JsRun.run ls ops w))
    = messages_of (all_entries w) ++ flat_map (js_logged (this w)) ops.
Proof.
  induction ops as [|op ops IH]; intros w.
  - simpl. rewrite app_nil_r. reflexivity.
  - unfold JsRun.run in *. cbn [fold_left flat_map].
    destruct (js_op_step op w) as (A & B & C).
    rewrite IH, A, <- app_assoc. f_equal. f_equal.
    apply flat_map_ext. intros op'. apply js_logged_ext; assumption.
Qed.

End NoLoss.

Section TsNoLoss.
Context {S : Type}.
Variable ls : LogStorage S.
Hypothesis storage_reliable : reliable ls.

Lemma ts_flush_all_entries_reliable (force reschedule : bool) (w : World S) :
  all_entries (snd (TsCollector._flush ls force reschedule w)) = all_entries w
  /\ stringifyObjects (this (snd (TsCollector._flush ls force reschedule w)))
     = stringifyObjects (this w)
  /\ levelMethods (this (snd (TsCollector._flush ls force reschedule w)))
     = levelMethods (this w).
Proof.
  destruct (ts_flush_all_entries ls force reschedule w) as (A & B & C & D).
  repeat split; auto.
Qed.

Lemma ts_op_step (op : Op S) (w : World S) :
  messages_of (all_entries (snd (TsRun.run_op ls op w)))
  = messages_of (all_entries w) ++ ts_logged (this w) op
  /\ stringifyObjects (this (snd (TsRun.run_op ls op w))) = stringifyObjects (this w)
  /\ levelMethods (this (snd (TsRun.run_op ls op w))) = levelMethods (this w).
Proof.
  destruct op as [m args| | | |force reschedule|id|s]; cbn [TsRun.run_op ts_logged];
    rewrite ?app_nil_r.
  - destruct (Logger.get (levelMethods (this w)) m) as [k|] eqn:Hm.
    2:{ rewrite (proj2 (call_level_unknown ls w m args Hm)).
        unfold TsRun.formatted. cbn [fst snd]. rewrite Hm, app_nil_r. auto. }
    rewrite (ts_call_level_unfold S ls w m k args Hm).
    set (c1 := TsRun.aggregated (this w) (m, args)).
    set (w1 := mkWorld c1 (storage w) (timeouts w) (nextTimeoutID w) (events w)).
    assert (H1 : messages_of (all_entries w1)
                 = messages_of (all_entries w)
                   ++ match TsRun.formatted (this w) (m, args) with
                      | Some msg => [msg]
                      | None => []
                      end).
    { unfold all_entries, w1, c1, TsRun.aggregated, TsRun.formatted.
      cbn [this events fst snd]. rewrite Hm.
      match goal with |- context [aggregate ?c ?mm ?t] =>
        destruct (aggregate_frame c mm t) as (_ & _ & _ & _ & _ & Hcache);
        pose proof (aggregate_messages c mm t) as Hm' end.
      rewrite Hcache, !messages_of_app, Hm', <- !app_assoc.
      destruct (TsCollector.formatLogMessage _ _) as [msg|]; [|reflexivity].
      destruct (truthy (JsString msg)); reflexivity. }
    assert (H2 : stringifyObjects c1 = stringifyObjects (this w)
                 /\ levelMethods c1 = levelMethods (this w)).
    { destruct (aggregated_frame (this w) (m, args)) as (A & _ & C). auto. }
    destruct (maxEntryLength c1 <=? totalLen c1).
    + destruct (ts_flush_all_entries_reliable true true w1) as (A & B & C).
      rewrite A, B, C, H1. cbn [this]. tauto.
    + cbn [snd]. rewrite H1. cbn [this]. tauto.
  - unfold TsCollector.start. fold (finish (S := S) true).
    rewrite finish_all_entries. destruct (finish_settings true w). tauto.
  - unfold TsCollector.flush.
    destruct (ts_flush_all_entries_reliable false true w) as (A & B & C).
    rewrite A. auto.
  - unfold TsCollector.stop.
    destruct (ts_flush_all_entries_reliable false false w) as (A & B & C).
    rewrite A. auto.
  - destruct (ts_flush_all_entries_reliable force reschedule w) as (A & B & C).
    rewrite A. auto.
  - unfold TsCollector.timeout_expires. destruct (pending id w); [|auto].
    destruct (ts_flush_all_entries_reliable false true (expire id w)) as (A & B & C).
    rewrite A. auto.
  - auto.
Qed.

Lemma ts_run_messages (ops : list (Op S)) :
  forall w : World S,
    messages_of (all_entries (TsRun.run ls ops w))
    = messages_of (all_entries w) ++ flat_map (ts_logged (this w)) ops.
Proof.
  induction ops as [|op ops IH]; intros w.
  - simpl. rewrite app_nil_r. reflexivity.
  - unfold TsRun.run in *. cbn [fold_left flat_map].
    destruct (ts_op_step op w) as (A & B & C).
    rewrite IH, A, <- app_assoc. f_equal. f_equal.
    apply flat_map_ext. intros op'. apply ts_logged_ext; assumption.
Qed.

End TsNoLoss.

(** X1: whatever is done to a guarded collector after its construction,
    and whatever its storage does, the messages handed to the storage,
    then those in the cache, then those in the queue are exactly the
    non-empty messages submitted, in the order of submission, each as
    often as it was submitted. A store call that raised counts as
    handed over: its batch is not sent again. *)
Theorem js_no_message_lost_or_repeated :
  forall (S : Type) (ls : LogStorage S) (options : option Options) (s : S)
         (ops : list (Op S)),
    messages_of
      (all_entries (JsRun.run ls ops (new_world (JsCollector.constructor options) s)))
    = flat_map (js_logged (JsCollector.constructor options)) ops.
Proof.
  intros S ls options s ops. rewrite js_run_messages. reflexivity.
Qed.

(** X2: the same for the TypeScript class, with a storage that never
    raises. *)
Theorem ts_no_message_lost_or_repeated :
  forall (S : Type) (ls : LogStorage S) (options : option Options) (s : S)
         (ops : list (Op S)),
    reliable ls ->
    messages_of
      (all_entries (TsRun.run ls ops (new_world (TsCollector.constructor options) s)))
    = flat_map (ts_logged (TsCollector.constructor options)) ops.
Proof.
  intros S ls options s ops Hrel. rewrite (ts_run_messages ls Hrel). reflexivity.
Qed.

Lemma ts_no_message_lost_or_repeated_witness :
  messages_of
    (all_entries
       (TsRun.run (plain_storage false)
          (map (fun sub => OpLevel (fst sub) (snd sub)) backlog
           ++ [OpStorage tt; OpFlush; OpLevel "warn" [stamp1; JsString "e"]])
          (new_world (TsCollector.constructor (Some (mkOptions (Some 50) None None))) tt)))
  = [ "2024-01-01T00:00:00.000Z,a"; "2024-01-01T00:00:00.000Z,b";
      "2024-01-01T00:00:00.000Z,c"; "2024-01-01T00:00:00.000Z,d";
      "2024-01-01T00:00:00.000Z,e"; "2024-01-01T00:00:00.000Z,e" ].
Proof.
  refine (ts_no_message_lost_or_repeated unit (plain_storage false) _ tt _ _).
  split; intros; reflexivity.
Defined.

(* ================================================================== *)
(** * The timeouts *)

Section Timeouts.
Context {S : Type}.
Variable ls : LogStorage S.

(** [one_timeout] looks at the timeouts, the next identifier and two
    fields of the collector only. *)
Lemma one_timeout_ext (w w' : World S) :
  timeouts w' = timeouts w ->
  nextTimeoutID w' = nextTimeoutID w ->
  storeLogsIntervalID (this w') = storeLogsIntervalID (this w) ->
  storeInterval (this w') = storeInterval (this w) ->
  one_timeout w -> one_timeout w'.
Proof.
  unfold one_timeout. intros Ht Hn Hi Hs. rewrite Ht, Hn, Hi, Hs. tauto.
Qed.

Lemma reschedule_one_timeout (w : World S) :
  one_timeout w ->
  timeouts (snd (_reschedulePublishInterval w))
  = [(nextTimeoutID w, storeInterval (this w))]
  /\ storeLogsIntervalID (this (snd (_reschedulePublishInterval w)))
     = Some (nextTimeoutID w)
  /\ one_timeout (snd (_reschedulePublishInterval w)).
Proof.
  intros [Hts Hn]. rewrite reschedule_returns. cbn [snd this timeouts].
  assert (Hcleared :
            match storeLogsIntervalID (this w) with
            | Some id =>
                if negb (Nat.eqb id 0)
                then filter (fun t => negb (Nat.eqb (fst t) id)) (timeouts w)
                else timeouts w
            | None => timeouts w
            end = []).
  { destruct Hts as [Hts|(id & Hts & Hid & Hne & Hlt)].
    - rewrite Hts. destruct (storeLogsIntervalID (this w)) as [id|]; [|reflexivity].
      destruct (negb (Nat.eqb id 0)); reflexivity.
    - rewrite Hts, Hid. apply Nat.eqb_neq in Hne. rewrite Hne. simpl.
      rewrite Nat.eqb_refl. reflexivity. }
  rewrite Hcleared. simpl. repeat split; try lia.
  right. exists (nextTimeoutID w). simpl. repeat split; try lia.
  simpl. lia.
Qed.

Lemma finish_one_timeout (reschedule : bool) (w : World S) :
  one_timeout w -> one_timeout (snd (finish reschedule w)).
Proof.
  intros H. unfold finish. destruct reschedule; [|exact H].
  apply reschedule_one_timeout. exact H.
Qed.

Lemma expire_one_timeout (id : nat) (w : World S) :
  one_timeout w -> one_timeout (expire id w).
Proof.
  intros [Hts Hn]. split; [|exact Hn]. unfold expire. cbn [timeouts this nextTimeoutID].
  destruct Hts as [Hts|(id' & Hts & Hid & Hne & Hlt)].
  - left. rewrite Hts. reflexivity.
  - rewrite Hts. simpl. destruct (negb (Nat.eqb id' id)); [|left; reflexivity].
    right. exists id'. auto.
Qed.

Lemma ts_flush_one_timeout (force reschedule : bool) (w : World S) :
  one_timeout w -> one_timeout (snd (TsCollector._flush ls force reschedule w)).
Proof.
  intros H.
  destruct (ts_flush_shape ls force reschedule w)
    as (r & c' & s' & evs & E & (_ & Hsi & _ & _ & Hid) & _).
  rewrite E.
  assert (H1 : one_timeout
                 (mkWorld c' s' (timeouts w) (nextTimeoutID w) (events w ++ evs)))
    by (apply (one_timeout_ext w); auto).
  destruct r as [[]|e]; [apply finish_one_timeout|]; exact H1.
Qed.

Lemma js_flush_one_timeout (force reschedule : bool) (w : World S) :
  one_timeout w -> one_timeout (snd (JsCollector._flush ls force reschedule w)).
Proof.
  intros H.
  destruct (js_flush_shape ls force reschedule w)
    as (c' & s' & evs & E & (_ & Hsi & _ & _ & Hid) & _).
  rewrite E. apply finish_one_timeout. apply (one_timeout_ext w); auto.
Qed.

Lemma aggregate_one_timeout (w : World S) (msg : option string) (stamp : JsValue) :
  one_timeout w ->
  one_timeout (mkWorld (aggregate (this w) msg stamp) (storage w) (timeouts w)
                 (nextTimeoutID w) (events w)).
Proof.
  destruct (aggregate_frame (this w) msg stamp) as (_ & Hsi & _ & _ & Hid & _).
  apply one_timeout_ext; auto.
Qed.

Lemma ts_op_one_timeout (op : Op S) (w : World S) :
  one_timeout w -> one_timeout (snd (TsRun.run_op ls op w)).
Proof.
  intros H. destruct op as [m args| | | |force reschedule|id|s]; cbn [TsRun.run_op].
  - destruct (Logger.get (levelMethods (this w)) m) as [k|] eqn:Hm.
    2:{ rewrite (proj2 (call_level_unknown ls w m args Hm)). exact H. }
    rewrite (ts_call_level_unfold S ls w m k args Hm).
    unfold TsRun.aggregated. cbn [fst snd]. rewrite Hm.
    destruct (_ <=? _); [apply ts_flush_one_timeout|];
      apply aggregate_one_timeout; exact H.
  - apply reschedule_one_timeout. exact H.
  - apply ts_flush_one_timeout. exact H.
  - apply ts_flush_one_timeout. exact H.
  - apply ts_flush_one_timeout. exact H.
  - unfold TsCollector.timeout_expires. destruct (pending id w); [|exact H].
    apply ts_flush_one_timeout, expire_one_timeout. exact H.
  - exact H.
Qed.

Lemma js_op_one_timeout (op : Op S) (w : World S) :
  one_timeout w -> one_timeout (snd (JsRun.run_op ls op w)).
Proof.
  intros H. destruct op as [m args| | | |force reschedule|id|s]; cbn [JsRun.run_op].
  - destruct (Logger.get (levelMethods (this w)) m) as [k|] eqn:Hm.
    2:{ rewrite (proj1 (call_level_unknown ls w m args Hm)). exact H. }
    rewrite (js_call_level_unfold ls w m k args Hm).
    destruct (_ <=? _); [apply js_flush_one_timeout|];
      apply aggregate_one_timeout; exact H.
  - apply reschedule_one_timeout. exact H.
  - apply js_flush_one_timeout. exact H.
  - apply js_flush_one_timeout. exact H.
  - apply js_flush_one_timeout. exact H.
  - unfold JsCollector.timeout_expires. destruct (pending id w); [|exact H].
    apply js_flush_one_timeout, expire_one_timeout. exact H.
  - exact H.
Qed.

End Timeouts.

(** X3: a collector never has two timeouts pending. In every state it
    reaches from its construction, in either file, the list of pending
    timeouts is empty or holds the single timeout whose identifier is in
    [storeLogsIntervalID], set for [storeInterval]. *)
Theorem at_most_one_timeout_pending :
  forall (S : Type) (ls : LogStorage S) (options : option Options) (s : S)
         (ops : list (Op S)),
    one_timeout (TsRun.run ls ops (new_world (TsCollector.constructor options) s))
    /\ one_timeout (JsRun.run ls ops (new_world (JsCollector.constructor options) s)).
Proof.
  intros S ls options s ops. split.
  - assert (H : one_timeout (new_world (TsCollector.constructor options) s))
      by (split; [left; reflexivity | simpl; lia]).
    revert H. generalize (new_world (TsCollector.constructor options) s).
    induction ops as [|op ops IH]; intros w H; [exact H|].
    unfold TsRun.run in *. simpl. apply IH, ts_op_one_timeout, H.
  - assert (H : one_timeout (new_world (JsCollector.constructor options) s))
      by (split; [left; reflexivity | simpl; lia]).
    revert H. generalize (new_world (JsCollector.constructor options) s).
    induction ops as [|op ops IH]; intros w H; [exact H|].
    unfold JsRun.run in *. simpl. apply IH, js_op_one_timeout, H.
Qed.

(** X4: [stop()] sets no timeout and clears none, in either file and
    whatever the storage does: the pending timeouts, the next
    identifier and [storeLogsIntervalID] are after the call what they
    were before it. A timeout that [start()] or a flush has set is still
    pending after [stop()]. *)
Theorem stop_leaves_timeouts_pending :
  forall (S : Type) (ls : LogStorage S) (w : World S),
    (timeouts (snd (TsCollector.stop ls w)) = timeouts w
     /\ nextTimeoutID (snd (TsCollector.stop ls w)) = nextTimeoutID w
     /\ storeLogsIntervalID (this (snd (TsCollector.stop ls w)))
        = storeLogsIntervalID (this w))
    /\ (timeouts (snd (JsCollector.stop ls w)) = timeouts w
        /\ nextTimeoutID (snd (JsCollector.stop ls w)) = nextTimeoutID w
        /\ storeLogsIntervalID (this (snd (JsCollector.stop ls w)))
           = storeLogsIntervalID (this w)).
Proof.
  intros S ls w. split.
  - unfold TsCollector.stop.
    destruct (ts_flush_shape ls false false w)
      as (r & c' & s' & evs & E & (_ & _ & _ & _ & Hid) & _).
    rewrite E. destruct r as [[]|e]; simpl; auto.
  - unfold JsCollector.stop.
    destruct (js_flush_shape ls false false w)
      as (c' & s' & evs & E & (_ & _ & _ & _ & Hid) & _).
    rewrite E. simpl. auto.
Qed.

(** X5: a flush that asks to reschedule and returns leaves exactly one
    timeout pending, a new one over [storeInterval], in place of
    whatever was pending; the guarded collector's flush always
    returns. This covers [flush()], the expiry of a timeout and the
    size-triggered flush. *)
Theorem flush_rearms_one_timeout :
  forall (S : Type) (ls : LogStorage S) (force : bool) (w : World S),
    one_timeout w ->
    (fst (TsCollector._flush ls force true w) = Ret tt ->
     timeouts (snd (TsCollector._flush ls force true w))
     = [(nextTimeoutID w, storeInterval (this w))]
     /\ storeLogsIntervalID (this (snd (TsCollector._flush ls force true w)))
        = Some (nextTimeoutID w))
    /\ fst (JsCollector._flush ls force true w) = Ret tt
    /\ timeouts (snd (JsCollector._flush ls force true w))
       = [(nextTimeoutID w, storeInterval (this w))]
    /\ storeLogsIntervalID (this (snd (JsCollector._flush ls force true w)))
       = Some (nextTimeoutID w).
Proof.
  intros S ls force w H. split.
  - destruct (ts_flush_shape ls force true w)
      as (r & c' & s' & evs & E & (_ & Hsi & _ & _ & Hid) & _).
    rewrite E. destruct r as [[]|e]; [|cbn; discriminate]. intros _.
    match goal with |- context [finish true ?w1] =>
      assert (H1 : one_timeout w1) by (apply (one_timeout_ext w); auto);
      destruct (reschedule_one_timeout w1 H1) as (A & B & _) end.
    unfold finish. rewrite A, B. cbn [this nextTimeoutID]. rewrite Hsi. auto.
  - destruct (js_flush_shape ls force true w)
      as (c' & s' & evs & E & (_ & Hsi & _ & _ & Hid) & _).
    rewrite E.
    match goal with |- context [finish true ?w1] =>
      assert (H1 : one_timeout w1) by (apply (one_timeout_ext w); auto);
      destruct (reschedule_one_timeout w1 H1) as (A & B & _);
      destruct (finish_kept true w1) as (F & _) end.
    rewrite F. unfold finish. rewrite A, B. cbn [this nextTimeoutID]. rewrite Hsi. auto.
Qed.

Lemma flush_rearms_one_timeout_witness :
  timeouts (snd (TsCollector._flush (plain_storage true) false true backlog_world))
  = [(3%nat, 30000)]
  /\ storeLogsIntervalID
       (this (snd (TsCollector._flush (plain_storage true) false true backlog_world)))
     = Some 3%nat.
Proof.
  refine (proj1 (flush_rearms_one_timeout unit (plain_storage true) false
                   backlog_world _) _).
  - vm_compute. split; [right; exists 2%nat; repeat split; try lia; discriminate | lia].
  - vm_compute. reflexivity.
Defined.

(* ================================================================== *)
(** * Flushes and submissions that have nothing to do *)

(** X6: a flush with an empty queue sends nothing, even to a storage
    that is ready while batches wait in the cache: the cache stays as it
    is and no store call is made. The TypeScript class does not even ask
    for readiness; the guarded collector asks once. *)
Theorem flush_of_empty_queue_leaves_cache :
  forall (S : Type) (ls : LogStorage S) (force reschedule : bool) (w : World S),
    collector_ok (this w) ->
    queue (this w) = [] ->
    (fst (TsCollector._flush ls force reschedule w) = Ret tt
     /\ events (snd (TsCollector._flush ls force reschedule w)) = events w
     /\ storage (snd (TsCollector._flush ls force reschedule w)) = storage w
     /\ outputCache (this (snd (TsCollector._flush ls force reschedule w)))
        = outputCache (this w))
    /\ (fst (JsCollector._flush ls force reschedule w) = Ret tt
        /\ store_calls (events (snd (JsCollector._flush ls force reschedule w)))
           = store_calls (events w)
        /\ outputCache (this (snd (JsCollector._flush ls force reschedule w)))
           = outputCache (this w)).
Proof.
  intros S ls force reschedule w Hok Hq.
  assert (Hlen : totalLen (this w) = 0) by (apply collector_ok_zero; assumption).
  split.
  - rewrite (ts_flush_idle ls force reschedule w) by lia.
    destruct (finish_kept reschedule w) as (A & _ & _ & B & C & D). auto.
  - assert (Hno : (0 <? totalLen (this w)) && force = false)
      by (rewrite Hlen; reflexivity).
    destruct (isReady ls (storage w)) as [[[|]|e] s1] eqn:E1.
    + rewrite (js_flush_ready_idle ls force reschedule w) by (rewrite ?E1; auto; lia).
      match goal with |- context [finish reschedule ?w1] =>
        destruct (finish_kept reschedule w1) as (A & _ & _ & B & C & _) end.
      rewrite A, B, C. cbn [this events]. rewrite store_calls_app. simpl.
      rewrite app_nil_r. auto.
    + rewrite (js_flush_not_ready ls force reschedule w) by (rewrite E1; auto).
      rewrite Hno.
      match goal with |- context [finish reschedule ?w1] =>
        destruct (finish_kept reschedule w1) as (A & _ & _ & B & C & _) end.
      rewrite A, B, C. cbn [this events]. rewrite store_calls_app. simpl.
      rewrite app_nil_r. auto.
    + rewrite (js_flush_isReady_raises ls force reschedule w e) by (rewrite E1; auto).
      rewrite Hno.
      match goal with |- context [finish reschedule ?w1] =>
        destruct (finish_kept reschedule w1) as (A & _ & _ & B & C & _) end.
      rewrite A, B, C. cbn [this events]. rewrite store_calls_app. simpl.
      rewrite app_nil_r. auto.
Qed.

Lemma flush_of_empty_queue_leaves_cache_witness :
  let w := snd (TsCollector._flush (plain_storage false) true false hello_world) in
  outputCache (this w) = [[ts_line "hello"]]
  /\ fst (TsCollector._flush (plain_storage true) false true w) = Ret tt
  /\ events (snd (TsCollector._flush (plain_storage true) false true w)) = events w
  /\ storage (snd (TsCollector._flush (plain_storage true) false true w)) = storage w
  /\ outputCache (this (snd (TsCollector._flush (plain_storage true) false true w)))
     = outputCache (this w).
Proof.
  intros w. split; [vm_compute; reflexivity|].
  refine (proj1 (flush_of_empty_queue_leaves_cache unit (plain_storage true) false true
                   w _ _)).
  - vm_compute. split; [reflexivity | constructor].
  - vm_compute. reflexivity.
Defined.

(** X7: a submission whose message is [null] or the empty text, below
    the size threshold, does nothing at all: the call returns and the
    collector, the storage, the timeouts and the calls made are as
    before. In both files. *)
Theorem empty_message_changes_nothing :
  forall (S : Type) (ls : LogStorage S) (w : World S)
         (methodName logLevel : string) (args : list JsValue),
    Logger.get (levelMethods (this w)) methodName = Some logLevel ->
    totalLen (this w) < maxEntryLength (this w) ->
    (TsRun.formatted (this w) (methodName, args) = None ->
     TsCollector.call_level ls methodName args w = (Ret tt, w))
    /\ (JsCollector.formatLogMessage (this w) (JsString logLevel :: args) = None ->
        JsCollector.call_level ls methodName args w = (Ret tt, w)).
Proof.
  intros S ls w m k args Hm Hlt. apply Z.leb_gt in Hlt. split; intros Hf.
  - rewrite (ts_call_level_unfold S ls w m k args Hm).
    assert (Hc : TsRun.aggregated (this w) (m, args) = this w).
    { unfold TsRun.aggregated, TsRun.formatted in *. cbn [fst snd] in *.
      rewrite Hm in *. unfold aggregate.
      destruct (TsCollector.formatLogMessage _ _) as [msg|]; [|reflexivity].
      destruct (truthy (JsString msg)); [discriminate | reflexivity]. }
    rewrite Hc, Hlt. destruct w; reflexivity.
  - rewrite (js_call_level_unfold ls w m k args Hm), Hf.
    cbn [aggregate]. rewrite Hlt. destruct w; reflexivity.
Qed.

Lemma empty_message_changes_nothing_witness :
  TsCollector.call_level (plain_storage true) "info" [JsString ""; JsNull] hello_world
  = (Ret tt, hello_world).
Proof.
  refine (proj1 (empty_message_changes_nothing unit (plain_storage true) hello_world
                   "info" "INFO" [JsString ""; JsNull] _ _) _).
  - vm_compute. reflexivity.
  - vm_compute. reflexivity.
  - vm_compute. reflexivity.
Defined.

(* ================================================================== *)
(** * What a logging call can raise *)

(** What a per-level method does when [formatLogMessage] is the object's
    method: nothing when the formatter raises, and otherwise the
    aggregation and the size check. *)
Lemma js_with_formatter_unfold (S : Type) (ls : LogStorage S)
    (format : Collector -> list JsValue -> Outcome (option string)) (w : World S)
    (methodName logLevel : string) (args : list JsValue) :
  Logger.get (levelMethods (this w)) methodName = Some logLevel ->
  JsWithFormatter.call_level ls format methodName args w
  = match format (this w) (JsString logLevel :: args) with
    | Throw e => (Throw e, w)
    | Ret msg =>
        let c1 := aggregate (this w) msg (nth 1 (JsString logLevel :: args) JsUndefined) in
        let w1 := mkWorld c1 (storage w) (timeouts w) (nextTimeoutID w) (events w) in
        if maxEntryLength c1 <=? totalLen c1
        then JsCollector._flush ls true true w1
        else (Ret tt, w1)
    end.
Proof.
  intros Hm. unfold JsWithFormatter.call_level, bind at 1, get_this at 1. rewrite Hm.
  unfold JsWithFormatter._log, bind, lift, update_this, get_this. cbn [this].
  destruct (format (this w) (JsString logLevel :: args)) as [msg|e]; [|reflexivity].
  cbn zeta. destruct (_ <=? _); reflexivity.
Qed.

Lemma ts_with_formatter_unfold (S : Type) (ls : LogStorage S)
    (format : Collector -> list JsValue -> Outcome (option string)) (w : World S)
    (methodName logLevel : string) (args : list JsValue) :
  Logger.get (levelMethods (this w)) methodName = Some logLevel ->
  TsWithFormatter.call_level ls format methodName args w
  = match format (this w) (JsString logLevel :: args) with
    | Throw e => (Throw e, w)
    | Ret msg =>
        let c1 := aggregate (this w) msg (nth 1 (JsString logLevel :: args) JsUndefined) in
        let w1 := mkWorld c1 (storage w) (timeouts w) (nextTimeoutID w) (events w) in
        if maxEntryLength c1 <=? totalLen c1
        then TsCollector._flush ls true true w1
        else (Ret tt, w1)
    end.
Proof.
  intros Hm. unfold TsWithFormatter.call_level, bind at 1, get_this at 1. rewrite Hm.
  unfold TsWithFormatter._log, bind, lift, update_this, get_this. cbn [this].
  destruct (format (this w) (JsString logLevel :: args)) as [msg|e]; [|reflexivity].
  cbn zeta. destruct (_ <=? _); reflexivity.
Qed.

(** With the class's own formatter these are the per-level methods of
    the two classes. *)
Lemma with_own_formatter (S : Type) (ls : LogStorage S) (w : World S)
    (methodName : string) (args : list JsValue) :
  JsWithFormatter.call_level ls js_formatter methodName args w
  = JsCollector.call_level ls methodName args w
  /\ TsWithFormatter.call_level ls ts_formatter methodName args w
     = TsCollector.call_level ls methodName args w.
Proof.
  destruct (Logger.get (levelMethods (this w)) methodName) as [k|] eqn:Hm.
  - rewrite (js_with_formatter_unfold S ls js_formatter w methodName k args Hm),
      (ts_with_formatter_unfold S ls ts_formatter w methodName k args Hm),
      (js_call_level_unfold ls w methodName k args Hm),
      (ts_call_level_unfold S ls w methodName k args Hm).
    unfold js_formatter, ts_formatter, TsRun.aggregated. cbn [fst snd]. rewrite Hm.
    split; reflexivity.
  - rewrite (proj1 (call_level_unknown ls w methodName args Hm)),
      (proj2 (call_level_unknown ls w methodName args Hm)).
    unfold JsWithFormatter.call_level, TsWithFormatter.call_level, bind, get_this.
    rewrite Hm. split; reflexivity.
Qed.

Lemma js_with_formatter_returns (S : Type) (ls : LogStorage S)
    (format : Collector -> list JsValue -> Outcome (option string)) (w : World S)
    (methodName logLevel : string) (args : list JsValue) :
  Logger.get (levelMethods (this w)) methodName = Some logLevel ->
  returned (format (this w) (JsString logLevel :: args)) = true ->
  fst (JsWithFormatter.call_level ls format methodName args w) = Ret tt
  /\ levelMethods (this (snd (JsWithFormatter.call_level ls format methodName args w)))
     = levelMethods (this w).
Proof.
  intros Hm Hf. rewrite (js_with_formatter_unfold S ls format w methodName logLevel args Hm).
  destruct (format (this w) (JsString logLevel :: args)) as [msg|e]; [|discriminate].
  cbn zeta.
  pose proof (aggregate_frame (this w) msg (nth 1 (JsString logLevel :: args) JsUndefined))
    as (_ & _ & _ & Hl & _).
  destruct (_ <=? _); [|split; [reflexivity | exact Hl]].
  match goal with |- context [JsCollector._flush ls true true ?w1] =>
    pose proof (js_flush_never_raises ls true true w1) as H;
    destruct (js_flush_all_entries ls true true w1) as (_ & _ & Hk);
    destruct (JsCollector._flush ls true true w1) as [[[]|e] w2] end.
  - split; [reflexivity|]. cbn [snd this] in *. rewrite Hk. exact Hl.
  - discriminate.
Qed.

(** X8: a per-level method raises what [formatLogMessage] raises, and
    then before anything is queued, sent or scheduled: the state is as
    it was. When the formatter returns, the method of the guarded
    collector returns whatever the storage does, and the method of the
    TypeScript class returns whenever the storage does not raise. With
    the class's own formatter, on arguments whose conversion to text
    returns, these are [JsCollector.call_level] and
    [TsCollector.call_level]. *)
Theorem level_method_raises_as_formatter_or_storage_does :
  forall (S : Type) (ls : LogStorage S)
         (format : Collector -> list JsValue -> Outcome (option string))
         (w : World S) (methodName logLevel : string) (args : list JsValue),
    Logger.get (levelMethods (this w)) methodName = Some logLevel ->
    let js := JsWithFormatter.call_level ls format methodName args w in
    let ts := TsWithFormatter.call_level ls format methodName args w in
    (forall e, format (this w) (JsString logLevel :: args) = Throw e ->
               js = (Throw e, w) /\ ts = (Throw e, w))
    /\ (returned (format (this w) (JsString logLevel :: args)) = true ->
        fst js = Ret tt /\ (reliable ls -> fst ts = Ret tt))
    /\ JsWithFormatter.call_level ls js_formatter methodName args w
       = JsCollector.call_level ls methodName args w
    /\ TsWithFormatter.call_level ls ts_formatter methodName args w
       = TsCollector.call_level ls methodName args w.
Proof.
  intros S ls format w m k args Hm js ts. subst js ts.
  split; [|split; [|apply with_own_formatter]].
  - intros e He.
    rewrite (js_with_formatter_unfold S ls format w m k args Hm),
      (ts_with_formatter_unfold S ls format w m k args Hm), He.
    split; reflexivity.
  - intros Hf. split.
    + apply (js_with_formatter_returns S ls format w m k args Hm Hf).
    + intros Hrel. rewrite (ts_with_formatter_unfold S ls format w m k args Hm).
      destruct (format (this w) (JsString k :: args)) as [msg|e]; [|discriminate].
      cbn zeta. destruct (_ <=? _); [|reflexivity].
      match goal with |- fst (TsCollector._flush ls true true ?w1) = _ =>
        destruct (ts_flush_all_entries ls true true w1) as (_ & H & _) end.
      exact (H Hrel).
Qed.

Lemma level_method_raises_as_formatter_or_storage_does_witness :
  fst (JsCollector.call_level failing_storage "log" [stamp1; JsString "f"]
         js_backlog_world)
  = Ret tt
  /\ JsWithFormatter.call_level failing_storage symbol_formatter "log"
       [stamp1; JsString "f"] js_backlog_world
     = (Throw (TypeError "Cannot convert a Symbol value to a string"), js_backlog_world).
Proof.
  split.
  - destruct (level_method_raises_as_formatter_or_storage_does unit failing_storage
                js_formatter js_backlog_world "log" "log" [stamp1; JsString "f"] eq_refl)
      as (_ & Hret & Hjs & _).
    rewrite <- Hjs. exact (proj1 (Hret eq_refl)).
  - destruct (level_method_raises_as_formatter_or_storage_does unit failing_storage
                symbol_formatter js_backlog_world "log" "log" [stamp1; JsString "f"]
                eq_refl)
      as (Hthrow & _).
    exact (proj1 (Hthrow _ eq_refl)).
Defined.

(* ================================================================== *)
(** * The invariant of the queue's length, in the guarded collector *)

Lemma keeps_js_run (S : Type) (ls : LogStorage S) (P : Collector -> Prop) :
  (forall c v, P c -> P (set_outputCache c v)) ->
  (forall c v, P c -> P (set_storeLogsIntervalID c v)) ->
  (forall c, P (set_totalLen (set_queue c []) 0)) ->
  (forall c msg stamp, P c -> P (aggregate c msg stamp)) ->
  forall (ops : list (Op S)) (w : World S),
    P (this w) -> P (this (JsRun.run ls ops w)).
Proof.
  intros P1 P2 P3 P4 ops. induction ops as [|op ops IH]; intros w H; [exact H|].
  unfold JsRun.run in *. simpl. apply IH.
  destruct op as [m args| | | |force reschedule|id|s]; simpl.
  - unfold JsCollector.call_level.
    apply (keeps_bind P); [apply keeps_get_this | intros c | exact H].
    destruct (Logger.get _ _); [apply (keeps_js_log ls P); assumption | apply keeps_throw].
  - apply (keeps_reschedule P P2). exact H.
  - apply (keeps_js_flush ls P P1 P2 P3). exact H.
  - apply (keeps_js_flush ls P P1 P2 P3). exact H.
  - apply (keeps_js_flush ls P P1 P2 P3). exact H.
  - unfold JsCollector.timeout_expires. destruct (pending id w); [|exact H].
    apply (keeps_js_flush ls P P1 P2 P3 false true (expire id w)). exact H.
  - exact H.
Qed.

(** X9: in every state the guarded collector reaches from its
    construction, [totalLen] is the sum of the lengths of the queued
    texts, no queued text is empty, and so [totalLen] is zero exactly
    when the queue is empty. *)
Theorem js_totalLen_is_sum_of_queued_lengths :
  forall (S : Type) (ls : LogStorage S) (options : option Options) (s : S)
         (ops : list (Op S)),
    let w := JsRun.run ls ops (new_world (JsCollector.constructor options) s) in
    totalLen (this w) = sum_lengths (queue (this w))
    /\ Forall (fun e => text e <> "") (queue (this w))
    /\ (totalLen (this w) = 0 <-> queue (this w) = []).
Proof.
  intros S ls options s ops w.
  assert (Hok : collector_ok (this w)).
  { subst w. apply (keeps_js_run S ls collector_ok).
    - intros c v [H1 H2]. split; assumption.
    - intros c v [H1 H2]. split; assumption.
    - apply reset_ok.
    - apply aggregate_ok.
    - split; simpl; [reflexivity | constructor]. }
  destruct Hok as [H1 H2]. repeat split; try assumption;
    apply collector_ok_zero; split; assumption.
Qed.

(* ================================================================== *)
(** * The formatted text *)

Lemma string_app_assoc (a b c : string) : ((a ++ b) ++ c = a ++ (b ++ c))%string.
Proof. induction a as [|x a IH]; simpl; [reflexivity | rewrite IH; reflexivity]. Qed.

Lemma string_app_nil_r (a : string) : (a ++ "" = a)%string.
Proof. induction a as [|x a IH]; simpl; [reflexivity | rewrite IH; reflexivity]. Qed.

Lemma string_app_prefix (a b x y : string) :
  String.length a = String.length b -> (a ++ x = b ++ y)%string -> a = b.
Proof.
  revert b. induction a as [|c a IH]; intros [|d b] Hlen H; simpl in *;
    try discriminate; [reflexivity|].
  inversion H; subst. f_equal. apply IH; [lia | assumption].
Qed.

(** The loop of [processArg] appends one part for each argument. *)
Lemma ts_fold_processArg (c : Collector) (logLevel : JsValue) (args : list JsValue) :
  forall parts,
    fold_left (TsCollector.processArg c logLevel) args parts
    = parts ++ fold_left (TsCollector.processArg c logLevel) args [].
Proof.
  induction args as [|arg args IH]; intros parts; simpl.
  - rewrite app_nil_r. reflexivity.
  - rewrite IH. rewrite (IH (TsCollector.processArg c logLevel [] arg)).
    unfold TsCollector.processArg. rewrite <- app_assoc. reflexivity.
Qed.

Lemma ts_fold_processArg_raw (c : Collector) (logLevel : JsValue) (args : list JsValue) :
  stringifyObjects c = false ->
  strict_eq_string logLevel Logger.levels_ERROR = false ->
  fold_left (TsCollector.processArg c logLevel) args [] = args.
Proof.
  intros Hs Hl. induction args as [|arg args IH]; [reflexivity|].
  simpl. rewrite ts_fold_processArg, IH.
  unfold TsCollector.processArg. rewrite Hs, Hl. reflexivity.
Qed.

(** X10: with [stringifyObjects] off, the text a per-level method of the
    TypeScript class queues is the comma-separated join of the call's
    arguments as they are, a falsy first argument left out; there is no
    text exactly when nothing is left to join. No argument is
    stringified, on any level. *)
Theorem ts_level_method_joins_raw_arguments :
  forall (options : option Options) (methodName logLevel : string)
         (args : list JsValue),
    stringifyObjects (TsCollector.constructor options) = false ->
    Logger.get (levelMethods (TsCollector.constructor options)) methodName
    = Some logLevel ->
    TsCollector.formatLogMessage (TsCollector.constructor options)
      (JsString logLevel :: args)
    = match raw_parts (JsString logLevel :: args) with
      | [] => None
      | parts => Some (join "," parts)
      end.
Proof.
  intros options m k args Hs Hm.
  apply ts_level_methods_bind_keys in Hm. destruct Hm as [_ Hk].
  unfold TsCollector.formatLogMessage, raw_parts.
  cbn [nth skipn].
  destruct (truthy (nth 0 args JsUndefined)).
  - rewrite ts_fold_processArg, (ts_fold_processArg_raw _ _ _ Hs Hk).
    unfold TsCollector.processArg. rewrite Hs. cbn [strict_eq_string] in *.
    rewrite Hk. cbn [orb andb app List.length Nat.eqb]. reflexivity.
  - rewrite (ts_fold_processArg_raw _ _ _ Hs Hk). cbn [app].
    destruct args as [|a0 [|a1 rest]]; reflexivity.
Qed.

Lemma ts_level_method_joins_raw_arguments_witness :
  TsCollector.formatLogMessage (TsCollector.constructor None)
    [JsString "ERROR"; stamp1; plain_object; JsNull; JsNumber 3]
  = Some "2024-01-01T00:00:00.000Z,[object Object],,3".
Proof.
  exact (ts_level_method_joins_raw_arguments None "error" "ERROR"
           [stamp1; plain_object; JsNull; JsNumber 3] eq_refl eq_refl).
Defined.

Lemma js_format_loop_unwords (c : Collector) (args : list JsValue) :
  forall msg,
    JsCollector.format_loop c msg args
    = (msg ++ unwords (map (JsCollector.append_arg c) args))%string.
Proof.
  induction args as [|arg rest IH]; intros msg.
  - cbn [JsCollector.format_loop map unwords]. rewrite string_app_nil_r. reflexivity.
  - destruct rest as [|arg2 rest].
    + cbn [JsCollector.format_loop map unwords]. reflexivity.
    + change (JsCollector.format_loop c msg (arg :: arg2 :: rest))
        with (JsCollector.format_loop c
                ((msg ++ JsCollector.append_arg c arg) ++ " ") (arg2 :: rest)).
      rewrite IH. cbn [map unwords].
      rewrite !string_app_assoc. reflexivity.
Qed.

Lemma js_formatLogMessage_unwords (c : Collector) (arguments : list JsValue) :
  JsCollector.formatLogMessage c arguments
  = let msg := unwords (map (JsCollector.append_arg c) (skipn 1 arguments)) in
    if String.eqb msg "" then None else Some msg.
Proof.
  unfold JsCollector.formatLogMessage.
  rewrite js_format_loop_unwords. cbn [String.append].
  destruct (unwords _); reflexivity.
Qed.

(** X11: the text the guarded collector formats is the renderings of
    the arguments after the level, in order, separated by single spaces,
    with no space in front or behind; the result is [null] exactly when
    that text is empty. *)
Theorem js_formatLogMessage_is_space_separated :
  forall (c : Collector) (arguments : list JsValue),
    JsCollector.formatLogMessage c arguments
    = let msg := unwords (map (JsCollector.append_arg c) (skipn 1 arguments)) in
      if String.eqb msg "" then None else Some msg.
Proof. exact js_formatLogMessage_unwords. Qed.

(** The text of a call with a non-empty text as timestamp begins with
    that timestamp. *)
Lemma ts_format_begins_with_timestamp (c : Collector) (logLevel : JsValue)
    (stamp : string) (args : list JsValue) :
  stamp <> "" ->
  exists rest : string,
    TsCollector.formatLogMessage c (logLevel :: JsString stamp :: args)
    = Some (stamp ++ rest)%string.
Proof.
  intros Hne. unfold TsCollector.formatLogMessage. cbn [nth skipn].
  apply truthy_string in Hne. rewrite Hne.
  rewrite ts_fold_processArg.
  destruct (fold_left _ args []) as [|p parts];
    unfold TsCollector.processArg; cbn [typeof_object]; rewrite !andb_false_r;
    cbn [app List.length Nat.eqb].
  - exists "". cbn. rewrite string_app_nil_r. reflexivity.
  - exists ("," ++ join "," (p :: parts))%string. reflexivity.
Qed.

Lemma js_format_begins_with_timestamp (c : Collector) (logLevel : JsValue)
    (stamp : string) (args : list JsValue) :
  stamp <> "" ->
  exists rest : string,
    JsCollector.formatLogMessage c (logLevel :: JsString stamp :: args)
    = Some (stamp ++ rest)%string.
Proof.
  intros Hne. rewrite js_formatLogMessage_unwords. cbn [skipn map].
  assert (Ha : JsCollector.append_arg c (JsString stamp) = stamp).
  { unfold JsCollector.append_arg. cbn [instanceof_Error typeof_object ToString].
    rewrite andb_false_r. reflexivity. }
  rewrite Ha.
  destruct (map _ args) as [|p parts].
  - exists "". cbn [unwords]. rewrite string_app_nil_r.
    apply String.eqb_neq in Hne. rewrite Hne. reflexivity.
  - exists (" " ++ unwords (p :: parts))%string. cbn [unwords].
    destruct stamp; [congruence | reflexivity].
Qed.

(** X12: the timestamp is part of the text that is compared. Two calls
    whose timestamps are non-empty texts of the same length (as two ISO
    times are) and differ are formatted to different texts, in both
    files, whatever else they carry; so the second is never counted on
    the entry of the first: it is queued as an entry of its own. *)
Theorem different_timestamps_are_never_merged :
  forall (c : Collector) (level1 level2 : JsValue) (stamp1' stamp2' : string)
         (args1 args2 : list JsValue),
    stamp1' <> "" ->
    String.length stamp1' = String.length stamp2' ->
    stamp1' <> stamp2' ->
    TsCollector.formatLogMessage c (level1 :: JsString stamp1' :: args1)
    <> TsCollector.formatLogMessage c (level2 :: JsString stamp2' :: args2)
    /\ JsCollector.formatLogMessage c (level1 :: JsString stamp1' :: args1)
       <> JsCollector.formatLogMessage c (level2 :: JsString stamp2' :: args2)
    /\ (forall (before : list LogEntry) (prev : LogEntry) (msg : string),
          queue c = before ++ [prev] ->
          Some (text prev)
          = TsCollector.formatLogMessage c (level1 :: JsString stamp1' :: args1) ->
          Some msg
          = TsCollector.formatLogMessage c (level2 :: JsString stamp2' :: args2) ->
          queue (aggregate c (Some msg) (JsString stamp2'))
          = queue c ++ [mkEntry msg (JsString stamp2') 1%nat]).
Proof.
  intros c l1 l2 t1 t2 a1 a2 Hne Hlen Hdiff.
  assert (Hne2 : t2 <> "") by (destruct t1, t2; simpl in *; congruence).
  destruct (ts_format_begins_with_timestamp c l1 t1 a1 Hne) as (r1 & E1).
  destruct (ts_format_begins_with_timestamp c l2 t2 a2 Hne2) as (r2 & E2).
  destruct (js_format_begins_with_timestamp c l1 t1 a1 Hne) as (q1 & F1).
  destruct (js_format_begins_with_timestamp c l2 t2 a2 Hne2) as (q2 & F2).
  rewrite E1, E2, F1, F2.
  split; [|split].
  - intros H. inversion H as [H']. apply Hdiff.
    apply (string_app_prefix _ _ _ _ Hlen H').
  - intros H. inversion H as [H']. apply Hdiff.
    apply (string_app_prefix _ _ _ _ Hlen H').
  - intros before prev msg Hq Hprev Hmsg.
    inversion Hprev as [Hp]. inversion Hmsg as [Hm]. subst msg.
    unfold aggregate.
    assert (Ht : truthy (JsString (t2 ++ r2)) = true).
    { apply truthy_string. destruct t2; [congruence | discriminate]. }
    rewrite Ht, Hq, unsnoc_app.
    destruct (String.eqb_spec (text prev) (t2 ++ r2)%string) as [E|E].
    + exfalso. apply Hdiff. rewrite Hp in E.
      apply (string_app_prefix _ _ _ _ Hlen E).
    + reflexivity.
Qed.

Lemma different_timestamps_are_never_merged_witness :
  TsCollector.formatLogMessage (TsCollector.constructor None)
    [JsString "LOG"; JsString "2024-01-01T00:00:00.000Z"; JsString "tick"]
  <> TsCollector.formatLogMessage (TsCollector.constructor None)
       [JsString "LOG"; JsString "2024-01-01T00:00:00.001Z"; JsString "tick"].
Proof.
  refine (proj1 (different_timestamps_are_never_merged (TsCollector.constructor None)
                   (JsString "LOG") (JsString "LOG")
                   "2024-01-01T00:00:00.000Z" "2024-01-01T00:00:00.001Z"
                   [JsString "tick"] [JsString "tick"] _ _ _)).
  - discriminate.
  - reflexivity.
  - discriminate.
Defined.

(* ================================================================== *)
(** * The guarded collector against a storage that raises *)

Section Accounted.
Context {S : Type}.
Variable ls : LogStorage S.

Lemma raised_app (evs1 evs2 : list Event) :
  raised (evs1 ++ evs2) = raised evs1 ++ raised evs2.
Proof.
  induction evs1 as [|[[r|e]|logs [r|e]|msg err] rest IH]; simpl; rewrite ?IH;
    reflexivity.
Qed.

Lemma accounted_silent {A} (m : M S A) :
  (forall w, events (snd (m w)) = events w) -> accounted m.
Proof. intros H w. exists []. rewrite H, app_nil_r. auto. Qed.

Lemma accounted_bind {A B} (m : M S A) (k : A -> M S B) :
  accounted m -> (forall a, accounted (k a)) -> accounted (bind m k).
Proof.
  intros Hm Hk w. unfold bind. destruct (Hm w) as (evs1 & E1 & C1).
  destruct (m w) as [[a|e] w1]; simpl in E1.
  - destruct (Hk a w1) as (evs2 & E2 & C2). exists (evs1 ++ evs2).
    rewrite E2, E1, app_assoc, console_errors_app, raised_app, C1, C2. auto.
  - exists evs1. simpl. auto.
Qed.

Lemma accounted_guarded_isReady :
  accounted
    (try_catch (call_isReady ls)
       (fun error =>
          bind
            (console_error "LogCollector error when calling logStorage.isReady(): "
               error)
            (fun _ => ret false))).
Proof.
  intros w. unfold try_catch, call_isReady, bind, console_error, emit, ret.
  destruct (isReady ls (storage w)) as [[b|e] s1]; simpl.
  - exists [CallIsReady (Ret b)]. split; reflexivity.
  - eexists [CallIsReady (Throw e); ConsoleError _ e]. rewrite <- app_assoc.
    split; reflexivity.
Qed.

Lemma accounted_storeLogs (logs : list LogEntry) :
  accounted (JsCollector._storeLogs ls logs).
Proof.
  intros w. unfold JsCollector._storeLogs, try_catch, call_storeLogs, console_error, emit.
  destruct (storeLogs ls logs (storage w)) as [[[]|e] s1]; simpl.
  - exists [CallStoreLogs logs (Ret tt)]. split; reflexivity.
  - eexists [CallStoreLogs logs (Throw e); ConsoleError _ e].
    rewrite <- app_assoc. split; reflexivity.
Qed.

Lemma accounted_forEach (l : list (list LogEntry)) :
  accounted (forEach l (fun cachedQueue => JsCollector._storeLogs ls cachedQueue)).
Proof.
  induction l as [|logs rest IH]; simpl.
  - apply accounted_silent. reflexivity.
  - apply accounted_bind; [apply accounted_storeLogs | intros _; exact IH].
Qed.

Lemma accounted_reschedule : accounted (_reschedulePublishInterval (S := S)).
Proof. apply accounted_silent. intros w. rewrite reschedule_returns. reflexivity. Qed.

Lemma accounted_js_flush (force reschedule : bool) :
  accounted (JsCollector._flush ls force reschedule).
Proof.
  unfold JsCollector._flush.
  apply accounted_bind; [apply accounted_guarded_isReady | intros logStorageReady].
  apply accounted_bind; [apply accounted_silent; reflexivity | intros c].
  apply accounted_bind.
  - destruct ((0 <? totalLen c) && (logStorageReady || force));
      [|apply accounted_silent; reflexivity].
    apply accounted_bind.
    + destruct logStorageReady; [|apply accounted_silent; reflexivity].
      apply accounted_bind.
      * destruct (negb (Nat.eqb (List.length (outputCache c)) 0));
          [|apply accounted_silent; reflexivity].
        apply accounted_bind; [apply accounted_forEach | intros _].
        apply accounted_silent. reflexivity.
      * intros _. apply accounted_bind; [apply accounted_silent; reflexivity|].
        intros c1. apply accounted_storeLogs.
    + intros _. apply accounted_bind; [|intros _]; apply accounted_silent; reflexivity.
  - intros _. destruct reschedule;
      [apply accounted_reschedule | apply accounted_silent; reflexivity].
Qed.

Lemma accounted_js_op (op : Op S) : accounted (JsRun.run_op ls op).
Proof.
  destruct op as [m args| | | |force reschedule|id|s]; cbn [JsRun.run_op].
  - unfold JsCollector.call_level.
    apply accounted_bind; [apply accounted_silent; reflexivity | intros c].
    destruct (Logger.get (levelMethods c) m); [|apply accounted_silent; reflexivity].
    unfold JsCollector._log.
    apply accounted_bind; [apply accounted_silent; reflexivity | intros _].
    apply accounted_bind; [apply accounted_silent; reflexivity | intros c1].
    destruct (_ <=? _); [apply accounted_js_flush | apply accounted_silent; reflexivity].
  - apply accounted_reschedule.
  - apply accounted_js_flush.
  - apply accounted_js_flush.
  - apply accounted_js_flush.
  - intros w. unfold JsCollector.timeout_expires. destruct (pending id w).
    + destruct (accounted_js_flush false true (expire id w)) as (evs & E & C).
      exists evs. auto.
    + exists []. simpl. rewrite app_nil_r. auto.
  - apply accounted_silent. reflexivity.
Qed.

End Accounted.

(** X13: the guarded collector tells the console every error the storage
    raises, once each and in the order of the calls, and writes nothing
    else there. This holds in every state the collector reaches from its
    construction, whatever the storage does. *)
Theorem guarded_collector_reports_every_storage_error :
  forall (S : Type) (ls : LogStorage S) (options : option Options) (s : S)
         (ops : list (Op S)),
    let w := JsRun.run ls ops (new_world (JsCollector.constructor options) s) in
    console_errors (events w) = raised (events w).
Proof.
  intros S ls options s ops.
  assert (H : console_errors (events (new_world (JsCollector.constructor options) s))
              = raised (events (new_world (JsCollector.constructor options) s)))
    by reflexivity.
  revert H. generalize (new_world (JsCollector.constructor options) s).
  induction ops as [|op ops IH]; intros w H; [exact H|].
  unfold JsRun.run in *. cbn [fold_left]. cbn zeta in IH. apply IH.
  destruct (accounted_js_op ls op w) as (evs & E & C).
  rewrite E, console_errors_app, raised_app, H, C. reflexivity.
Qed.

(** X14: a storage whose [isReady] raises is taken for one that is not
    ready. The flush returns, the error is on the console, no store call
    is made, and queue, cache and [totalLen] are what "not ready" leaves:
    a forced flush of a non-empty queue moves the queue to the cache,
    any other flush changes none of the three. *)
Theorem guarded_flush_takes_raising_isReady_for_not_ready :
  forall (S : Type) (ls : LogStorage S) (force reschedule : bool) (w : World S)
         (e : JsValue),
    fst (isReady ls (storage w)) = Throw e ->
    let r := JsCollector._flush ls force reschedule w in
    let c := if (0 <? totalLen (this w)) && force then cached (this w) else this w in
    fst r = Ret tt
    /\ store_calls (events (snd r)) = store_calls (events w)
    /\ console_errors (events (snd r)) = console_errors (events w) ++ [e]
    /\ queue (this (snd r)) = queue c
    /\ outputCache (this (snd r)) = outputCache c
    /\ totalLen (this (snd r)) = totalLen c.
Proof.
  intros S ls force reschedule w e Hr r c. subst r c.
  rewrite (js_flush_isReady_raises ls force reschedule w e Hr).
  match goal with |- context [finish reschedule ?w1] =>
    destruct (finish_kept reschedule w1) as (H1 & H2 & H3 & H4 & H5 & _) end.
  rewrite H1, H2, H3, H4, H5. cbn [this events].
  rewrite store_calls_app, console_errors_app. simpl. rewrite app_nil_r.
  repeat split.
Qed.

Lemma guarded_flush_takes_raising_isReady_for_not_ready_witness :
  let r := JsCollector._flush unreachable_storage true false js_hello_world in
  fst r = Ret tt
  /\ console_errors (events (snd r)) = [boom]
  /\ outputCache (this (snd r)) = [queue (this js_hello_world)].
Proof.
  destruct (guarded_flush_takes_raising_isReady_for_not_ready unit unreachable_storage
              true false js_hello_world boom eq_refl)
    as (H1 & _ & H3 & _ & H5 & _).
  split; [exact H1 | split; [exact H3 | exact H5]].
Defined.

(** X15: a ready flush of the guarded collector with something queued
    hands every cached batch and then the queue to the storage, in that
    order, and empties cache and queue, whether the store calls return
    or raise: a batch whose store call raises is neither kept nor sent
    again. *)
Theorem guarded_ready_flush_clears_even_when_store_raises :
  forall (S : Type) (ls : LogStorage S) (force reschedule : bool) (w : World S),
    0 < totalLen (this w) ->
    fst (isReady ls (storage w)) = Ret true ->
    let r := JsCollector._flush ls force reschedule w in
    fst r = Ret tt
    /\ store_calls (events (snd r))
       = store_calls (events w) ++ outputCache (this w) ++ [queue (this w)]
    /\ outputCache (this (snd r)) = []
    /\ queue (this (snd r)) = []
    /\ totalLen (this (snd r)) = 0.
Proof.
  intros S ls force reschedule w Hlen Hr r. subst r.
  destruct (js_flush_ready ls force reschedule w Hlen Hr) as (s' & evs & E & Hc).
  rewrite E.
  match goal with |- context [finish reschedule ?w1] =>
    destruct (finish_kept reschedule w1) as (H1 & H2 & H3 & H4 & H5 & _) end.
  rewrite H1, H2, H3, H4, H5. simpl.
  repeat split. rewrite store_calls_app. simpl. rewrite Hc. reflexivity.
Qed.

Lemma guarded_ready_flush_clears_even_when_store_raises_witness :
  let r := JsCollector._flush failing_storage false true js_backlog_world in
  fst r = Ret tt
  /\ store_calls (events (snd r))
     = [[js_line "a"; js_line "b"]; [js_line "c"; js_line "d"]; [js_line "e"]]
  /\ outputCache (this (snd r)) = []
  /\ queue (this (snd r)) = []
  /\ totalLen (this (snd r)) = 0.
Proof.
  refine (guarded_ready_flush_clears_even_when_store_raises unit failing_storage
            false true js_backlog_world _ _).
  - vm_compute. reflexivity.
  - reflexivity.
Defined.

(* ================================================================== *)
(** * The leveled logger *)

Section LoggerFacts.
Import LoggerClass.
Context {T : Type}.
Variable toISOString : nat -> string.
Variable method : Transport -> string -> option (list JsValue -> T -> Outcome unit * T).

(** [dispatch] over transports of which the listeners' calls all return
    and keep [I]: every listener is called once, in order, each call
    reading the clock once. *)
Lemma dispatch_returns (I : T -> Prop) (logger : Logger) (callerInfo : option string)
    (level : string) (args : list JsValue) (l : list Transport) :
  (forall t f a ts,
      In t l -> method t level = Some f -> I ts ->
      returned (fst (f a ts)) = true /\ I (snd (f a ts))) ->
  forall st : State T,
    I (transportState st) ->
    let r := dispatch toISOString method logger callerInfo level args l st in
    fst r = Ret tt
    /\ calls (snd r)
       = calls st
         ++ expected_calls toISOString logger callerInfo level args
              (listeners method level l) (clock st)
    /\ clock (snd r) = (clock st + List.length (listeners method level l))%nat
    /\ _globalTransports (snd r) = _globalTransports st
    /\ _globalOptions (snd r) = _globalOptions st
    /\ I (transportState (snd r)).
Proof.
  induction l as [|t rest IH]; intros Hret st HI.
  - simpl. rewrite app_nil_r, Nat.add_0_r. repeat split; auto.
  - cbn [dispatch listeners filter].
    destruct (method t level) as [f|] eqn:Hm.
    + pose proof (Hret t f
                    (logPrefixes (toISOString (clock st)) logger callerInfo ++ args)
                    (transportState st) (or_introl eq_refl) Hm HI) as [Hr HI'].
      destruct (f _ (transportState st)) as [[[]|e] ts']; [|discriminate].
      match goal with |- context [dispatch _ _ _ _ _ _ rest ?st1] =>
        destruct (IH (fun t' f' a ts Hin => Hret t' f' a ts (or_intror Hin)) st1 HI')
          as (A & B & C & D & E & F) end.
      cbn zeta in *. rewrite A, B, C, D, E.
      cbn [calls clock _globalTransports _globalOptions expected_calls List.length].
      rewrite <- app_assoc. repeat split; try reflexivity; try exact F.
      unfold listeners. lia.
    + apply (IH (fun t' f' a ts Hin => Hret t' f' a ts (or_intror Hin)) st HI).
Qed.

(** [dispatch] stops at the first listener whose call raises. *)
Lemma dispatch_raises (logger : Logger) (callerInfo : option string)
    (level : string) (args : list JsValue) (pre post : list Transport)
    (t : Transport) (f : list JsValue -> T -> Outcome unit * T) (e : JsValue) :
  (forall t' f' a ts,
      In t' pre -> method t' level = Some f' -> returned (fst (f' a ts)) = true) ->
  method t level = Some f ->
  (forall a ts, fst (f a ts) = Throw e) ->
  forall st : State T,
    let r := dispatch toISOString method logger callerInfo level args
               (pre ++ t :: post) st in
    fst r = Throw e
    /\ calls (snd r)
       = calls st
         ++ expected_calls toISOString logger callerInfo level args
              (listeners method level pre ++ [t]) (clock st).
Proof.
  intros Hret Hm Hf. induction pre as [|t' pre IH]; intros st.
  - cbn [app dispatch listeners filter]. rewrite Hm.
    specialize (Hf (logPrefixes (toISOString (clock st)) logger callerInfo ++ args)
                  (transportState st)).
    destruct (f _ (transportState st)) as [r ts']. simpl in Hf. subst r.
    simpl. auto.
  - cbn [app dispatch listeners filter].
    destruct (method t' level) as [f'|] eqn:Hm'.
    + pose proof (Hret t' f'
                    (logPrefixes (toISOString (clock st)) logger callerInfo ++ args)
                    (transportState st) (or_introl eq_refl) Hm') as Hr.
      destruct (f' _ (transportState st)) as [[[]|e'] ts']; [|discriminate].
      match goal with |- context [dispatch _ _ _ _ _ _ _ ?st1] =>
        destruct (IH (fun t0 f0 a ts Hin => Hret t0 f0 a ts (or_intror Hin)) st1)
          as (A & B) end.
      cbn zeta in *. rewrite A, B. cbn [calls clock app expected_calls].
      rewrite <- app_assoc. auto.
    + apply (IH (fun t0 f0 a ts Hin => Hret t0 f0 a ts (or_intror Hin)) st).
Qed.

Lemma passes_not_less (logger : Logger) (called : string) :
  passes logger called ->
  less_than (lookup levels called) (level logger) = false.
Proof.
  unfold passes, less_than. intros [H|[H|(n & m & H1 & H2 & H3)]].
  - rewrite H. destruct (lookup levels called); reflexivity.
  - rewrite H. reflexivity.
  - rewrite H1, H2. apply Z.ltb_ge. exact H3.
Qed.

End LoggerFacts.

(** X16: a logger drops every call of a level that ranks below its own:
    no transport is called and the clock is not read. The logger's
    level is the one its constructor or [setLevel] looked up. *)
Theorem logger_drops_lower_levels :
  forall (T : Type) (toISOString : nat -> string)
         (method : LoggerClass.Transport -> string
                   -> option (list JsValue -> T -> Outcome unit * T))
         (caller own called : string) (id : option string)
         (transports : option (list LoggerClass.Transport))
         (options : option LoggerClass.Options) (logger : LoggerClass.Logger)
         (args : list JsValue) (st : LoggerClass.State T) (n m : Z),
    LoggerClass.lookup LoggerClass.levels own = Some n ->
    LoggerClass.lookup LoggerClass.levels called = Some m ->
    m < n ->
    LoggerClass.__log toISOString method caller
      (LoggerClass.constructor own id transports options) called args st
    = (Ret tt, st)
    /\ LoggerClass.__log toISOString method caller
         (LoggerClass.setLevel logger own) called args st
       = (Ret tt, st).
Proof.
  intros T toISOString method caller own called id transports options logger args
         st n m Hn Hm Hlt.
  unfold LoggerClass.__log, LoggerClass.constructor, LoggerClass.setLevel.
  cbn [LoggerClass.level]. rewrite Hn, Hm. cbn [LoggerClass.less_than].
  apply Z.ltb_lt in Hlt. rewrite Hlt. auto.
Qed.

Lemma logger_drops_lower_levels_witness :
  LoggerClass.__log clock1 console_transport "main"
    (LoggerClass.constructor "warn" None None None) "info" [JsString "x"] fresh_state
  = (Ret tt, fresh_state).
Proof.
  refine (proj1 (logger_drops_lower_levels unit clock1 console_transport "main"
                   "warn" "info" None None None
                   (LoggerClass.constructor "trace" None None None)
                   [JsString "x"] fresh_state 4 2 eq_refl eq_refl _)).
  lia.
Defined.

(** X17: a call the logger lets through (a level not below the logger's,
    or a level name or logger level that is not in the table) reaches
    every transport that has a method of that name, the global ones
    first, then the logger's own, each exactly once and in order,
    provided these methods return. Each call gets its own reading of
    the clock in front of the arguments, then [[id]] if the logger has
    an id, then the caller's name if caller info is enabled and the
    name is longer than one character. The static fields are left as
    they are. *)
Theorem logger_calls_every_listener_in_order :
  forall (T : Type) (toISOString : nat -> string)
         (method : LoggerClass.Transport -> string
                   -> option (list JsValue -> T -> Outcome unit * T))
         (caller : string) (logger : LoggerClass.Logger) (called : string)
         (args : list JsValue) (st : LoggerClass.State T),
    passes logger called ->
    (forall t f a ts, method t called = Some f -> returned (fst (f a ts)) = true) ->
    let r := LoggerClass.__log toISOString method caller logger called args st in
    let all := LoggerClass._globalTransports st ++ LoggerClass.transports logger in
    fst r = Ret tt
    /\ LoggerClass.calls (snd r)
       = LoggerClass.calls st
         ++ LoggerClass.expected_calls toISOString logger
              (callerInfo_of caller logger st) called args
              (LoggerClass.listeners method called all) (LoggerClass.clock st)
    /\ LoggerClass.clock (snd r)
       = (LoggerClass.clock st
          + List.length (LoggerClass.listeners method called all))%nat
    /\ LoggerClass._globalTransports (snd r) = LoggerClass._globalTransports st
    /\ LoggerClass._globalOptions (snd r) = LoggerClass._globalOptions st.
Proof.
  intros T toISOString method caller logger called args st Hpass Hret r all.
  subst r all. unfold LoggerClass.__log. rewrite (passes_not_less logger called Hpass).
  fold (callerInfo_of caller logger st).
  destruct (dispatch_returns toISOString method (fun _ => True) logger
              (callerInfo_of caller logger st) called args
              (LoggerClass._globalTransports st ++ LoggerClass.transports logger)
              (fun t f a ts _ Hm _ => conj (Hret t f a ts Hm) I) st I)
    as (A & B & C & D & E & _).
  auto.
Qed.

(** X18: the loop over the transports is not guarded. When the method of
    a transport raises, the error leaves [__log] and the transports
    after it are not called for this message. *)
Theorem logger_stops_at_raising_transport :
  forall (T : Type) (toISOString : nat -> string)
         (method : LoggerClass.Transport -> string
                   -> option (list JsValue -> T -> Outcome unit * T))
         (caller : string) (logger : LoggerClass.Logger) (called : string)
         (args : list JsValue) (st : LoggerClass.State T)
         (pre post : list LoggerClass.Transport) (t : LoggerClass.Transport)
         (f : list JsValue -> T -> Outcome unit * T) (e : JsValue),
    passes logger called ->
    LoggerClass._globalTransports st ++ LoggerClass.transports logger
    = pre ++ t :: post ->
    (forall t' f' a ts,
        In t' pre -> method t' called = Some f' -> returned (fst (f' a ts)) = true) ->
    method t called = Some f ->
    (forall a ts, fst (f a ts) = Throw e) ->
    let r := LoggerClass.__log toISOString method caller logger called args st in
    fst r = Throw e
    /\ LoggerClass.calls (snd r)
       = LoggerClass.calls st
         ++ LoggerClass.expected_calls toISOString logger
              (callerInfo_of caller logger st) called args
              (LoggerClass.listeners method called pre ++ [t]) (LoggerClass.clock st).
Proof.
  intros T toISOString method caller logger called args st pre post t f e
         Hpass Hall Hret Hm Hf r.
  subst r. unfold LoggerClass.__log. rewrite (passes_not_less logger called Hpass).
  fold (callerInfo_of caller logger st). rewrite Hall.
  apply (dispatch_raises toISOString method logger _ called args pre post t f e
           Hret Hm Hf st).
Qed.

Lemma level_names_are_methods (called : string) :
  LoggerClass.lookup LoggerClass.levels called <> None ->
  exists k, Logger.get (levelMethods (JsCollector.constructor None)) called = Some k.
Proof.
  unfold LoggerClass.levels. cbn [LoggerClass.lookup].
  repeat match goal with
         | |- context [String.eqb called ?k] =>
             destruct (String.eqb_spec called k) as [->|?];
             [intros _; eexists; vm_compute; reflexivity|]
         end.
  intros H. contradiction H. reflexivity.
Qed.

(** X19: a method of a logger never throws back at the caller because
    of the storage when the transports are one guarded collector. For
    each of the six level names the logger's constructor binds, and
    with a formatter that returns, [__log] returns whatever [isReady]
    and [storeLogs] do, whatever else the collector answers to, and
    however often the collector is listed. The caller's name is taken
    as [getCallerInfo()] returned it. *)
Theorem logger_method_over_guarded_collector_returns :
  forall (S : Type) (ls : LogStorage S)
         (format : Collector -> list JsValue -> Outcome (option string))
         (other : string -> option (list JsValue -> World S -> Outcome unit * World S))
         (toISOString : nat -> string)
         (caller : string) (logger : LoggerClass.Logger) (called : string)
         (args : list JsValue) (st : LoggerClass.State (World S)),
    LoggerClass.lookup LoggerClass.levels called <> None ->
    (forall c a, returned (format c a) = true) ->
    levelMethods (this (LoggerClass.transportState st))
    = levelMethods (JsCollector.constructor None) ->
    fst (LoggerClass.__log toISOString (js_transport ls format other) caller logger
           called args st)
    = Ret tt.
Proof.
  intros S ls format other toISOString caller logger called args st Hlevel Hformat Hlm.
  destruct (level_names_are_methods called Hlevel) as (k & Hk).
  unfold LoggerClass.__log.
  destruct (LoggerClass.less_than _ _); [reflexivity|].
  apply (dispatch_returns toISOString (js_transport ls format other)
           (fun w => levelMethods (this w) = levelMethods (JsCollector.constructor None))).
  - intros t f a w _ Hm Hw. unfold js_transport in Hm. rewrite Hk in Hm.
    inversion Hm; subst f. rewrite <- Hw in Hk.
    destruct (js_with_formatter_returns S ls format w called k a Hk (Hformat _ _))
      as [Hr Hl].
    rewrite Hr, Hl. split; [reflexivity | exact Hw].
  - exact Hlm.
Qed.

Lemma logger_calls_every_listener_in_order_witness :
  let logger := LoggerClass.constructor "info" (Some "app") (Some [5%nat; 0%nat]) None in
  let r := LoggerClass.__log clock1 console_transport "main" logger "warn"
             [JsString "x"] fresh_state in
  fst r = Ret tt
  /\ LoggerClass.calls (snd r)
     = [ LoggerClass.mkCall 0%nat "warn"
           [JsString "2024-01-01T00:00:00.000Z"; JsString "[app]";
            JsString "<main>: "; JsString "x"];
         LoggerClass.mkCall 0%nat "warn"
           [JsString "2024-01-01T00:00:00.001Z"; JsString "[app]";
            JsString "<main>: "; JsString "x"] ].
Proof.
  intros logger r.
  destruct (logger_calls_every_listener_in_order unit clock1 console_transport "main"
              logger "warn" [JsString "x"] fresh_state)
    as (A & B & _).
  - right. right. exists 2, 4. repeat split. lia.
  - intros t f a ts Hm. unfold console_transport in Hm.
    destruct (Nat.eqb t 0); [|discriminate]. inversion Hm. reflexivity.
  - split; [exact A | exact B].
Defined.

Lemma logger_stops_at_raising_transport_witness :
  let logger := LoggerClass.constructor "trace" None (Some [1%nat; 0%nat]) None in
  let r := LoggerClass.__log clock1 broken_transport "main" logger "error"
             [JsString "x"] fresh_state in
  fst r = Throw boom
  /\ LoggerClass.calls (snd r)
     = [ LoggerClass.mkCall 0%nat "error"
           [JsString "2024-01-01T00:00:00.000Z"; JsString "<main>: "; JsString "x"];
         LoggerClass.mkCall 1%nat "error"
           [JsString "2024-01-01T00:00:00.001Z"; JsString "<main>: "; JsString "x"] ].
Proof.
  intros logger r.
  refine (logger_stops_at_raising_transport unit clock1 broken_transport "main" logger
            "error" [JsString "x"] fresh_state [0%nat] [0%nat] 1%nat
            (fun _ s => (Throw boom, s)) boom _ _ _ _ _).
  - right. right. exists 0, 5. repeat split. lia.
  - reflexivity.
  - intros t f a ts [Ht|[]] Hm. subst t. inversion Hm. reflexivity.
  - reflexivity.
  - reflexivity.
Defined.

Lemma logger_method_over_guarded_collector_returns_witness :
  fst (LoggerClass.__log clock1 (js_transport failing_storage js_formatter inherited_only)
         "main"
         (LoggerClass.constructor "trace" None (Some [1%nat]) None) "error"
         [plain_object]
         (LoggerClass.mkState [0%nat] (LoggerClass.mkOptions None) 0%nat
            js_backlog_world []))
  = Ret tt.
Proof.
  refine (logger_method_over_guarded_collector_returns unit failing_storage js_formatter
            inherited_only clock1 "main" _ "error" [plain_object] _ _ _ _).
  - discriminate.
  - reflexivity.
  - vm_compute. reflexivity.
Defined.

(* ================================================================== *)
(** * The global transports *)

Lemma indexOf_None (l : list LoggerClass.Transport) (x : LoggerClass.Transport) :
  LoggerClass.indexOf l x = None <-> ~ In x l.
Proof.
  induction l as [|y l IH]; simpl; [tauto|].
  destruct (Nat.eqb_spec y x) as [E|E].
  - split; [discriminate | intros H; exfalso; apply H; auto].
  - destruct (LoggerClass.indexOf l x) as [i|].
    + split; [discriminate|]. intros H. exfalso. apply H. right.
      destruct (in_dec Nat.eq_dec x l) as [Hin|Hin]; [exact Hin|].
      apply IH in Hin. discriminate.
    + split; [|reflexivity]. intros _ [H|H]; [congruence|].
      apply (proj1 IH eq_refl H).
Qed.

Lemma indexOf_snoc (l : list LoggerClass.Transport) (x : LoggerClass.Transport) :
  ~ In x l ->
  LoggerClass.indexOf (l ++ [x]) x = Some (List.length l)
  /\ LoggerClass.splice1 (l ++ [x]) (List.length l) = l.
Proof.
  induction l as [|y l IH]; intros Hin;
    cbn [app LoggerClass.indexOf LoggerClass.splice1 List.length].
  - rewrite Nat.eqb_refl. auto.
  - destruct (Nat.eqb_spec y x) as [E|E]; [exfalso; apply Hin; left; exact E|].
    destruct IH as [A B]; [intros H; apply Hin; right; exact H|].
    rewrite A, B. auto.
Qed.

Lemma splice1_indexOf (l : list LoggerClass.Transport) (x : LoggerClass.Transport) :
  forall i, LoggerClass.indexOf l x = Some i ->
    LoggerClass.splice1 l i = remove Nat.eq_dec x (firstn (Datatypes.S i) l)
                              ++ skipn (Datatypes.S i) l
    /\ (NoDup l -> LoggerClass.splice1 l i = remove Nat.eq_dec x l).
Proof.
  induction l as [|y l IH]; intros i Hi; [discriminate|].
  simpl in Hi. destruct (Nat.eqb_spec y x) as [E|E].
  - inversion Hi; subst i y. cbn [LoggerClass.splice1 firstn skipn remove].
    destruct (Nat.eq_dec x x) as [_|N]; [|congruence]. split; [reflexivity|].
    intros Hnd. inversion Hnd; subst. symmetry. apply notin_remove. assumption.
  - destruct (LoggerClass.indexOf l x) as [j|] eqn:Ej; [|discriminate].
    inversion Hi; subst i. destruct (IH j eq_refl) as [A B].
    cbn [LoggerClass.splice1 firstn skipn remove].
    destruct (Nat.eq_dec x y) as [N|_]; [congruence|].
    rewrite A. split; [reflexivity|].
    intros Hnd. inversion Hnd; subst. rewrite <- A, (B H2). reflexivity.
Qed.

(** X20: the global transports never hold a transport twice.
    [addGlobalTransport] of a transport that is listed changes nothing,
    so adding twice is adding once; [removeGlobalTransport] takes the
    transport off the list and leaves the others in place; removing
    what was just added gives the list back. *)
Theorem global_transports_hold_no_duplicate :
  forall (T : Type) (st : LoggerClass.State T) (t : LoggerClass.Transport),
    NoDup (LoggerClass._globalTransports st) ->
    LoggerClass.addGlobalTransport t (LoggerClass.addGlobalTransport t st)
    = LoggerClass.addGlobalTransport t st
    /\ In t (LoggerClass._globalTransports (LoggerClass.addGlobalTransport t st))
    /\ NoDup (LoggerClass._globalTransports (LoggerClass.addGlobalTransport t st))
    /\ LoggerClass._globalTransports (LoggerClass.removeGlobalTransport t st)
       = remove Nat.eq_dec t (LoggerClass._globalTransports st)
    /\ NoDup (LoggerClass._globalTransports (LoggerClass.removeGlobalTransport t st))
    /\ (~ In t (LoggerClass._globalTransports st) ->
        LoggerClass.removeGlobalTransport t (LoggerClass.addGlobalTransport t st) = st).
Proof.
  intros T st t Hnd.
  assert (Hadd : In t (LoggerClass._globalTransports (LoggerClass.addGlobalTransport t st))
                 /\ NoDup (LoggerClass._globalTransports
                             (LoggerClass.addGlobalTransport t st))).
  { unfold LoggerClass.addGlobalTransport.
    destruct (LoggerClass.indexOf (LoggerClass._globalTransports st) t) as [i|] eqn:E.
    - split; [|exact Hnd].
      destruct (in_dec Nat.eq_dec t (LoggerClass._globalTransports st)) as [H|H];
        [exact H|]. apply indexOf_None in H. congruence.
    - apply indexOf_None in E. cbn [LoggerClass._globalTransports]. split.
      + apply in_or_app. right. left. reflexivity.
      + apply NoDup_app; [exact Hnd | repeat constructor; intros [] |].
        intros x Hx [Hx'|[]]. subst x. contradiction. }
  destruct Hadd as [Hin Hnd'].
  assert (Hrem : LoggerClass._globalTransports (LoggerClass.removeGlobalTransport t st)
                 = remove Nat.eq_dec t (LoggerClass._globalTransports st)).
  { unfold LoggerClass.removeGlobalTransport.
    destruct (LoggerClass.indexOf (LoggerClass._globalTransports st) t) as [i|] eqn:E.
    - cbn [LoggerClass._globalTransports].
      apply (proj2 (splice1_indexOf _ _ i E) Hnd).
    - apply indexOf_None in E. symmetry. apply notin_remove. exact E. }
  repeat split; try assumption.
  - unfold LoggerClass.addGlobalTransport at 1.
    destruct (LoggerClass.indexOf
                (LoggerClass._globalTransports (LoggerClass.addGlobalTransport t st)) t)
      as [i|] eqn:E; [reflexivity|].
    apply indexOf_None in E. contradiction.
  - rewrite Hrem. clear -Hnd. induction Hnd as [|x l Hx Hl IH]; simpl; [constructor|].
    destruct (Nat.eq_dec t x); [exact IH|]. constructor; [|exact IH].
    intros H. apply in_remove in H. tauto.
  - intros Hnot. unfold LoggerClass.addGlobalTransport.
    pose proof (proj2 (indexOf_None _ _) Hnot) as E. rewrite E.
    unfold LoggerClass.removeGlobalTransport. cbn [LoggerClass._globalTransports].
    destruct (indexOf_snoc _ _ Hnot) as [A B]. rewrite A, B.
    destruct st; reflexivity.
Qed.

Lemma global_transports_hold_no_duplicate_witness :
  LoggerClass.addGlobalTransport 0%nat fresh_state = fresh_state
  /\ LoggerClass.removeGlobalTransport 7%nat
       (LoggerClass.addGlobalTransport 7%nat fresh_state)
     = fresh_state.
Proof.
  destruct (global_transports_hold_no_duplicate unit fresh_state 7%nat)
    as (_ & _ & _ & _ & _ & H).
  - repeat constructor. intros [].
  - split; [reflexivity|]. apply H. intros [E|[]]. discriminate.
Defined.

(* ================================================================== *)
(** * The earlier collector with text batches *)

Lemma old_aggregate_pairs (c : OldCollector.Fields) (msg : string) :
  msg <> "" ->
  map OldCollector.item_pair (OldCollector.queue (OldCollector.aggregate c msg))
  = snoc_run (map OldCollector.item_pair (OldCollector.queue c)) msg.
Proof.
  intros Hne. unfold OldCollector.aggregate.
  destruct msg as [|ch msg]; [congruence|]. cbn [String.length Nat.eqb].
  destruct (unsnoc (OldCollector.queue c)) as [[before prev]|] eqn:Eu.
  - apply unsnoc_snoc in Eu. rewrite Eu, map_app. cbn [map].
    rewrite snoc_run_app.
    destruct prev as [s|t n]; cbn [OldCollector.item_pair snoc_run];
      match goal with |- context [String.eqb ?a ?b] =>
        destruct (String.eqb_spec a b) as [E|E] end;
      cbn [OldCollector.queue OldCollector.with_queue];
      rewrite ?map_app; cbn [map OldCollector.item_pair];
      rewrite <- ?app_assoc; subst; reflexivity.
  - apply unsnoc_nil in Eu. rewrite Eu. reflexivity.
Qed.

Lemma old_aggregate_ok (c : OldCollector.Fields) (msg : string) :
  OldCollector.totalLen c = OldCollector.sum_lengths (OldCollector.queue c) ->
  Forall OldCollector.well_counted (OldCollector.queue c) ->
  OldCollector.totalLen (OldCollector.aggregate c msg)
  = OldCollector.sum_lengths (OldCollector.queue (OldCollector.aggregate c msg))
  /\ Forall OldCollector.well_counted (OldCollector.queue (OldCollector.aggregate c msg)).
Proof.
  intros Hsum Hwc. unfold OldCollector.aggregate.
  destruct msg as [|ch msg]; [auto|]. cbn [String.length Nat.eqb].
  assert (Hsnoc : forall q i,
             OldCollector.sum_lengths (q ++ [i])
             = OldCollector.sum_lengths q + length_of (fst (OldCollector.item_pair i))).
  { intros q i. induction q as [|j q IH]; simpl; [lia | rewrite IH; lia]. }
  assert (Hpush :
            OldCollector.totalLen c + length_of (String ch msg)
            = OldCollector.sum_lengths (OldCollector.queue c ++ [OldCollector.Plain (String ch msg)])
            /\ Forall OldCollector.well_counted
                 (OldCollector.queue c ++ [OldCollector.Plain (String ch msg)])).
  { split.
    - rewrite Hsnoc, Hsum. reflexivity.
    - apply Forall_app. split; [assumption|]. repeat constructor. discriminate. }
  destruct (unsnoc (OldCollector.queue c)) as [[before prev]|] eqn:Eu; [|exact Hpush].
  apply unsnoc_snoc in Eu.
  destruct prev as [s|t n]; cbn beta iota;
    match goal with |- context [String.eqb ?a ?b] =>
      destruct (String.eqb_spec a b) as [E|E] end; try exact Hpush;
    cbn [OldCollector.queue OldCollector.totalLen OldCollector.with_queue];
    rewrite Eu in Hsum, Hwc; rewrite Hsnoc in *;
    apply Forall_app in Hwc; destruct Hwc as [Hb Hp]; inversion Hp as [|? ? Hprev _];
    subst; cbn [OldCollector.item_pair fst] in *.
  - split; [exact Hsum|]. apply Forall_app. split; [assumption|].
    apply Forall_cons; [|apply Forall_nil]. split; [discriminate | lia].
  - split; [exact Hsum|]. apply Forall_app. split; [assumption|].
    destruct Hprev as [Ht Hn]. apply Forall_cons; [|apply Forall_nil].
    split; [assumption | lia].
Qed.

(** X21: the earlier collector groups runs as well, in its own
    representation. After messages are aggregated one after the other
    on an empty queue, the queue read as texts and counts (a plain
    string counting once) is the run-length grouping of the non-empty
    messages; an object in the queue always counts at least two; and
    [totalLen] is the sum of the lengths of the texts, each once. *)
Theorem old_queue_is_run_length_grouping :
  forall (options : option Options) (msgs : list string),
    let c := fold_left OldCollector.aggregate msgs (OldCollector.constructor options) in
    map OldCollector.item_pair (OldCollector.queue c)
    = group_runs (filter (fun m => negb (String.eqb m "")) msgs)
    /\ Forall OldCollector.well_counted (OldCollector.queue c)
    /\ OldCollector.totalLen c = OldCollector.sum_lengths (OldCollector.queue c).
Proof.
  intros options msgs.
  assert (G : forall (l : list string) (c : OldCollector.Fields) (done : list string),
             map OldCollector.item_pair (OldCollector.queue c) = group_runs done ->
             OldCollector.totalLen c = OldCollector.sum_lengths (OldCollector.queue c) ->
             Forall OldCollector.well_counted (OldCollector.queue c) ->
             let c' := fold_left OldCollector.aggregate l c in
             map OldCollector.item_pair (OldCollector.queue c')
             = group_runs (done ++ filter (fun m => negb (String.eqb m "")) l)
             /\ Forall OldCollector.well_counted (OldCollector.queue c')
             /\ OldCollector.totalLen c'
                = OldCollector.sum_lengths (OldCollector.queue c')).
  { induction l as [|m l IH]; intros c done Hp Hs Hw.
    - simpl. rewrite app_nil_r. auto.
    - cbn [fold_left filter].
      destruct (old_aggregate_ok c m Hs Hw) as [Hs' Hw'].
      destruct (String.eqb_spec m "") as [E|E]; cbn [negb].
      + apply IH; try assumption. subst m. exact Hp.
      + replace (done ++ m :: filter (fun m0 => negb (String.eqb m0 "")) l)
          with ((done ++ [m]) ++ filter (fun m0 => negb (String.eqb m0 "")) l)
          by (rewrite <- app_assoc; reflexivity).
        apply IH; try assumption.
        rewrite (old_aggregate_pairs c m E), Hp. symmetry. apply group_runs_snoc. }
  apply (G msgs (OldCollector.constructor options) []); simpl; auto.
Qed.

(** X22: a flush of the earlier collector with something queued makes
    exactly one store call, with the text built from the queue under the
    current batch number. When the call returns, the queue is empty,
    [totalLen] is zero and the batch number is one higher. When it
    raises, the error leaves the flush and queue, [totalLen] and batch
    number stay, so that the next flush sends the same batch under the
    same number. *)
Theorem old_flush_stores_one_numbered_batch :
  forall (S : Type) (storeLogs : string -> S -> Outcome unit * S)
         (reschedule : bool) (w : OldCollector.World S),
    0 < OldCollector.totalLen (OldCollector.this w) ->
    let r := OldCollector._flush storeLogs reschedule w in
    let call := storeLogs (OldCollector.toSend (OldCollector.this w))
                  (OldCollector.storage w) in
    OldCollector.stored (snd r)
    = OldCollector.stored w ++ [(OldCollector.toSend (OldCollector.this w), fst call)]
    /\ (fst call = Ret tt ->
        fst r = Ret tt
        /\ OldCollector.queue (OldCollector.this (snd r)) = []
        /\ OldCollector.totalLen (OldCollector.this (snd r)) = 0
        /\ OldCollector.counter (OldCollector.this (snd r))
           = OldCollector.counter (OldCollector.this w) + 1)
    /\ (forall e, fst call = Throw e ->
        fst r = Throw e
        /\ OldCollector.this (snd r) = OldCollector.this w
        /\ OldCollector.timeouts (snd r) = OldCollector.timeouts w).
Proof.
  intros S storeLogs reschedule w Hlen r call. subst r call.
  unfold OldCollector._flush. apply Z.ltb_lt in Hlen. rewrite Hlen.
  destruct (storeLogs _ (OldCollector.storage w)) as [[[]|e] s'];
    cbn [fst snd]; destruct reschedule; cbn;
    (split; [reflexivity|]);
    (split; [intros Hr; try discriminate; repeat split
            | intros e' He; try discriminate; inversion He; subst; repeat split]).
Qed.

Lemma old_flush_stores_one_numbered_batch_witness :
  let c := fold_left OldCollector.aggregate ["a"; "a"; "b"] (OldCollector.constructor None) in
  let w := OldCollector.mkWorld c tt [] 1%nat [] in
  OldCollector.stored (snd (OldCollector._flush (fun _ s => (Ret tt, s)) false w))
  = [(OldCollector.toSend c, Ret tt)]
  /\ OldCollector.lines (OldCollector.queue c)
     = ("(2) a" ++ OldCollector.newline ++ "b" ++ OldCollector.newline)%string.
Proof.
  intros c w. split; [|reflexivity].
  refine (proj1 (old_flush_stores_one_numbered_batch unit (fun _ s => (Ret tt, s))
                   false w _)).
  reflexivity.
Defined.

(** X23: in the earlier collector an option that the [options] object
    leaves out has no default. With an [options] object without
    [maxEntryLength] the size check never fires: whatever is logged, no
    store call is made and the queue only grows. *)
Theorem old_missing_maxEntryLength_never_flushes :
  forall (S : Type) (storeLogs : string -> S -> Outcome unit * S)
         (stringify : JsValue -> JsValue) (o : Options) (s : S)
         (submissions : list (list JsValue)),
    opt_maxEntryLength o = None ->
    let w0 := OldCollector.mkWorld (OldCollector.constructor (Some o)) s [] 1%nat [] in
    let w := fold_left
               (fun w arguments =>
                  snd (OldCollector._log storeLogs stringify arguments w))
               submissions w0 in
    OldCollector.stored w = []
    /\ OldCollector.maxEntryLength (OldCollector.this w) = None
    /\ (List.length (OldCollector.queue (OldCollector.this w0))
        <= List.length (OldCollector.queue (OldCollector.this w)))%nat
    /\ OldCollector.maxEntryLength (OldCollector.constructor None) = Some 10000.
Proof.
  intros S storeLogs stringify o s submissions Ho w0 w.
  assert (Hagg : forall c msg,
             OldCollector.maxEntryLength (OldCollector.aggregate c msg)
             = OldCollector.maxEntryLength c
             /\ (List.length (OldCollector.queue c)
                 <= List.length (OldCollector.queue (OldCollector.aggregate c msg)))%nat).
  { intros c msg. unfold OldCollector.aggregate.
    destruct (Nat.eqb (String.length msg) 0); [auto|].
    destruct (unsnoc (OldCollector.queue c)) as [[before prev]|] eqn:Eu.
    - apply unsnoc_snoc in Eu.
      destruct prev; cbn beta iota; destruct (String.eqb _ msg); cbn;
        rewrite ?Eu, ?length_app; cbn; split; try reflexivity; lia.
    - cbn. rewrite length_app. cbn. split; [reflexivity | lia]. }
  assert (Hstep : forall (w1 : OldCollector.World S) a,
             OldCollector.maxEntryLength (OldCollector.this w1) = None ->
             snd (OldCollector._log storeLogs stringify a w1)
             = OldCollector.mkWorld
                 (OldCollector.aggregate (OldCollector.this w1)
                    (OldCollector.message stringify (OldCollector.this w1) a))
                 (OldCollector.storage w1) (OldCollector.timeouts w1)
                 (OldCollector.nextTimeoutID w1) (OldCollector.stored w1)).
  { intros w1 a H1. unfold OldCollector._log, OldCollector.size_reached.
    rewrite (proj1 (Hagg _ _)), H1. reflexivity. }
  assert (G : forall l (w1 : OldCollector.World S),
             OldCollector.maxEntryLength (OldCollector.this w1) = None ->
             let w2 := fold_left
                         (fun w arguments =>
                            snd (OldCollector._log storeLogs stringify arguments w))
                         l w1 in
             OldCollector.stored w2 = OldCollector.stored w1
             /\ OldCollector.maxEntryLength (OldCollector.this w2) = None
             /\ (List.length (OldCollector.queue (OldCollector.this w1))
                 <= List.length (OldCollector.queue (OldCollector.this w2)))%nat).
  { induction l as [|a l IH]; intros w1 H1; [simpl; auto|].
    cbn zeta. cbn [fold_left]. rewrite (Hstep w1 a H1).
    destruct (Hagg (OldCollector.this w1)
                (OldCollector.message stringify (OldCollector.this w1) a)) as [A B].
    match goal with |- context [fold_left _ l ?w'] =>
      destruct (IH w') as (C & D & E) end.
    - cbn [OldCollector.this]. rewrite A. exact H1.
    - cbn zeta in C, D, E. cbn [OldCollector.this OldCollector.stored] in C, D, E.
      split; [exact C | split; [exact D | lia]]. }
  destruct (G submissions w0) as (A & B & C).
  - subst w0. cbn. exact Ho.
  - subst w. repeat split; assumption.
Qed.

Lemma old_missing_maxEntryLength_never_flushes_witness :
  OldCollector.stored
    (fold_left
       (fun w arguments =>
          snd (OldCollector._log (fun _ s => (Ret tt, s)) stringify arguments w))
       [[JsString "LOG"; stamp1; JsString "x"]; [JsString "LOG"; stamp1; JsString "y"]]
       (OldCollector.mkWorld
          (OldCollector.constructor (Some (mkOptions None (Some 5) None))) tt [] 1%nat []))
  = [].
Proof.
  refine (proj1 (old_missing_maxEntryLength_never_flushes unit (fun _ s => (Ret tt, s))
                   stringify (mkOptions None (Some 5) None) tt _ _)).
  reflexivity.
Defined.
